(** * voctrain: the correction store, the word blocks, the exam and the drill

    A shallow embedding of [savestate.py] and of the state-changing part of
    [session.py] and [menu.py], followed by the properties the specification
    states about them.

    - Python [set] of strings is [gset string]; a [dict] keyed by strings whose
      identity is never shared is a [gmap]; the per-session word dict, where
      insertion order and duplicate keys of the source list matter, is an
      insertion-ordered association list ([pydict]).
    - Python [int] is [Z].
    - [input], [print] and [random.shuffle] act on an explicit [World].
    - [str.lower], [str.strip] and the order in which a set is iterated are
      parameters ([Python]): what is proved holds whatever they are. *)

From stdpp Require Import gmap strings list fin_maps pretty.
From Stdlib Require Import ZArith Ascii.

#[local] Set Warnings "-clear-no-such-hyp".

Local Open Scope Z_scope.

(** ** savestate.py, class VocState (by value)

    The two sets stored for a word are created inside [change_translation]
    and never handed out, so the store is modelled by the contents of the
    sets.  The object-level model, where arguments and stored sets are
    references into a heap of set objects, is [Module Heap] below. *)

Record VocState := mkVocState {
  _level : Z;                                               (* self._level *)
  _is_qualified : bool;                                     (* self._is_qualified *)
  _extra_trans : gmap string (gset string * gset string)    (* self._extra_trans *)
}.

(** [VocState.__init__] *)
Definition VocState_init : VocState :=
  {| _level := 0; _is_qualified := false; _extra_trans := ∅ |}.

(** The [level] and [qualified] properties and their setters. *)
Definition set_level (lev : Z) (self : VocState) : VocState :=
  {| _level := lev;
     _is_qualified := _is_qualified self;
     _extra_trans := _extra_trans self |}.

Definition set_qualified (q : bool) (self : VocState) : VocState :=
  {| _level := _level self;
     _is_qualified := q;
     _extra_trans := _extra_trans self |}.

Definition set_extra_trans (et : gmap string (gset string * gset string))
    (self : VocState) : VocState :=
  {| _level := _level self;
     _is_qualified := _is_qualified self;
     _extra_trans := et |}.

(** The pair stored for a word, [(set(), set())] when there is none. *)
Definition corrections (self : VocState) (engword : string)
    : gset string * gset string :=
  default (∅, ∅) (_extra_trans self !! engword).

Definition additions (self : VocState) (engword : string) : gset string :=
  (corrections self engword).1.

Definition removals (self : VocState) (engword : string) : gset string :=
  (corrections self engword).2.

(** [VocState.num_of_modifs] *)
Definition num_of_modifs (self : VocState) : nat :=
  map_fold (λ _ addrm n, (size (addrm.1 ∪ addrm.2) + n)%nat) 0%nat
           (_extra_trans self).

(** [VocState.change_translation]: [setdefault] stores the pair when the word
    has none, and the four in-place updates run in the order of the source. *)
Definition change_translation (self : VocState) (engword : string)
    (add remove : gset string) : VocState :=
  let '(addset, rmset) := corrections self engword in
  let addset := addset ∪ add in
  let addset := addset ∖ remove in
  let rmset := rmset ∪ remove in
  let rmset := rmset ∖ add in
  set_extra_trans (<[engword := (addset, rmset)]> (_extra_trans self)) self.

(** [VocState.get_modified_translations] *)
Definition get_modified_translations (self : VocState) (engword : string)
    (translations : list string) : gset string :=
  let '(addset, rmset) := corrections self engword in
  let result : gset string := list_to_set translations in
  let result := result ∪ addset in
  let result := result ∖ rmset in
  result.

(** [VocState.reset_modifications] *)
Definition reset_modifications (self : VocState) (engword : string) : VocState :=
  if decide (engword ∈ dom (_extra_trans self))
  then set_extra_trans (delete engword (_extra_trans self)) self
  else self.

(** A call of one of the two mutating methods of the correction store. *)
Inductive store_call :=
| CallChange (engword : string) (add remove : gset string)
| CallReset (engword : string).

Definition run_call (self : VocState) (c : store_call) : VocState :=
  match c with
  | CallChange w add remove => change_translation self w add remove
  | CallReset w => reset_modifications self w
  end.

Definition run_calls (self : VocState) (cs : list store_call) : VocState :=
  foldl run_call self cs.

(** ** Python containers used by session.py *)

(** Index adjustment of a slice bound (step 1): a negative bound counts from
    the end, and every bound is clamped to [0, len]. *)
Definition slice_index (i len : Z) : Z :=
  if i <? 0 then Z.max (i + len) 0 else Z.min i len.

(** [l[start:stop]] *)
Definition py_slice {A} (l : list A) (start stop : Z) : list A :=
  let len := Z.of_nat (length l) in
  let a := slice_index start len in
  let b := slice_index stop len in
  take (Z.to_nat (b - a)) (drop (Z.to_nat a) l).

(** A [dict] with string keys: its items in insertion order. *)
Abbreviation pydict V := (list (string * V)).

(** [d[k] = v]: an existing key keeps its place and takes the new value, a new
    key goes to the end. *)
Fixpoint dict_setitem {V} (k : string) (v : V) (d : pydict V) : pydict V :=
  match d with
  | [] => [(k, v)]
  | (k', v') :: d' =>
      if decide (k = k') then (k, v) :: d' else (k', v') :: dict_setitem k v d'
  end.

(** [dict(pairs)]: the pairs are stored from left to right. *)
Definition dict_from_pairs {V} (pairs : list (string * V)) : pydict V :=
  foldl (λ d kv, dict_setitem kv.1 kv.2 d) [] pairs.

(** [d[k]], [None] standing for KeyError. *)
Fixpoint dict_getitem {V} (d : pydict V) (k : string) : option V :=
  match d with
  | [] => None
  | (k', v) :: d' => if decide (k = k') then Some v else dict_getitem d' k
  end.

(** [del d[k]], [None] standing for KeyError. *)
Fixpoint dict_delitem {V} (d : pydict V) (k : string) : option (pydict V) :=
  match d with
  | [] => None
  | (k', v) :: d' =>
      if decide (k = k') then Some d'
      else cons (k', v) <$> dict_delitem d' k
  end.

(** [list(d.keys())] *)
Definition dict_keys {V} (d : pydict V) : list string := d.*1.

(** [not d] *)
Definition dict_is_empty {V} (d : pydict V) : bool :=
  match d with [] => true | _ => false end.

(** ** session.py: the word block of a level *)

Definition _NUMWORDS : Z := 10.
Definition _MAXLEVEL : Z := 10.

(** The type of the list read from the vocabulary file. *)
Abbreviation VocTable := (list (string * list string)).

(** [_setup_test] *)
Definition _setup_test (vstate : VocState) (voctable : VocTable)
    : pydict (list string) :=
  let startix := _NUMWORDS * _level vstate in
  dict_from_pairs (py_slice voctable startix (startix + _NUMWORDS)).

(** The entries of the vocabulary list at the indices
    [L*10, L*10+10), the level being L. *)
Definition level_entries (vstate : VocState) (voctable : VocTable)
    : list (string * list string) :=
  take 10 (drop (Z.to_nat (10 * _level vstate)) voctable).

(** ** Example data *)

(** A vocabulary of twelve entries: level 0 is full, level 1 has two words. *)
Definition voc_twelve : VocTable :=
  [("one", ["ett"; "en"]); ("two", ["tva"]); ("three", ["tre"]);
   ("four", ["fyra"]); ("five", ["fem"]); ("six", ["sex"]);
   ("seven", ["sju"]); ("eight", ["atta"]); ("nine", ["nio"]);
   ("ten", ["tio"]); ("eleven", ["elva"]); ("twelve", ["tolv"])].

(** A vocabulary whose first block has the English word "light" twice. *)
Definition voc_light : VocTable :=
  [("light", ["ljus"]); ("dark", ["mork"]); ("light", ["latt"])].

(** The state after the user replaced "tva" by "tvaa" for the word "two". *)
Definition vstate_two : VocState :=
  change_translation VocState_init "two" {["tvaa"]} {["tva"]}.

(** ** The world of a session: the shared state object, the terminal and the
    random module *)

(** An option of [menu.choose]: the tuple (input[, value], description). *)
Record menuopt := MenuOpt {
  opt_input : string;
  opt_value : option string;
  opt_text : string
}.

(** What the program prints, one constructor per print statement (or per
    group of them that always come together), holding the values the text is
    formatted from. *)
Inductive event :=
| EvClearScreen                                   (* _clear_screen *)
| EvBanner (text : string) (width : Z)            (* _print_banner *)
| EvPrompt (num : nat) (engword : string)         (* "{num + 1}: How do you say '{engword}'? " *)
| EvCorrect                                       (* "  Correct!" *)
| EvExamPassed                                    (* "You finished the exam with no errors! ..." *)
| EvLevelUp (level : Z)                           (* "Level up! New level ... is {level}." *)
| EvPressReturn                                   (* "Press return" *)
| EvExamFailed                                    (* "You failed the exam. ..." *)
| EvRoundStart (numwords : nat)                   (* "Starting test round of {n} words." *)
| EvNotCorrect (translations : gset string)       (* "Not correct. It should be ..." *)
| EvOkContinuing                                  (* "Ok. Continuing." *)
| EvOkAdding (answer : string)                    (* "Ok. Adding '{answer}' ..." *)
| EvOkClearing (engword : string)                 (* "Ok. Clearing all changes ..." *)
| EvOkReplacing (replaceword : option string) (answer : string)
                                                  (* "Ok. Replacing '{replaceword}' with ..." *)
| EvKnowAll                                       (* "You seem to know all the words!" *)
| EvNowQualified                                  (* "You are now qualfied to take the exam!" *)
| EvRoundScore (correct numwords : nat)           (* "Done. You got {c}/{n} correct!" *)
| EvDifficultWords                                (* "Difficult words:" and the rule under it *)
| EvDifficultWord (engword : string) (translations : gset string)
                                                  (* "  {engword} -> {translations}" *)
| EvMenu (text : string) (options : list menuopt) (* the menu text, its options, "Your choice:" *)
| EvInvalidChoice (inp : string).                 (* "'{inp}' not a valid choice! Try again" *)

Record World := mkWorld {
  vstate : VocState;     (* the VocState object passed to the session functions *)
  stdin : list string;   (* the lines input() has still to read *)
  stdout : list event;   (* what was printed, oldest first *)
  entropy : list nat     (* the draws the random module has still to make *)
}.

Definition set_vstate (vs : VocState) (w : World) : World :=
  {| vstate := vs; stdin := stdin w; stdout := stdout w; entropy := entropy w |}.
Definition set_stdin (lines : list string) (w : World) : World :=
  {| vstate := vstate w; stdin := lines; stdout := stdout w; entropy := entropy w |}.
Definition emit (e : event) (w : World) : World :=
  {| vstate := vstate w; stdin := stdin w; stdout := stdout w ++ [e];
     entropy := entropy w |}.
Definition set_entropy (draws : list nat) (w : World) : World :=
  {| vstate := vstate w; stdin := stdin w; stdout := stdout w; entropy := draws |}.

(** Python exceptions the modelled code can raise. *)
Inductive exn :=
| EOFError                   (* input() at the end of the input *)
| KeyError (k : string)      (* d[k], del d[k] *)
| AssertionError.            (* assert *)

(** A call returns, raises, or (for the loop of [_train], which is run on a
    bounded number of rounds) uses up its rounds. *)
Inductive result (A : Type) :=
| Return (a : A)
| Raise (e : exn)
| Timeout.
Arguments Return {A} a.
Arguments Raise {A} e.
Arguments Timeout {A}.

(** A computation: it changes the world and has a result.  What was changed
    before an exception stays changed. *)
Definition M (A : Type) : Type := World → result A * World.

#[global] Instance M_ret : MRet M := λ A a w, (Return a, w).

#[global] Instance M_bind : MBind M := λ A B f m w,
  match m w with
  | (Return a, w') => f a w'
  | (Raise e, w') => (Raise e, w')
  | (Timeout, w') => (Timeout, w')
  end.

Definition raise {A} (e : exn) : M A := λ w, (Raise e, w).

(** [input()]: the next line, without its newline. *)
Definition input : M string := λ w,
  match stdin w with
  | [] => (Raise EOFError, w)
  | line :: rest => (Return line, set_stdin rest w)
  end.

Definition print (e : event) : M unit := λ w, (Return tt, emit e w).

Definition get_vstate : M VocState := λ w, (Return (vstate w), w).

Definition update_vstate (f : VocState → VocState) : M unit := λ w,
  (Return tt, set_vstate (f (vstate w)) w).

(** [d[k]] and [del d[k]] with their KeyError. *)
Definition getitem {V} (d : pydict V) (k : string) : M V :=
  match dict_getitem d k with
  | Some v => mret v
  | None => raise (KeyError k)
  end.

Definition delitem {V} (d : pydict V) (k : string) : M (pydict V) :=
  match dict_delitem d k with
  | Some d' => mret d'
  | None => raise (KeyError k)
  end.

(** [random.shuffle] is not code of this repository.  It is modelled as the
    permutation the random draws select: each draw picks, among the elements
    not yet placed, the next one.  Every permutation is selected by some
    draws ([shuffle_draws_onto]). *)
Fixpoint shuffle_draws (n : nat) (draws : list nat) (l : list string)
    : list string * list nat :=
  match n with
  | O => ([], draws)
  | S n' =>
      let d := default 0%nat (head draws) in
      let j := (d `mod` length l)%nat in
      match l !! j with
      | Some x =>
          let '(rest, draws') := shuffle_draws n' (tail draws) (delete j l) in
          (x :: rest, draws')
      | None => ([], tail draws)
      end
  end.

Definition random_shuffle (l : list string) : M (list string) := λ w,
  let '(l', draws) := shuffle_draws (length l) (entropy w) l in
  (Return l', set_entropy draws w).

(** ** Python's own: [str.lower], [str.strip] and the order of a set

    The methods [str.lower] and [str.strip] and the order in which a set is
    iterated are Python's, not code of this repository.  They are taken as
    parameters ([Python] below): a string here is the Python string in a
    fixed encoding in which a tab and a comma are one byte each, such as
    UTF-8.  On strings of ASCII characters [str.lower] and [str.strip] are
    the two functions that follow, which the examples are run with. *)
Definition lower_ascii (c : ascii) : ascii :=
  let n := nat_of_ascii c in
  if ((65 <=? n) && (n <=? 90))%nat then ascii_of_nat (n + 32) else c.

Fixpoint ascii_lower (s : string) : string :=
  match s with
  | EmptyString => EmptyString
  | String c s' => String (lower_ascii c) (ascii_lower s')
  end.

(** [_clear_screen] and [_print_banner] *)
Definition _clear_screen : M unit := print EvClearScreen.
Definition _print_banner (text : string) (width : Z) : M unit :=
  print (EvBanner text width).

(** ** menu.py *)

(** A value used as a condition: [None] and the empty string are false. *)
Definition truthy (s : option string) : bool :=
  match s with
  | None => false
  | Some s => negb (bool_decide (s = ""))
  end.

(** ** savestate.py, class VocState (by reference)

    The same class with its set objects in a heap: a parameter of
    [change_translation] is a reference to a set object, the two default
    values [set()] of its signature are two objects created once, when the
    [def] is executed, and the pair stored for a word holds references to two
    objects of the store's own. *)
Module Heap.

Definition loc := nat.

Record state := mkState {
  level : Z;                                (* self._level *)
  is_qualified : bool;                      (* self._is_qualified *)
  objs : gmap loc (gset string);            (* the set objects that exist *)
  extra_trans : gmap string (loc * loc)     (* self._extra_trans *)
}.

(** The objects of [add: set = set()] and [remove: set = set()]. *)
Definition default_add : loc := 0%nat.
Definition default_remove : loc := 1%nat.

(** The class is defined and [VocState()] is called. *)
Definition init : state :=
  {| level := 0; is_qualified := false;
     objs := {[default_add := ∅; default_remove := ∅]};
     extra_trans := ∅ |}.

(** The elements of the object at [l]. *)
Definition content (st : state) (l : loc) : gset string :=
  default ∅ (objs st !! l).

Definition store (l : loc) (s : gset string) (st : state) : state :=
  {| level := level st; is_qualified := is_qualified st;
     objs := <[l := s]> (objs st); extra_trans := extra_trans st |}.

Arguments store : simpl never.

Definition set_extra_trans (et : gmap string (loc * loc)) (st : state)
    : state :=
  {| level := level st; is_qualified := is_qualified st;
     objs := objs st; extra_trans := et |}.

(** A new set object with the elements [s]: [set()], [{answer}],
    [set(translations)]. *)
Definition new_set (s : gset string) (st : state) : loc * state :=
  let l := fresh (dom (objs st)) in (l, store l s st).

(** [x |= y] and [x -= y], on the objects. *)
Definition ior (x y : loc) (st : state) : state :=
  store x (content st x ∪ content st y) st.

Definition isub (x y : loc) (st : state) : state :=
  store x (content st x ∖ content st y) st.

(** [dict.setdefault] and [dict.get] with the default [(set(), set())],
    which is built before the call. *)
Definition setdefault_pair (engword : string) (st : state)
    : (loc * loc) * state :=
  let '(l1, st) := new_set ∅ st in
  let '(l2, st) := new_set ∅ st in
  match extra_trans st !! engword with
  | Some stored => (stored, st)
  | None => ((l1, l2), set_extra_trans (<[engword := (l1, l2)]> (extra_trans st)) st)
  end.

Definition get_pair (engword : string) (st : state) : (loc * loc) * state :=
  let '(l1, st) := new_set ∅ st in
  let '(l2, st) := new_set ∅ st in
  (default (l1, l2) (extra_trans st !! engword), st).

(** [VocState.change_translation]; [None] is an omitted parameter. *)
Definition change_translation (st : state) (engword : string)
    (add remove : option loc) : state :=
  let add := default default_add add in
  let remove := default default_remove remove in
  let '((addset, rmset), st) := setdefault_pair engword st in
  let st := ior addset add st in
  let st := isub addset remove st in
  let st := ior rmset remove st in
  let st := isub rmset add st in
  st.

(** [VocState.get_modified_translations]: the object returned is new. *)
Definition get_modified_translations (st : state) (engword : string)
    (translations : list string) : loc * state :=
  let '((addset, rmset), st) := get_pair engword st in
  let '(result, st) := new_set (list_to_set translations) st in
  let st := ior result addset st in
  let st := isub result rmset st in
  (result, st).

(** [VocState.reset_modifications] *)
Definition reset_modifications (st : state) (engword : string) : state :=
  if decide (engword ∈ dom (extra_trans st))
  then set_extra_trans (delete engword (extra_trans st)) st
  else st.

(** The state as [VocState] by value has it. *)
Definition view (st : state) : VocState :=
  {| _level := level st;
     _is_qualified := is_qualified st;
     _extra_trans := (λ p, (content st p.1, content st p.2)) <$> extra_trans st |}.

(** [l] is one of the set objects of the store. *)
Definition owned (st : state) (l : loc) : Prop :=
  ∃ w p, extra_trans st !! w = Some p ∧ (l = p.1 ∨ l = p.2).

(** What client code does with a [VocState]: it makes set objects and calls
    the methods, passing objects that exist. *)
Inductive op :=
| NewSet (s : gset string)
| Change (engword : string) (add remove : option loc)
| Reset (engword : string)
| GetModified (engword : string) (translations : list string).

Definition exists_arg (st : state) (a : option loc) : bool :=
  match a with
  | None => true
  | Some l => bool_decide (l ∈ dom (objs st))
  end.

Definition run_op (st : state) (o : op) : option state :=
  match o with
  | NewSet s => Some (new_set s st).2
  | Change w add remove =>
      if exists_arg st add && exists_arg st remove
      then Some (change_translation st w add remove) else None
  | Reset w => Some (reset_modifications st w)
  | GetModified w translations =>
      Some (get_modified_translations st w translations).2
  end.

Fixpoint run_ops (st : state) (os : list op) : option state :=
  match os with
  | [] => Some st
  | o :: os' =>
      match run_op st o with
      | Some st' => run_ops st' os'
      | None => None
      end
  end.

(** The elements an argument passes: those of its object, none when it is
    omitted. *)
Definition passed (st : state) (a : option loc) : gset string :=
  match a with
  | None => ∅
  | Some l => content st l
  end.

(** An argument of client code: omitted, or an existing object that is not
    one of the store's own. *)
Definition client_arg (st : state) (a : option loc) : Prop :=
  match a with
  | None => True
  | Some l => l ∈ dom (objs st) ∧ ¬ owned st l
  end.

(** The store's objects exist, are not the default objects, and are all
    different; the default objects are empty. *)
Definition wf (st : state) : Prop :=
  objs st !! default_add = Some ∅
  ∧ objs st !! default_remove = Some ∅
  ∧ (∀ w p, extra_trans st !! w = Some p →
       p.1 ∈ dom (objs st) ∧ p.2 ∈ dom (objs st) ∧ p.1 ≠ p.2
       ∧ p.1 ≠ default_add ∧ p.1 ≠ default_remove
       ∧ p.2 ≠ default_add ∧ p.2 ≠ default_remove)
  ∧ (∀ w w' p p', w ≠ w' →
       extra_trans st !! w = Some p → extra_trans st !! w' = Some p' →
       p.1 ≠ p'.1 ∧ p.1 ≠ p'.2 ∧ p.2 ≠ p'.1 ∧ p.2 ≠ p'.2).

End Heap.

(** Client code made the set {"tvaa"} and passed it as [remove] for the word
    "one". *)
Definition heap_example : Heap.state :=
  Heap.change_translation (Heap.new_set {["tvaa"]} Heap.init).2 "one" None
                          (Some 2%nat).

(** ** Strings: [split] and [strip] *)


(** [s.split(sep)] for a separator of one character: one more field than
    there are separators. *)
Fixpoint split_on (sep : ascii) (s : string) : list string :=
  match s with
  | EmptyString => [EmptyString]
  | String c s' =>
      if decide (c = sep) then EmptyString :: split_on sep s'
      else match split_on sep s' with
           | [] => [String c EmptyString]
           | field :: fields => String c field :: fields
           end
  end.

(** White space as [str.strip] sees it, among the ASCII characters: tab to
    carriage return, the four separators 28 to 31, and the space. *)
Definition is_space (c : ascii) : bool :=
  let n := nat_of_ascii c in
  ((9 <=? n) && (n <=? 13) || (28 <=? n) && (n <=? 31) || (n =? 32))%nat.

Fixpoint lstrip (s : string) : string :=
  match s with
  | EmptyString => EmptyString
  | String c s' => if is_space c then lstrip s' else s
  end.

Fixpoint rstrip (s : string) : string :=
  match s with
  | EmptyString => EmptyString
  | String c s' =>
      match rstrip s' with
      | EmptyString => if is_space c then EmptyString else String c EmptyString
      | t => String c t
      end
  end.

(** [s.strip()] on a string of ASCII characters. *)
Definition ascii_strip (s : string) : string := rstrip (lstrip s).

(** The characters tab and comma. *)
Definition tab : ascii := ascii_of_nat 9.
Definition comma : ascii := ascii_of_nat 44.

(** What can go wrong when a vocabulary file is read. *)
Inductive read_error :=
| OSError        (* open(): no such file, or not a regular file *)
| ValueError.    (* a line without exactly three fields *)

(** How often a character occurs in a string, and the fields joined again
    with the separator between them. *)
Fixpoint count_char (c : ascii) (s : string) : nat :=
  match s with
  | EmptyString => 0
  | String c' s' => (if decide (c' = c) then 1 else 0) + count_char c s'
  end%nat.

Fixpoint join_with (sep : ascii) (fields : list string) : string :=
  match fields with
  | [] => EmptyString
  | [field] => field
  | field :: fields' => field +:+ String sep (join_with sep fields')
  end.

(** ** savestate.py, class TraineeState *)

Record TraineeState := mkTraineeState {
  _current_voc : string;                (* self._current_voc *)
  _voc_states : pydict VocState         (* self._voc_states, in insertion order *)
}.

(** [TraineeState.__init__] *)
Definition TraineeState_init : TraineeState :=
  {| _current_voc := ""; _voc_states := [] |}.

(** The setter of the property [voc_file]. *)
Definition set_voc_file (filepath : string) (self : TraineeState)
    : TraineeState :=
  {| _current_voc := filepath; _voc_states := _voc_states self |}.

(** The state object of the current vocabulary is stored under its name;
    what is done to the object is done to the stored state. *)
Definition store_current (vs : VocState) (self : TraineeState) : TraineeState :=
  {| _current_voc := _current_voc self;
     _voc_states := dict_setitem (_current_voc self) vs (_voc_states self) |}.

(** The property [current_voc_state]:
    [self._voc_states.setdefault(self._current_voc, VocState())]. *)
Definition current_voc_state (self : TraineeState) : VocState * TraineeState :=
  match dict_getitem (_voc_states self) (_current_voc self) with
  | Some vs => (vs, self)
  | None => (VocState_init, store_current VocState_init self)
  end.

(** ** The session: the trainee state, the working directory, the terminal
    and the random module *)

(** What [run_session], [_switch_voc] and [print_all_stats] print, and what
    the functions they call print. *)
Inductive sevent :=
| SvInner (e : event)                     (* printed by [choose], [_train], [_take_exam] *)
| SvRule                                  (* '-' * 60 *)
| SvNoVocabulary                          (* "No vocabulary file selected. ..." *)
| SvCurrent (voc_file : string)           (* "  Current vocabulary: {voc_file}" *)
| SvLevel (level : Z)                     (* "  Level: {level}" *)
| SvQualified (qualstr : string)          (* "  Qualified for exam: {qualstr}" *)
| SvBlank                                 (* print() *)
| SvBye                                   (* "Ok. See you soon!" *)
| SvNoVocFile                             (* "WARNING: No _voc.txt file was found. ..." *)
| SvStatsHeader                           (* the heading of the table *)
| SvStatsRow (curstr k : string) (level : Z) (modifs : nat) (qual : string)
| SvStatsFooter.                          (* "    * = current selected vocabulary" *)

Record Session := mkSession {
  tstate : TraineeState;                              (* the TraineeState object *)
  directory : list (string * option (list string));   (* the working directory *)
  lines_in : list string;                             (* the lines input() has still to read *)
  transcript : list sevent;                           (* what was printed, oldest first *)
  draws : list nat                                    (* the draws of the random module *)
}.

Definition set_tstate (ts : TraineeState) (s : Session) : Session :=
  {| tstate := ts; directory := directory s; lines_in := lines_in s;
     transcript := transcript s; draws := draws s |}.

(** Exceptions of a session: those of the functions called, those of
    reading a vocabulary file, and the TypeError of slicing [None]. *)
Inductive sexn :=
| Inner (e : exn)
| ReadError (e : read_error)
| TypeError.

Inductive sresult (A : Type) :=
| SReturn (a : A)
| SRaise (e : sexn)
| STimeout.
Arguments SReturn {A} a.
Arguments SRaise {A} e.
Arguments STimeout {A}.

Definition SM (A : Type) : Type := Session → sresult A * Session.

#[global] Instance SM_ret : MRet SM := λ A a s, (SReturn a, s).

#[global] Instance SM_bind : MBind SM := λ A B f m s,
  match m s with
  | (SReturn a, s') => f a s'
  | (SRaise e, s') => (SRaise e, s')
  | (STimeout, s') => (STimeout, s')
  end.

Definition sraise {A} (e : sexn) : SM A := λ s, (SRaise e, s).

Definition sprint (e : sevent) : SM unit := λ s,
  (SReturn tt,
   {| tstate := tstate s; directory := directory s; lines_in := lines_in s;
      transcript := transcript s ++ [e]; draws := draws s |}).

Definition get_tstate : SM TraineeState := λ s, (SReturn (tstate s), s).

Definition update_tstate (f : TraineeState → TraineeState) : SM unit := λ s,
  (SReturn tt, set_tstate (f (tstate s)) s).

(** [tstate.current_voc_state] *)
Definition get_current_voc_state : SM VocState := λ s,
  (SReturn (current_voc_state (tstate s)).1,
   set_tstate (current_voc_state (tstate s)).2 s).

(** [os.listdir('.')] with [os.path.isfile]: the directory as it is. *)
Definition get_directory : SM (list (string * option (list string))) := λ s,
  (SReturn (directory s), s).

(** A function of the terminal called with the state object [vs]: it reads
    the lines and the draws of the session and prints to its transcript; the
    state object as the call leaves it is returned with the result. *)
Definition call {A} (vs : VocState) (m : M A) (s : Session)
    : result A * VocState * Session :=
  let '(r, w) := m (mkWorld vs (lines_in s) [] (draws s)) in
  (r, vstate w,
   {| tstate := tstate s; directory := directory s; lines_in := stdin w;
      transcript := transcript s ++ (SvInner <$> stdout w);
      draws := entropy w |}).

Definition of_result {A} (r : result A) : sresult A :=
  match r with
  | Return a => SReturn a
  | Raise e => SRaise (Inner e)
  | Timeout => STimeout
  end.

(** What the code takes from Python: [s.lower()], [s.strip()], and the
    order in which [for ... in s] and [enumerate(s)] go through a set [s]
    when the run is in the state [w] (it depends on the hashes of the run
    and on how the set was built, and is some order of its elements). *)
Class Python := {
  lower : string → string;
  strip : string → string;
  iter_order : World → gset string → list string;
  iter_order_perm : ∀ w s, iter_order w s ≡ₚ elements s
}.

(** Python on ASCII strings, with the sets iterated in the order of
    [elements]. *)
Definition ascii_python : Python :=
  {| lower := ascii_lower; strip := ascii_strip;
     iter_order := λ _ s, elements s;
     iter_order_perm := λ _ s, reflexivity (elements s) |}.

Section python.
Context {py : Python}.

(** The [while True] loop of [choose].  Every turn reads one line, so the
    loop is a recursion on the lines still to read. *)
Fixpoint choose_loop (lines : list string) (text : string)
    (options : list menuopt) (default : option string)
    (input_dict : pydict (string * option string)) (w : World)
    : result (string * option string) * World :=
  let w := emit (EvMenu text options) w in
  match lines with
  | [] => (Raise EOFError, w)
  | inp :: lines' =>
      let w := set_stdin lines' w in
      let inp := if truthy default && bool_decide (inp = "")
                 then from_option id "" default else inp in
      match dict_getitem input_dict inp with
      | Some optval => (Return optval, w)
      | None =>
          choose_loop lines' text options default input_dict
                      (emit (EvInvalidChoice (strip inp)) w)
      end
  end.

(** [menu.choose] *)
Definition choose (text : string) (options : list menuopt)
    (default : option string) : M (string * option string) :=
  if negb (truthy default)
     || bool_decide (from_option id "" default ∈ opt_input <$> options)
  then
    let input_dict :=
      dict_from_pairs ((λ tup, (opt_input tup, (opt_input tup, opt_value tup)))
                         <$> options) in
    ((λ w, choose_loop (stdin w) text options default input_dict w)
       : M (string * option string))
  else raise AssertionError.

(** ** session.py: the exam *)

(** The [for] loop of [_take_exam]; [break] returns the dict as it is. *)
Fixpoint exam_loop (testwords : list string) (num : nat)
    (vocdict : pydict (list string)) : M (pydict (list string)) :=
  match testwords with
  | [] => mret vocdict
  | engword :: testwords' =>
      defaults ← getitem vocdict engword;
      vs ← get_vstate;
      let translations := get_modified_translations vs engword defaults in
      print (EvPrompt (num + 1) engword);;
      line ← input;
      let answer := lower line in
      if bool_decide (answer ∈ translations) then
        print EvCorrect;;
        vocdict ← delitem vocdict engword;
        exam_loop testwords' (S num) vocdict
      else
        mret vocdict
  end.

(** [_take_exam] *)
Definition _take_exam (voctable : VocTable) : M unit :=
  vs ← get_vstate;
  let vocdict := _setup_test vs voctable in
  testwords ← random_shuffle (dict_keys vocdict);
  _clear_screen;;
  _print_banner ("LEVEL " +:+ pretty (_level vs + 1) +:+ " EXAM!") 40;;
  vocdict ← exam_loop testwords 0 vocdict;
  if dict_is_empty vocdict then
    print EvExamPassed;;
    update_vstate (λ vs, set_level (_level vs + 1) vs);;
    update_vstate (set_qualified false);;
    vs ← get_vstate;
    print (EvLevelUp (_level vs));;
    print EvPressReturn;;
    _ ← input;
    mret tt
  else
    print EvExamFailed.

(** ** session.py: the drill *)

(** The set literal [{replaceword}] of the last branch of
    [_modify_translation].  The branch is taken for the numbered options
    only, which all carry a word. *)
Definition set_of_value (replaceword : option string) : gset string :=
  match replaceword with
  | Some word => {[word]}
  | None => ∅
  end.

(** [enumerate(translations, start=1)]: the elements of the set in the
    order of this iteration. *)
Definition iterate (s : gset string) : M (list string) := λ w,
  (Return (iter_order w s), w).

(** The menu of [_modify_translation] for the translations in the order
    [words]. *)
Definition modify_menu (engword answer : string) (words : list string)
    : list menuopt :=
  [MenuOpt "0" None "[Default] Do nothing. My translation was wrong.";
   MenuOpt "a" None ("Add '" +:+ answer +:+ "' to translations");
   MenuOpt "r" None ("Reset to original translation of '" +:+ engword +:+ "'")]
  ++ imap (λ n word,
             MenuOpt (pretty (S n)) (Some word)
                     ("Replace '" +:+ word +:+ "' with '" +:+ answer +:+ "'"))
          words.

(** [_modify_translation].  An omitted [add] or [remove] of
    [change_translation] is the empty set ([Heap] above models the default
    objects themselves). *)
Definition _modify_translation (engword answer : string)
    (translations : gset string) : M unit :=
  words ← iterate translations;
  let menuopts := modify_menu engword answer words in
  '(opt, replaceword) ←
    choose "[Add/Modify Translation] What would you like to do?" menuopts
           (Some "0");
  if decide (opt = "0") then
    print EvOkContinuing
  else if decide (opt = "a") then
    print (EvOkAdding answer);;
    update_vstate (λ vs, change_translation vs engword {[answer]} ∅)
  else if decide (opt = "r") then
    print (EvOkClearing engword);;
    update_vstate (λ vs, reset_modifications vs engword)
  else
    print (EvOkReplacing replaceword answer);;
    update_vstate (λ vs, change_translation vs engword {[answer]}
                                            (set_of_value replaceword)).

(** The [for] loop of a round of [_train]. *)
Fixpoint train_round (testwords : list string) (num : nat)
    (vocdict : pydict (list string)) : M (pydict (list string)) :=
  match testwords with
  | [] => mret vocdict
  | engword :: testwords' =>
      defaults ← getitem vocdict engword;
      vs ← get_vstate;
      let translations := get_modified_translations vs engword defaults in
      print (EvPrompt (num + 1) engword);;
      line ← input;
      let answer := lower line in
      if negb (bool_decide (answer ∈ translations)) then
        print (EvNotCorrect translations);;
        _modify_translation engword answer translations;;
        train_round testwords' (S num) vocdict
      else
        print EvCorrect;;
        vocdict ← delitem vocdict engword;
        train_round testwords' (S num) vocdict
  end.

(** The listing of the words still missed at the end of a round. *)
Fixpoint print_difficult (engwords : list string)
    (vocdict : pydict (list string)) : M unit :=
  match engwords with
  | [] => mret tt
  | engword :: engwords' =>
      defaults ← getitem vocdict engword;
      vs ← get_vstate;
      print (EvDifficultWord engword
               (get_modified_translations vs engword defaults));;
      print_difficult engwords' vocdict
  end.

(** The [while keepon] loop of [_train], on at most [rounds] rounds. *)
Fixpoint train_loop (rounds : nat) (vocdict : pydict (list string)) : M unit :=
  match rounds with
  | O => λ w, (Timeout, w)
  | S rounds' =>
      testwords ← random_shuffle (dict_keys vocdict);
      let numwords := length testwords in
      print (EvRoundStart (length testwords));;
      vocdict ← train_round testwords 0 vocdict;
      if dict_is_empty vocdict then
        print EvKnowAll;;
        vs ← get_vstate;
        if negb (_is_qualified vs) then
          (if bool_decide (_level vs < _MAXLEVEL)
           then print EvNowQualified else mret tt);;
          update_vstate (set_qualified true)
        else mret tt
      else
        print (EvRoundScore (numwords - length vocdict) numwords);;
        print EvDifficultWords;;
        print_difficult (dict_keys vocdict) vocdict;;
        let menutext := "[Training Menu] Would you like to continue training?" in
        let menuopts := [MenuOpt "c" None "Continue with difficult words?";
                         MenuOpt "x" None "Exit to main menu"] in
        choice ← choose menutext menuopts None;
        if decide (choice.1 = "x") then mret tt
        else _clear_screen;; train_loop rounds' vocdict
  end.

(** [_train].  A round that does not end the session reads at least one
    line, so one round more than there are lines to read is enough
    ([_train_returns]). *)
Definition _train (voctable : VocTable) : M unit :=
  vs ← get_vstate;
  let vocdict := _setup_test vs voctable in
  _print_banner ("Level " +:+ pretty (_level vs) +:+ " training session") 40;;
  ((λ w, train_loop (S (length (stdin w))) vocdict w) : M unit).

(** ** Notions the properties are stated with *)

(** The user's answer to a word matches: lower-cased, it is among the
    effective translations of the word (the test both loops make). *)
Definition answer_matches (vs : VocState) (vocdict : pydict (list string))
    (engword line : string) : bool :=
  match dict_getitem vocdict engword with
  | Some defaults =>
      bool_decide (lower line ∈ get_modified_translations vs engword defaults)
  | None => false
  end.

(** What the exam prints for words that are all answered correctly, the
    first of them being number [num + 1]. *)
Fixpoint exam_transcript (num : nat) (words : list string) : list event :=
  match words with
  | [] => []
  | engword :: words' =>
      EvPrompt (num + 1) engword :: EvCorrect :: exam_transcript (S num) words'
  end.

(** The order in which [_take_exam] asks the words of the block, in a world
    [w]. *)
Definition exam_order (voctable : VocTable) (w : World) : list string :=
  (shuffle_draws (length (dict_keys (_setup_test (vstate w) voctable)))
                 (entropy w)
                 (dict_keys (_setup_test (vstate w) voctable))).1.

(** What [_take_exam] prints before the first word. *)
Definition exam_heading (vs : VocState) : list event :=
  [EvClearScreen; EvBanner ("LEVEL " +:+ pretty (_level vs + 1) +:+ " EXAM!") 40].

(** A qualified user at level 0 of [voc_light] who answers both words of
    the block, and one who gives the first translation of "light", which the
    block has lost. *)
Definition world_pass : World :=
  mkWorld (set_qualified true VocState_init) ["MORK"; "latt"; ""] [] [1%nat].

Definition world_fail : World :=
  mkWorld (set_qualified true VocState_init) ["mork"; "ljus"; "never read"]
          [] [1%nat].

(** What a computation prints when run in [w]. *)
Definition printed {A} (m : M A) (w : World) : list event :=
  drop (length (stdout w)) (stdout (m w).2).

(** A computation that is no part of the outcome of a drill: it ends (returns
    or raises), reads its input forwards, leaves the level and the
    qualification alone and prints only events in [P]. *)
Definition steady (P : event → Prop) {A} (m : M A) : Prop :=
  ∀ w,
    (m w).1 ≠ Timeout
    ∧ _level (vstate (m w).2) = _level (vstate w)
    ∧ _is_qualified (vstate (m w).2) = _is_qualified (vstate w)
    ∧ (length (stdin (m w).2) ≤ length (stdin w))%nat
    ∧ ∃ evs, stdout (m w).2 = stdout w ++ evs ∧ Forall P evs.

(** The events of the dialogue on a rejected answer, and those of a round. *)
Definition dialogue_event (e : event) : Prop :=
  match e with
  | EvMenu _ _ | EvInvalidChoice _ | EvOkContinuing | EvOkAdding _
  | EvOkClearing _ | EvOkReplacing _ _ => True
  | _ => False
  end.

Definition round_event (e : event) : Prop :=
  match e with
  | EvPrompt _ _ | EvCorrect | EvNotCorrect _ => True
  | _ => dialogue_event e
  end.

(** Every event but the two of a drill that ends with all words known. *)
Definition not_final (e : event) : Prop :=
  e ≠ EvKnowAll ∧ e ≠ EvNowQualified.

(** How a drill that printed [evs] from the world [w] has ended: either with
    all words known, qualified, and with the message about the exam exactly
    when the user was not qualified and below the last level; or otherwise,
    with the qualification as it was. *)
Definition drill_outcome (w : World) (r : result unit * World)
    (evs : list event) : Prop :=
  (EvKnowAll ∈ evs
   ∧ r.1 = Return tt
   ∧ _is_qualified (vstate r.2) = true
   ∧ (EvNowQualified ∈ evs
      ↔ _is_qualified (vstate w) = false ∧ _level (vstate w) < _MAXLEVEL))
  ∨ ((EvKnowAll ∉ evs)
     ∧ (EvNowQualified ∉ evs)
     ∧ _is_qualified (vstate r.2) = _is_qualified (vstate w)).

(** What holds of a drill run from [w] with result and final world [r]. *)
Definition drill_spec (w : World) (r : result unit * World) : Prop :=
  ∃ evs,
    stdout r.2 = stdout w ++ evs
    ∧ r.1 ≠ Timeout
    ∧ _level (vstate r.2) = _level (vstate w)
    ∧ drill_outcome w r evs.

(** A vocabulary of 101 entries, "w0" ... "w100" with the translations
    "t0" ... "t100": its level 10 has the one word "w100".  A user at level
    10, not qualified, who knows that word. *)
Definition voc_hundred_one : VocTable :=
  imap (λ i _, ("w" +:+ pretty i, ["t" +:+ pretty i])) (replicate 101 ()).

Definition world_master : World :=
  mkWorld (set_level 10 VocState_init) ["t100"] [] [].

(** A block whose one translation has a capital letter, and a user who
    types that translation as it is. *)
Definition block_house : pydict (list string) := [("house", ["Haus"])].

Definition world_haus : World :=
  mkWorld VocState_init ["Haus"; "0"] [] [].

(** ** Notions for the menu *)

(** The key [choose] looks up for a line: the default for an empty line when
    there is a (non-empty) default, the line itself otherwise. *)
Definition menu_key (default : option string) (inp : string) : string :=
  if truthy default && bool_decide (inp = "") then from_option id "" default
  else inp.

(** What [choose] returns for a key: the input and the value of the last
    option with that input, if there is one. *)
Definition menu_entry (options : list menuopt) (key : string)
    : option (string * option string) :=
  (λ tup, (opt_input tup, opt_value tup))
    <$> last (filter (λ tup, opt_input tup = key) options).

(** What [choose] prints for lines that are no valid choice. *)
Definition menu_retries (text : string) (options : list menuopt)
    (default : option string) (lines : list string) : list event :=
  lines ≫= λ inp,
    [EvMenu text options; EvInvalidChoice (strip (menu_key default inp))].

(** The menu at the end of a round, and a user who types "y", then "x". *)
Definition menu_cx : list menuopt :=
  [MenuOpt "c" None "Continue with difficult words?";
   MenuOpt "x" None "Exit to main menu"].

Definition world_menu : World :=
  mkWorld VocState_init ["y"; "x"; "later"] [] [].

Definition modify_text : string :=
  "[Add/Modify Translation] What would you like to do?".

(** ** session.py: reading a vocabulary file *)

(** The loop of [_read_voc] over the lines of the file, each with its
    newline as iteration over a file gives them. *)
Fixpoint read_voc_lines (lines : list string) (voctable : VocTable)
    : read_error + VocTable :=
  match lines with
  | [] => inr voctable
  | line :: lines' =>
      match split_on tab line with
      | [_; translations; engword] =>
          read_voc_lines lines'
            (voctable ++ [(strip engword,
                           strip <$> split_on comma translations)])
      | _ => inl ValueError
      end
  end.

(** The files of the working directory, in the order of [os.listdir]: the
    name and, for a regular file, its lines. *)
Abbreviation Directory := (list (string * option (list string))).

(** [open(name)] and reading the lines. *)
Definition open_file (dir : list (string * option (list string)))
    (name : string) : read_error + list string :=
  match dict_getitem dir name with
  | Some (Some lines) => inr lines
  | _ => inl OSError
  end.

(** [_read_voc], given the directory and the name in [tstate.voc_file]. *)
Definition _read_voc (dir : list (string * option (list string)))
    (voc_file : string) : read_error + VocTable :=
  match open_file dir voc_file with
  | inr lines => read_voc_lines lines []
  | inl e => inl e
  end.

(** A line of a vocabulary file as [_read_voc] reads it: [None] for a line
    that does not have exactly three fields. *)
Definition parse_line (line : string) : option (string * list string) :=
  match split_on tab line with
  | [_; translations; engword] =>
      Some (strip engword, strip <$> split_on comma translations)
  | _ => None
  end.

(** A directory with a vocabulary file of two lines, a file that is no
    vocabulary and a subdirectory. *)
Definition voc_file_lines : list string :=
  ["1" +:+ String tab ("ett, en" +:+ String tab ("one" +:+ String (ascii_of_nat 10) ""));
   "2" +:+ String tab ("tva" +:+ String tab "two")].

Definition voc_dir : list (string * option (list string)) :=
  [("trainee.pkl", Some []); ("tal_voc.txt", Some voc_file_lines);
   ("old_voc.txt", None)].

(** [menu.choose] called from the session. *)
Definition schoose (text : string) (options : list menuopt)
    (default : option string) : SM (string * option string) := λ s,
  let '(r, _, s') := call VocState_init (choose text options default) s in
  (of_result r, s').

(** [f(tstate.current_voc_state, ...)]: the function works on the stored
    state object of the current vocabulary, also when it raises. *)
Definition on_current_voc_state (m : M unit) : SM unit := λ s,
  let '(vs, ts) := current_voc_state (tstate s) in
  let '(r, vs', s') := call vs m (set_tstate ts s) in
  (of_result r, set_tstate (store_current vs' ts) s').

(** ** savestate.py: [TraineeState.print_all_stats] *)

Definition stats_row (current : string) (maxlevel : Z)
    (kv : string * VocState) : sevent :=
  let '(k, v) := kv in
  let qual := if bool_decide (_level v = maxlevel) then "Master"
              else if _is_qualified v then "Yes" else "No" in
  let curstr := if bool_decide (k = current) then "*" else " " in
  SvStatsRow curstr k (_level v) (num_of_modifs v) qual.

Definition print_all_stats (maxlevel : Z) : SM unit := λ s,
  (SReturn tt,
   {| tstate := tstate s; directory := directory s; lines_in := lines_in s;
      transcript :=
        transcript s ++ [SvStatsHeader]
          ++ (stats_row (_current_voc (tstate s)) maxlevel
                <$> _voc_states (tstate s))
          ++ [SvStatsFooter];
      draws := draws s |}).

(** ** session.py: the main menu *)

(** [s.endswith(suffix)] *)
Definition endswith (s suffix : string) : bool :=
  bool_decide (String.length suffix ≤ String.length s)%nat
  && bool_decide
       (String.substring (String.length s - String.length suffix)
                         (String.length suffix) s = suffix).

(** The numbered options of [_switch_voc]: the regular files of the
    directory whose name ends with "_voc.txt", counted from 1. *)
Definition voc_files (dir : list (string * option (list string)))
    : list string :=
  filter (λ f, endswith f "_voc.txt" = true)
         (omap (λ entry, match entry.2 with
                         | Some _ => Some entry.1
                         | None => None
                         end) dir).

Definition switch_menu (dir : list (string * option (list string)))
    : list menuopt :=
  imap (λ n f, MenuOpt (pretty (S n)) (Some f) ("The vocfile " +:+ f))
       (voc_files dir).

(** [_switch_voc].  Only the option "q" has no file name. *)
Definition _switch_voc : SM bool :=
  ts ← get_tstate;
  let old_voc_file := _current_voc ts in
  dir ← get_directory;
  let menuopts := switch_menu dir in
  (if menuopts is [] then sprint SvNoVocFile else mret tt);;
  let menuopts :=
    menuopts ++ [MenuOpt "q" None "go back without choosing file"] in
  '(choice, vocfile) ←
    schoose
      "[Select Vocabulary Menu] Please choose a vocabulary to train."
      menuopts None;
  (if decide (choice ≠ "q")
   then update_tstate (set_voc_file (from_option id "" vocfile))
   else mret tt);;
  ts ← get_tstate;
  mret (bool_decide (_current_voc ts ≠ old_voc_file)).

(** [_read_voc(tstate)] in the session. *)
Definition read_voc : SM VocTable := λ s,
  match _read_voc (directory s) (_current_voc (tstate s)) with
  | inr voctable => (SReturn voctable, s)
  | inl e => (SRaise (ReadError e), s)
  end.

(** [not voctable]: no table, or an empty one. *)
Definition no_voctable (voctable : option VocTable) : bool :=
  match voctable with
  | None | Some [] => true
  | _ => false
  end.

(** A session function called with the table: slicing [None] would raise
    TypeError. *)
Definition with_voctable (voctable : option VocTable)
    (f : VocTable → M unit) : SM unit :=
  match voctable with
  | Some vt => on_current_voc_state (f vt)
  | None => sraise TypeError
  end.

(** The part of the main menu that depends on the current vocabulary: what
    is printed about it and the options for it. *)
Definition main_menu_options (voctable : option VocTable)
    : SM (list menuopt) :=
  let menuopts := [MenuOpt "c" None "Change or set vocabulary file";
                   MenuOpt "l" None "Show levels for vocabularies"] in
  if no_voctable voctable then
    sprint SvNoVocabulary;; mret menuopts
  else
    ts ← get_tstate;
    sprint (SvCurrent (_current_voc ts));;
    vs ← get_current_voc_state;
    let level := _level vs in
    sprint (SvLevel level);;
    if bool_decide (level = _MAXLEVEL) then
      sprint (SvQualified "(you are max level - no more exams to do)");;
      mret menuopts
    else
      let menuopts :=
        menuopts ++ [MenuOpt "t" None "Start training sub session"] in
      vs ← get_current_voc_state;
      if _is_qualified vs then
        sprint (SvQualified "Yes!");;
        mret (menuopts ++ [MenuOpt "e" None "Take exam"])
      else
        sprint (SvQualified "No");; mret menuopts.

(** One turn of the [while remain_running] loop of [run_session]: the new
    values of [remain_running] and [voctable]. *)
Definition session_turn (voctable : option VocTable)
    : SM (bool * option VocTable) :=
  sprint SvRule;;
  menuopts ← main_menu_options voctable;
  let menuopts := menuopts ++ [MenuOpt "q" None "Quit and save"] in
  choice ← schoose (String "010" "[Main Menu]: Pick an operation!")
                   menuopts None;
  sprint SvBlank;;
  if decide (choice.1 = "c") then
    changed ← _switch_voc;
    if (changed : bool) then
      voctable ← read_voc; mret (true, Some voctable)
    else mret (true, voctable)
  else if decide (choice.1 = "q") then
    sprint SvBye;; mret (false, voctable)
  else if decide (choice.1 = "t") then
    with_voctable voctable _train;; mret (true, voctable)
  else if decide (choice.1 = "e") then
    with_voctable voctable _take_exam;; mret (true, voctable)
  else if decide (choice.1 = "l") then
    print_all_stats _MAXLEVEL;; sprint SvBlank;; mret (true, voctable)
  else mret (true, voctable).

(** The [while remain_running] loop, on at most [turns] turns. *)
Fixpoint session_loop (turns : nat) (voctable : option VocTable) : SM unit :=
  match turns with
  | O => λ s, (STimeout, s)
  | S turns' =>
      again ← session_turn voctable;
      if (again.1 : bool) then session_loop turns' again.2 else mret tt
  end.

(** [run_session].  Every turn of the loop reads at least one line, so one
    turn more than there are lines is enough. *)
Definition run_session : SM unit :=
  ts ← get_tstate;
  voctable ← (if bool_decide (_current_voc ts ≠ "")
              then vt ← read_voc; mret (Some vt) else mret None);
  ((λ s, session_loop (S (length (lines_in s))) voctable s) : SM unit).

(** The invariant of a progress record: the level is at most MAXLEVEL, and
    who is qualified is below it. *)
Definition progress_ok (vs : VocState) : Prop :=
  _level vs ≤ _MAXLEVEL ∧ (_is_qualified vs = true → _level vs < _MAXLEVEL).

(** Every stored progress record is in order. *)
Definition states_ok (ts : TraineeState) : Prop :=
  ∀ k vs, dict_getitem (_voc_states ts) k = Some vs → progress_ok vs.

(** Every vocabulary with a progress record in [ts] has one in [ts'], at a
    level that is not lower. *)
Definition levels_kept (ts ts' : TraineeState) : Prop :=
  ∀ k vs, dict_getitem (_voc_states ts) k = Some vs →
    ∃ vs', dict_getitem (_voc_states ts') k = Some vs'
           ∧ _level vs ≤ _level vs'.

(** A computation of the terminal reads its input forwards. *)
Definition forwards {A} (m : M A) : Prop :=
  ∀ w, (length (stdin (m w).2) ≤ length (stdin w))%nat.

(** The exceptions that leave a session: the end of the input, and a
    vocabulary file that cannot be read, which is then the current one. *)
Definition session_exception (e : sexn) (s : Session) : Prop :=
  e = Inner EOFError
  ∨ ∃ re, e = ReadError re
          ∧ _current_voc (tstate s) ≠ ""
          ∧ _read_voc (directory s) (_current_voc (tstate s)) = inl re.

(** What holds of a turn of the main loop run from [s] with result and
    final session [r]. *)
Definition turn_spec (s : Session)
    (r : sresult (bool * option VocTable) * Session) : Prop :=
  directory r.2 = directory s
  ∧ (states_ok (tstate s) → states_ok (tstate r.2))
  ∧ levels_kept (tstate s) (tstate r.2)
  ∧ match r.1 with
    | SReturn again =>
        (length (lines_in r.2) < length (lines_in s))%nat
        ∧ (again.1 = false → ∃ evs, transcript r.2 = evs ++ [SvBye])
    | SRaise e => session_exception e r.2
    | STimeout => False
    end.

Definition loop_spec (s : Session) (r : sresult unit * Session) : Prop :=
  directory r.2 = directory s
  ∧ (states_ok (tstate s) → states_ok (tstate r.2))
  ∧ levels_kept (tstate s) (tstate r.2)
  ∧ match r.1 with
    | SReturn _ => ∃ evs, transcript r.2 = evs ++ [SvBye]
    | SRaise e => session_exception e r.2
    | STimeout => False
    end.

(** A directory with a vocabulary file whose second line has one tab only,
    and a session in it of a user who selects that file. *)
Definition bad_dir : list (string * option (list string)) :=
  [("bad_voc.txt",
    Some ["1" +:+ String tab ("ett" +:+ String tab "one");
          "tva" +:+ String tab "two"])].

Definition session_bad : Session :=
  mkSession TraineeState_init bad_dir ["c"; "1"; "q"] [] [].

(** A session of a qualified user of "tal_voc.txt" who takes the exam,
    passes it and asks for the levels. *)
Definition session_tal : Session :=
  mkSession
    {| _current_voc := "tal_voc.txt";
       _voc_states := [("tal_voc.txt", set_qualified true VocState_init)] |}
    voc_dir ["e"; "ett"; "tva"; ""; "l"; "q"] [] [0%nat; 0%nat].


(** ** Notions for the endings of a drill *)

(** How often "Correct!" was printed: how many words were answered right. *)
Definition is_correct (e : event) : bool :=
  match e with EvCorrect => true | _ => false end.

Definition correct_answers (evs : list event) : nat :=
  length (filter (λ e, is_correct e = true) evs).

(** The menu at the end of a round that leaves words to train. *)
Definition train_menu_text : string :=
  "[Training Menu] Would you like to continue training?".

(** A computation of the terminal takes its lines from the front of the
    input, and runs into the end of the input only when no line is left. *)
Definition reads {A} (m : M A) : Prop :=
  ∀ w, (∃ pre, stdin w = pre ++ stdin (m w).2)
       ∧ ((m w).1 = Raise EOFError → stdin (m w).2 = []).

(** The events that are neither "Correct!" nor "You seem to know all the
    words!". *)
Definition no_score (e : event) : Prop :=
  is_correct e = false ∧ e ≠ EvKnowAll.

(** A trainee state as read from a file, with a level above MAXLEVEL for
    "tal_voc.txt", and a user who trains and quits. *)
Definition session_eleven : Session :=
  mkSession
    {| _current_voc := "tal_voc.txt";
       _voc_states := [("tal_voc.txt", set_level 11 VocState_init)] |}
    voc_dir ["t"; "q"] [] [].

(* ===== theorems ===== *)

Lemma corrections_change_eq self w add remove :
  corrections (change_translation self w add remove) w
  = ((additions self w ∪ add) ∖ remove, (removals self w ∪ remove) ∖ add).
Proof.
  unfold additions, removals, change_translation.
  destruct (corrections self w) as [a r] eqn:E.
  unfold corrections; simpl. by rewrite lookup_insert_eq.
Qed.

Lemma corrections_change_ne self w w' add remove :
  w ≠ w' →
  corrections (change_translation self w add remove) w' = corrections self w'.
Proof.
  intros Hne. unfold change_translation.
  destruct (corrections self w) as [a r].
  unfold corrections; simpl. by rewrite lookup_insert_ne.
Qed.

Lemma corrections_reset_eq self w :
  corrections (reset_modifications self w) w = (∅, ∅).
Proof.
  unfold reset_modifications, corrections.
  case_decide as Hin; simpl.
  - by rewrite lookup_delete_eq.
  - apply not_elem_of_dom in Hin. by rewrite Hin.
Qed.

Lemma corrections_reset_ne self w w' :
  w ≠ w' → corrections (reset_modifications self w) w' = corrections self w'.
Proof.
  intros Hne. unfold reset_modifications, corrections.
  case_decide; simpl; [by rewrite lookup_delete_ne | done].
Qed.

(** The invariant of the data model: for every word the two sets are
    disjoint. *)
Definition store_disjoint (self : VocState) : Prop :=
  ∀ w, additions self w ## removals self w.

Lemma store_disjoint_init : store_disjoint VocState_init.
Proof. intros w. unfold additions, removals, corrections. simpl. set_solver. Qed.

Lemma change_translation_disjoint self w add remove :
  store_disjoint self → store_disjoint (change_translation self w add remove).
Proof.
  intros Hd w'. unfold additions, removals.
  destruct (decide (w = w')) as [<-|Hne].
  - rewrite corrections_change_eq; simpl. specialize (Hd w). set_solver.
  - rewrite corrections_change_ne by done. apply Hd.
Qed.

Lemma reset_modifications_disjoint self w :
  store_disjoint self → store_disjoint (reset_modifications self w).
Proof.
  intros Hd w'. unfold additions, removals.
  destruct (decide (w = w')) as [<-|Hne].
  - rewrite corrections_reset_eq; simpl. set_solver.
  - rewrite corrections_reset_ne by done. apply Hd.
Qed.

Lemma run_calls_disjoint cs : ∀ self,
  store_disjoint self → store_disjoint (run_calls self cs).
Proof.
  induction cs as [|c cs IH]; intros self Hd; [done|].
  simpl. apply IH. destruct c; simpl.
  - by apply change_translation_disjoint.
  - by apply reset_modifications_disjoint.
Qed.

(** C1.  [get_modified_translations] returns
    (set(defaults) ∪ additions(w)) − removals(w), for every state of the
    store.  The result holds no element of removals(w); it holds every
    element of additions(w) in every store that keeps the two sets of w
    disjoint (which every reachable store does, see
    [run_calls_disjoint]); and a word without an entry yields set(defaults). *)
Theorem get_modified_translations_spec
    (self : VocState) (w : string) (defaults : list string) :
  let result := get_modified_translations self w defaults in
  result = (list_to_set defaults ∪ additions self w) ∖ removals self w
  ∧ (∀ x, x ∈ removals self w → x ∉ result)
  ∧ (additions self w ## removals self w →
     ∀ x, x ∈ additions self w → x ∈ result)
  ∧ (_extra_trans self !! w = None → result = list_to_set defaults).
Proof.
  unfold get_modified_translations, additions, removals.
  destruct (corrections self w) as [a r] eqn:E; simpl.
  repeat split.
  - set_solver.
  - set_solver.
  - intros Hnone. unfold corrections in E. rewrite Hnone in E.
    simpl in E. injection E as <- <-. set_solver.
Qed.

(** C7.  After every sequence of [change_translation] and
    [reset_modifications] calls on a new [VocState], the addition set and the
    removal set of every word are disjoint; and one
    [change_translation(w, add, remove)] turns the addition set A of w into
    (A ∪ add) − remove and its removal set R into (R ∪ remove) − add, leaving
    the sets of every other word as they were. *)
Theorem change_translation_keeps_disjoint
    (cs : list store_call) (w : string) :
  additions (run_calls VocState_init cs) w
    ## removals (run_calls VocState_init cs) w
  ∧ ∀ (self : VocState) (add remove : gset string),
      additions (change_translation self w add remove) w
        = (additions self w ∪ add) ∖ remove
      ∧ removals (change_translation self w add remove) w
        = (removals self w ∪ remove) ∖ add
      ∧ ∀ w', w ≠ w' →
          corrections (change_translation self w add remove) w'
          = corrections self w'.
Proof.
  split.
  - apply run_calls_disjoint, store_disjoint_init.
  - intros self add remove. unfold additions at 1, removals at 1.
    rewrite corrections_change_eq. simpl. repeat split.
    intros w' Hne. by apply corrections_change_ne.
Qed.

(** C8.  Calling [change_translation] a second time with the same word and
    the same two sets leaves the state the first call produced. *)
Theorem change_translation_idempotent
    (self : VocState) (w : string) (add remove : gset string) :
  change_translation (change_translation self w add remove) w add remove
  = change_translation self w add remove.
Proof.
  unfold change_translation at 1.
  rewrite corrections_change_eq.
  unfold change_translation, additions, removals.
  destruct (corrections self w) as [a r]. simpl.
  unfold set_extra_trans; simpl. f_equal.
  rewrite insert_insert_eq. f_equal. f_equal; set_solver.
Qed.

(** *** Slices and dicts *)

Lemma py_slice_nonneg {A} (l : list A) (start n : Z) :
  0 ≤ start → 0 ≤ n →
  py_slice l start (start + n) = take (Z.to_nat n) (drop (Z.to_nat start) l).
Proof.
  intros Hs Hn. unfold py_slice, slice_index.
  destruct (Z.ltb_spec start 0); [lia|].
  destruct (Z.ltb_spec (start + n) 0); [lia|].
  destruct (decide (Z.of_nat (length l) ≤ start)) as [Hge|Hlt].
  - rewrite !drop_ge by lia. by rewrite !take_nil.
  - rewrite (Z.min_l start) by lia.
    destruct (decide (start + n ≤ Z.of_nat (length l))).
    + rewrite Z.min_l by lia. f_equal. lia.
    + rewrite Z.min_r by lia.
      rewrite !take_ge; [done| |]; rewrite length_drop; lia.
Qed.

Lemma dict_setitem_new {V} k (v : V) d :
  k ∉ dict_keys d → dict_setitem k v d = d ++ [(k, v)].
Proof.
  unfold dict_keys. induction d as [|[k' v'] d IH]; intros Hk; [done|].
  simpl in *. apply not_elem_of_cons in Hk as [Hne Hk].
  rewrite decide_False by done. by rewrite IH.
Qed.

Lemma dict_setitem_keys_old {V} k (v : V) d :
  k ∈ dict_keys d → dict_keys (dict_setitem k v d) = dict_keys d.
Proof.
  unfold dict_keys. induction d as [|[k' v'] d IH]; intros Hk.
  - by apply elem_of_nil in Hk.
  - simpl. case_decide as Hd; simpl; [by subst|].
    f_equal. apply IH. apply elem_of_cons in Hk as [?|?]; [done|done].
Qed.

Lemma dict_getitem_setitem {V} k k' (v : V) d :
  dict_getitem (dict_setitem k v d) k'
  = if decide (k' = k) then Some v else dict_getitem d k'.
Proof.
  induction d as [|[k0 v0] d IH]; simpl.
  - repeat case_decide; done.
  - destruct (decide (k = k0)) as [->|Hne]; simpl.
    + repeat case_decide; done.
    + rewrite IH. repeat case_decide; congruence.
Qed.

Lemma dict_from_pairs_snoc {V} (l : list (string * V)) k v :
  dict_from_pairs (l ++ [(k, v)]) = dict_setitem k v (dict_from_pairs l).
Proof. unfold dict_from_pairs. by rewrite foldl_app. Qed.

Lemma dict_from_pairs_NoDup_keys {V} (l : list (string * V)) :
  NoDup (dict_keys (dict_from_pairs l)).
Proof.
  induction l as [|[k v] l IH] using rev_ind; [constructor|].
  rewrite dict_from_pairs_snoc.
  destruct (decide (k ∈ dict_keys (dict_from_pairs l))) as [Hin|Hnin].
  - by rewrite dict_setitem_keys_old.
  - rewrite dict_setitem_new by done. unfold dict_keys in *.
    rewrite fmap_app. apply NoDup_app. split_and!; [done| |apply NoDup_singleton].
    intros x Hx Hx'. apply list_elem_of_singleton in Hx'. simpl in Hx'. by subst.
Qed.

Lemma dict_from_pairs_keys {V} (l : list (string * V)) k :
  k ∈ dict_keys (dict_from_pairs l) ↔ k ∈ l.*1.
Proof.
  induction l as [|[k0 v0] l IH] using rev_ind; [done|].
  rewrite dict_from_pairs_snoc, fmap_app, elem_of_app. simpl.
  rewrite list_elem_of_singleton, <- IH.
  destruct (decide (k0 ∈ dict_keys (dict_from_pairs l))) as [Hin|Hnin].
  - rewrite dict_setitem_keys_old by done. naive_solver.
  - rewrite dict_setitem_new by done. unfold dict_keys.
    rewrite fmap_app, elem_of_app. simpl. by rewrite list_elem_of_singleton.
Qed.

Lemma dict_from_pairs_NoDup {V} (l : list (string * V)) :
  NoDup l.*1 → dict_from_pairs l = l.
Proof.
  induction l as [|[k v] l IH] using rev_ind; intros Hnd; [done|].
  rewrite fmap_app in Hnd. apply NoDup_app in Hnd as (Hl & Hdisj & _).
  rewrite dict_from_pairs_snoc, IH by done.
  apply dict_setitem_new. intros Hin. apply (Hdisj k Hin). simpl. left.
Qed.

Lemma dict_getitem_from_pairs {V} (l : list (string * V)) k :
  dict_getitem (dict_from_pairs l) k
  = snd <$> last (filter (λ kv, kv.1 = k) l).
Proof.
  induction l as [|[k0 v0] l IH] using rev_ind; [done|].
  rewrite dict_from_pairs_snoc, dict_getitem_setitem, filter_app.
  rewrite filter_cons, filter_nil. simpl.
  destruct (decide (k = k0)) as [->|Hne].
  - rewrite decide_True by done. by rewrite last_snoc.
  - rewrite decide_False by congruence. by rewrite app_nil_r.
Qed.

Lemma filter_key_absent {V} (l : list (string * V)) k :
  k ∉ l.*1 → filter (λ kv, kv.1 = k) l = [].
Proof.
  induction l as [|[k0 v0] l IH]; intros Hk; [done|].
  simpl in Hk. apply not_elem_of_cons in Hk as [Hne Hk].
  rewrite filter_cons. simpl. rewrite decide_False by congruence. auto.
Qed.

Lemma NoDup_keys_filter_le {V} (l : list (string * V)) k :
  NoDup l.*1 → (length (filter (λ kv, kv.1 = k) l) ≤ 1)%nat.
Proof.
  induction l as [|[k0 v0] l IH]; intros Hnd; [simpl; lia|].
  simpl in Hnd. apply NoDup_cons in Hnd as [Hk0 Hnd].
  rewrite filter_cons. simpl. case_decide as Hd.
  - subst. rewrite filter_key_absent by done. simpl. lia.
  - auto.
Qed.

Lemma filter_eq_absent (l : list string) x :
  x ∉ l → filter (λ y, y = x) l = [].
Proof.
  induction l as [|y l IH]; intros Hx; [done|].
  apply not_elem_of_cons in Hx as [Hne Hx].
  rewrite filter_cons_False by congruence. auto.
Qed.

Lemma NoDup_count_one (l : list string) x :
  NoDup l → x ∈ l → length (filter (λ y, y = x) l) = 1%nat.
Proof.
  induction l as [|y l IH]; intros Hnd Hx.
  - by apply elem_of_nil in Hx.
  - apply NoDup_cons in Hnd as [Hy Hnd]. rewrite filter_cons.
    case_decide as Hd.
    + subst. by rewrite filter_eq_absent.
    + apply IH; [done|]. apply elem_of_cons in Hx as [?|?]; [congruence|done].
Qed.

Lemma dict_from_pairs_length_le {V} (l : list (string * V)) :
  (length (dict_from_pairs l) ≤ length l)%nat.
Proof.
  rewrite <- (length_fmap fst (dict_from_pairs l)), <- (length_fmap fst l).
  apply submseteq_length, NoDup_submseteq.
  - apply dict_from_pairs_NoDup_keys.
  - intros k. apply dict_from_pairs_keys.
Qed.

Lemma dict_from_pairs_length_lt {V} (l : list (string * V)) :
  ¬ NoDup l.*1 → (length (dict_from_pairs l) < length l)%nat.
Proof.
  intros Hdup. pose proof (dict_from_pairs_length_le l) as Hle.
  destruct (decide (length (dict_from_pairs l) = length l)) as [Heq|]; [|lia].
  exfalso. apply Hdup.
  assert (dict_keys (dict_from_pairs l) ⊆+ l.*1) as Hsub.
  { apply NoDup_submseteq; [apply dict_from_pairs_NoDup_keys|].
    intros k. apply dict_from_pairs_keys. }
  apply submseteq_length_Permutation in Hsub.
  - rewrite <- Hsub. apply dict_from_pairs_NoDup_keys.
  - unfold dict_keys. rewrite !length_fmap. lia.
Qed.

(** *** Word blocks *)

(** The slice [_setup_test] takes is, for a level L ≥ 0, the list of the
    entries at the indices [L*10, L*10+10). *)
Lemma _setup_test_slice vstate (voctable : VocTable) :
  0 ≤ _level vstate →
  py_slice voctable (_NUMWORDS * _level vstate)
           (_NUMWORDS * _level vstate + _NUMWORDS)
  = level_entries vstate voctable.
Proof.
  intros Hl. unfold _NUMWORDS, level_entries.
  rewrite py_slice_nonneg by lia. done.
Qed.

Lemma level_entries_lookup vstate (voctable : VocTable) (i : nat) :
  level_entries vstate voctable !! i
  = if decide (i < 10)%nat
    then voctable !! (Z.to_nat (10 * _level vstate) + i)%nat
    else None.
Proof.
  unfold level_entries. case_decide.
  - rewrite lookup_take_lt by done. by rewrite lookup_drop.
  - apply lookup_take_ge. lia.
Qed.

(** C6 (as amended).  For a level L in [0, MAXLEVEL], [_setup_test] takes the
    entries of the vocabulary list at the indices [L*10, L*10+10) (the
    shorter remaining suffix, possibly empty, when the list ends before) and
    returns the dict built from them; it is total, so nothing is raised.  When
    the English words of those entries are pairwise distinct, the items of the
    block are exactly those entries, in the order of the list. *)
Theorem _setup_test_block (vstate : VocState) (voctable : VocTable) :
  0 ≤ _level vstate ≤ _MAXLEVEL →
  let entries := level_entries vstate voctable in
  let block := _setup_test vstate voctable in
  (∀ i : nat,
      entries !! i
      = if decide (i < 10)%nat
        then voctable !! (Z.to_nat (10 * _level vstate) + i)%nat
        else None)
  ∧ block = dict_from_pairs entries
  ∧ (NoDup entries.*1 → block = entries).
Proof.
  intros [Hlo Hhi]. simpl. split_and!.
  - apply level_entries_lookup.
  - unfold _setup_test. by rewrite _setup_test_slice.
  - intros Hnd. unfold _setup_test. rewrite _setup_test_slice by done.
    by apply dict_from_pairs_NoDup.
Qed.

(** C10.  When an English word occurs more than once in the slice of a level,
    the block holds it once, with the translations of its last occurrence in
    the slice, and has fewer items than the slice has entries. *)
Theorem _setup_test_duplicate_word
    (vstate : VocState) (voctable : VocTable) (w : string) :
  let startix := _NUMWORDS * _level vstate in
  let slice := py_slice voctable startix (startix + _NUMWORDS) in
  let block := _setup_test vstate voctable in
  (1 < length (filter (λ kv, kv.1 = w) slice))%nat →
  length (filter (λ k, k = w) (dict_keys block)) = 1%nat
  ∧ dict_getitem block w = snd <$> last (filter (λ kv, kv.1 = w) slice)
  ∧ (length block < length slice)%nat.
Proof.
  simpl. unfold _setup_test.
  set (slice := py_slice _ _ _). intros Hdup.
  assert (¬ NoDup slice.*1) as Hnd.
  { intros Hnd. pose proof (NoDup_keys_filter_le slice w Hnd). lia. }
  split_and!.
  - apply NoDup_count_one; [apply dict_from_pairs_NoDup_keys|].
    apply dict_from_pairs_keys.
    destruct (decide (w ∈ slice.*1)) as [|Hnin]; [done|].
    rewrite filter_key_absent in Hdup by done. simpl in Hdup. lia.
  - apply dict_getitem_from_pairs.
  - by apply dict_from_pairs_length_lt.
Qed.





(** *** The monad *)

Lemma bind_Return {A B} (m : M A) (f : A → M B) w a w' :
  m w = (Return a, w') → (m ≫= f) w = f a w'.
Proof. intros H. unfold mbind, M_bind. by rewrite H. Qed.

Lemma bind_Raise {A B} (m : M A) (f : A → M B) w e w' :
  m w = (Raise e, w') → (m ≫= f) w = (Raise e, w').
Proof. intros H. unfold mbind, M_bind. by rewrite H. Qed.

Lemma bind_Timeout {A B} (m : M A) (f : A → M B) w w' :
  m w = (Timeout, w') → (m ≫= f) w = (Timeout, w').
Proof. intros H. unfold mbind, M_bind. by rewrite H. Qed.

(** *** Random orders *)

Lemma shuffle_draws_Permutation n : ∀ draws l,
  length l = n → (shuffle_draws n draws l).1 ≡ₚ l.
Proof.
  induction n as [|n IH]; intros draws l Hlen.
  - destruct l; [done|discriminate].
  - simpl. set (j := (_ `mod` _)%nat).
    assert (j < length l)%nat as Hj.
    { apply Nat.mod_upper_bound. lia. }
    destruct (lookup_lt_is_Some_2 l j Hj) as [x Hx]. rewrite Hx.
    specialize (IH (tail draws) (delete j l)).
    destruct (shuffle_draws n (tail draws) (delete j l)) as [rest draws'].
    simpl in *. rewrite IH.
    + symmetry. by apply delete_Permutation.
    + rewrite length_delete by eauto. lia.
Qed.

(** *** Deleting from a dict *)

Lemma dict_getitem_Some_keys {V} (d : pydict V) k :
  k ∈ dict_keys d ↔ is_Some (dict_getitem d k).
Proof.
  unfold dict_keys. induction d as [|[k' v] d IH]; simpl.
  - split; [intros H; by apply elem_of_nil in H|intros [? ?]; done].
  - rewrite elem_of_cons. case_decide; [naive_solver|]. rewrite IH. naive_solver.
Qed.

Lemma dict_delitem_Some {V} (d : pydict V) k :
  k ∈ dict_keys d →
  ∃ d', dict_delitem d k = Some d'
        ∧ dict_keys d ≡ₚ k :: dict_keys d'
        ∧ ∀ k', k' ≠ k → dict_getitem d' k' = dict_getitem d k'.
Proof.
  unfold dict_keys. induction d as [|[k0 v0] d IH]; intros Hk.
  - by apply elem_of_nil in Hk.
  - simpl. destruct (decide (k = k0)) as [->|Hne].
    + exists d. split_and!; [done|done|].
      intros k' Hk'. by rewrite decide_False.
    + simpl in Hk. apply elem_of_cons in Hk as [?|Hk]; [done|].
      destruct (IH Hk) as (d' & Hdel & Hperm & Hget). rewrite Hdel. simpl.
      exists ((k0, v0) :: d'). split_and!; [done| |].
      * simpl. rewrite Hperm. apply Permutation_swap.
      * intros k' Hk'. simpl. case_decide; [done|]. by apply Hget.
Qed.

(** *** The exam *)

Lemma answer_matches_getitem vs (d d' : pydict (list string)) k line :
  dict_getitem d' k = dict_getitem d k →
  answer_matches vs d' k line = answer_matches vs d k line.
Proof. intros H. unfold answer_matches. by rewrite H. Qed.

Lemma Forall2_impl_elem {A B} (P Q : A → B → Prop) l k :
  Forall2 P l k → (∀ x y, x ∈ l → P x y → Q x y) → Forall2 Q l k.
Proof.
  induction 1 as [|x y l k Hxy Hlk IH]; intros Himp; constructor.
  - apply Himp; [left|done].
  - apply IH. intros x' y' Hx'. apply Himp. by right.
Qed.

(** Words answered correctly are deleted one after the other and the loop
    goes on with the rest. *)
Lemma exam_loop_correct_prefix pre : ∀ post num vocdict w answers lines,
  pre ++ post ≡ₚ dict_keys vocdict →
  NoDup (dict_keys vocdict) →
  stdin w = answers ++ lines →
  Forall2 (λ engword line,
             answer_matches (vstate w) vocdict engword line = true)
          pre answers →
  ∃ vocdict',
    post ≡ₚ dict_keys vocdict'
    ∧ NoDup (dict_keys vocdict')
    ∧ (∀ k, k ∈ post → dict_getitem vocdict' k = dict_getitem vocdict k)
    ∧ exam_loop (pre ++ post) num vocdict w
      = exam_loop post (num + length pre) vocdict'
          (mkWorld (vstate w) lines (stdout w ++ exam_transcript num pre)
                   (entropy w)).
Proof.
  induction pre as [|engword pre IH];
    intros post num vocdict w answers lines Hperm Hnd Hin Hall.
  - apply Forall2_nil_inv_l in Hall as ->. simpl in *.
    exists vocdict. split_and!; [done|done|done|].
    rewrite Nat.add_0_r, app_nil_r. destruct w; simpl in *; by subst.
  - apply Forall2_cons_inv_l in Hall as (line & answers' & Hok & Hall & ->).
    simpl in Hin.
    assert (NoDup (engword :: pre ++ post)) as Hnd'.
    { simpl in Hperm. by rewrite Hperm. }
    apply NoDup_cons in Hnd' as [Hfresh Hnd'].
    assert (engword ∈ dict_keys vocdict) as Hkey.
    { rewrite <- Hperm. simpl. left. }
    destruct (dict_delitem_Some vocdict engword Hkey)
      as (d1 & Hdel & Hperm1 & Hget1).
    unfold answer_matches in Hok.
    destruct (dict_getitem vocdict engword) as [defaults|] eqn:Hdef; [|done].
    set (w1 := emit EvCorrect
                 (set_stdin (answers' ++ lines)
                            (emit (EvPrompt (num + 1) engword) w))).
    destruct (IH post (S num) d1 w1 answers' lines) as (d2 & Hp2 & Hnd2 & Hget2 & Heq).
    + simpl in Hperm. rewrite Hperm1 in Hperm.
      by apply Permutation_cons_inv in Hperm.
    + rewrite Hperm1 in Hnd. by apply NoDup_cons in Hnd as [_ ?].
    + done.
    + simpl. eapply Forall2_impl_elem; [apply Hall|].
      intros k line' Hk Hm. simpl in Hm. rewrite <- Hm.
      apply answer_matches_getitem, Hget1. intros ->.
      apply Hfresh. apply elem_of_app. by left.
    + exists d2. split_and!; [done|done| |].
      * intros k Hk. rewrite Hget2 by done. apply Hget1. intros ->.
        apply Hfresh. apply elem_of_app. by right.
      * simpl. unfold getitem. rewrite Hdef.
        unfold mbind, M_bind, mret, M_ret, get_vstate, print, input. simpl.
        rewrite Hin. rewrite Hok. simpl.
        unfold delitem. rewrite Hdel. simpl.
        fold w1. rewrite Heq. unfold w1. simpl.
        rewrite <- !app_assoc. simpl. do 3 f_equal. lia.
Qed.

Lemma exam_order_Permutation voctable w :
  exam_order voctable w ≡ₚ dict_keys (_setup_test (vstate w) voctable).
Proof. unfold exam_order. by apply shuffle_draws_Permutation. Qed.

Lemma _setup_test_NoDup vs voctable : NoDup (dict_keys (_setup_test vs voctable)).
Proof. apply dict_from_pairs_NoDup_keys. Qed.

Lemma dict_is_empty_keys {V} (d : pydict V) :
  dict_is_empty d = true ↔ dict_keys d = [].
Proof. destruct d; simpl; split; done. Qed.

(** [_take_exam] up to its loop. *)
Lemma _take_exam_unfold voctable w :
  _take_exam voctable w
  = (vocdict ← exam_loop (exam_order voctable w) 0
                         (_setup_test (vstate w) voctable);
     if dict_is_empty vocdict then
       print EvExamPassed;;
       update_vstate (λ vs, set_level (_level vs + 1) vs);;
       update_vstate (set_qualified false);;
       vs ← get_vstate;
       print (EvLevelUp (_level vs));;
       print EvPressReturn;;
       _ ← input;
       mret tt
     else
       print EvExamFailed)
      (mkWorld (vstate w) (stdin w) (stdout w ++ exam_heading (vstate w))
               (shuffle_draws
                  (length (dict_keys (_setup_test (vstate w) voctable)))
                  (entropy w)
                  (dict_keys (_setup_test (vstate w) voctable))).2).
Proof.
  unfold _take_exam, exam_order, exam_heading.
  unfold mbind at 1, M_bind at 1, get_vstate at 1.
  unfold mbind at 1, M_bind at 1, random_shuffle.
  destruct (shuffle_draws _ _ _) as [order draws]. simpl.
  unfold mbind at 1, M_bind at 1, _clear_screen, print at 1.
  unfold mbind at 1, M_bind at 1, _print_banner, print at 1.
  unfold emit, set_entropy. simpl. by rewrite <- app_assoc.
Qed.


(** C2.  When the answers to the first k words match and the answer to the
    word at position k does not, the exam ends there: that word is the last
    one asked, the lines after its answer are not read, and the level, the
    qualification and the correction store are as before the exam. *)
Theorem _take_exam_failed
    (voctable : VocTable) (w : World) (answers lines : list string)
    (engword bad : string) :
  let k := length answers in
  stdin w = answers ++ bad :: lines →
  exam_order voctable w !! k = Some engword →
  Forall2 (λ engword line,
             answer_matches (vstate w) (_setup_test (vstate w) voctable)
                            engword line = true)
          (take k (exam_order voctable w)) answers →
  answer_matches (vstate w) (_setup_test (vstate w) voctable) engword bad
    = false →
  ∃ w',
    _take_exam voctable w = (Return tt, w')
    ∧ vstate w' = vstate w
    ∧ stdin w' = lines
    ∧ stdout w'
      = stdout w ++ exam_heading (vstate w)
          ++ exam_transcript 0 (take k (exam_order voctable w))
          ++ [EvPrompt (k + 1) engword; EvExamFailed].
Proof.
  intros k Hin Hk Hall Hbad. rewrite _take_exam_unfold.
  set (w0 := mkWorld _ _ _ _).
  pose proof (take_drop_middle _ _ _ Hk) as Hsplit.
  set (pre := take k (exam_order voctable w)) in *.
  set (post := drop (S k) (exam_order voctable w)) in *.
  destruct (exam_loop_correct_prefix pre (engword :: post) 0
              (_setup_test (vstate w) voctable) w0 answers (bad :: lines))
    as (d & Hperm & _ & Hget & Heq).
  - rewrite Hsplit. apply exam_order_Permutation.
  - apply _setup_test_NoDup.
  - done.
  - done.
  - rewrite Hsplit in Heq.
    unfold mbind at 1, M_bind at 1. rewrite Heq. simpl.
    unfold answer_matches in Hbad. rewrite <- (Hget engword) in Hbad by left.
    assert (is_Some (dict_getitem d engword)) as [defaults Hdef].
    { apply dict_getitem_Some_keys. rewrite <- Hperm. left. }
    rewrite Hdef in Hbad. unfold getitem. rewrite Hdef.
    unfold mbind, M_bind, print, get_vstate, input, mret, M_ret. simpl.
    rewrite Hbad. simpl.
    destruct d as [|kv d]; [done|]. simpl.
    eexists. split; [reflexivity|]. simpl. split_and!; [by destruct w|done|].
    rewrite <- !app_assoc. simpl.
    assert (length pre = k) as ->.
    { unfold pre. rewrite length_take. apply lookup_lt_Some in Hk. lia. }
    done.
Qed.



(** *** Computations that leave the progress record alone *)

Section steady.
Context (P : event → Prop).

Lemma steady_mret {A} (a : A) : steady P (mret a).
Proof.
  intros w. simpl. split_and!; try done.
  exists []. by rewrite app_nil_r.
Qed.

Lemma steady_raise {A} e : steady P (raise (A:=A) e).
Proof.
  intros w. simpl. split_and!; try done.
  exists []. by rewrite app_nil_r.
Qed.

Lemma steady_print e : P e → steady P (print e).
Proof.
  intros He w. simpl. split_and!; try done.
  exists [e]. split; [done|]. by constructor.
Qed.

Lemma steady_input : steady P input.
Proof.
  intros w. unfold input. destruct (stdin w) as [|line rest] eqn:E; simpl.
  - rewrite E. split_and!; try done. exists []. by rewrite app_nil_r.
  - split_and!; try done; [lia|]. exists []. by rewrite app_nil_r.
Qed.

Lemma steady_get_vstate : steady P get_vstate.
Proof.
  intros w. simpl. split_and!; try done.
  exists []. by rewrite app_nil_r.
Qed.

Lemma steady_update_vstate f :
  (∀ vs, _level (f vs) = _level vs) →
  (∀ vs, _is_qualified (f vs) = _is_qualified vs) →
  steady P (update_vstate f).
Proof.
  intros Hl Hq w. simpl. split_and!; try done.
  exists []. by rewrite app_nil_r.
Qed.

Lemma steady_random_shuffle l : steady P (random_shuffle l).
Proof.
  intros w. unfold random_shuffle.
  destruct (shuffle_draws _ _ _) as [l' draws]. simpl.
  split_and!; try done. exists []. by rewrite app_nil_r.
Qed.

Lemma steady_getitem {V} (d : pydict V) k : steady P (getitem d k).
Proof.
  unfold getitem. destruct (dict_getitem d k);
    [apply steady_mret|apply steady_raise].
Qed.

Lemma steady_delitem {V} (d : pydict V) k : steady P (delitem d k).
Proof.
  unfold delitem. destruct (dict_delitem d k);
    [apply steady_mret|apply steady_raise].
Qed.

Lemma steady_bind {A B} (m : M A) (f : A → M B) :
  steady P m → (∀ a, steady P (f a)) → steady P (m ≫= f).
Proof.
  intros Hm Hf w. unfold mbind, M_bind.
  destruct (Hm w) as (Ht & Hl & Hq & Hin & evs & Hout & Hevs).
  destruct (m w) as [[a|e|] w1]; simpl in *; [|by eauto 10|done].
  destruct (Hf a w1) as (Ht' & Hl' & Hq' & Hin' & evs' & Hout' & Hevs').
  split_and!; [done|congruence|congruence|lia|].
  exists (evs ++ evs'). split.
  - by rewrite Hout', Hout, app_assoc.
  - by apply Forall_app.
Qed.
End steady.

Lemma steady_mono (P Q : event → Prop) {A} (m : M A) :
  (∀ e, P e → Q e) → steady P m → steady Q m.
Proof.
  intros HPQ Hm w.
  destruct (Hm w) as (Ht & Hl & Hq & Hin & evs & Hout & Hevs).
  split_and!; try done. exists evs. split; [done|].
  eapply Forall_impl; eauto.
Qed.

Create HintDb steady.
#[local] Hint Resolve steady_mret steady_raise steady_input steady_get_vstate
  steady_random_shuffle steady_getitem steady_delitem : steady.

Lemma change_translation_level vs w add remove :
  _level (change_translation vs w add remove) = _level vs.
Proof. unfold change_translation. by destruct (corrections vs w). Qed.

Lemma change_translation_qualified vs w add remove :
  _is_qualified (change_translation vs w add remove) = _is_qualified vs.
Proof. unfold change_translation. by destruct (corrections vs w). Qed.

Lemma reset_modifications_level vs w :
  _level (reset_modifications vs w) = _level vs.
Proof. unfold reset_modifications. by case_decide. Qed.

Lemma reset_modifications_qualified vs w :
  _is_qualified (reset_modifications vs w) = _is_qualified vs.
Proof. unfold reset_modifications. by case_decide. Qed.

#[local] Hint Resolve change_translation_level change_translation_qualified
  reset_modifications_level reset_modifications_qualified : steady.

Ltac steady_step :=
  first [ simple apply steady_bind; [|intros ?]
        | simple apply steady_print; simpl; done
        | simple apply steady_update_vstate; intros ?; solve [eauto with steady]
        | solve [eauto with steady] ].

(** *** The menu *)

Lemma choose_loop_steady lines : ∀ text options default input_dict w,
  lines = stdin w →
  let r := choose_loop lines text options default input_dict w in
  vstate r.2 = vstate w
  ∧ (∃ evs, stdout r.2 = stdout w ++ evs ∧ Forall dialogue_event evs)
  ∧ match r.1 with
    | Return _ => (length (stdin r.2) < length (stdin w))%nat
    | Raise _ => (length (stdin r.2) ≤ length (stdin w))%nat
    | Timeout => False
    end.
Proof.
  induction lines as [|inp lines IH];
    intros text options default input_dict w Hlines; simpl.
  - split_and!; [done| |done]. exists [EvMenu text options].
    split; [done|]. by repeat constructor.
  - destruct (dict_getitem input_dict _) as [optval|]; simpl.
    + split_and!; [done| |rewrite <- Hlines; simpl; lia].
      exists [EvMenu text options]. split; [done|]. by repeat constructor.
    + match goal with |- context [choose_loop lines _ _ _ _ ?w1] =>
        destruct (IH text options default input_dict w1 eq_refl)
          as (Hvs & (evs & Hout & Hevs) & Hres)
      end.
      simpl in *. split_and!; [done| |].
      * eexists (EvMenu text options :: EvInvalidChoice _ :: evs).
        split; [by rewrite Hout, <- !app_assoc|]. by repeat constructor.
      * rewrite <- Hlines. simpl.
        destruct (choose_loop _ _ _ _ _ _).1; [lia|lia|done].
Qed.

Lemma choose_spec text options default w :
  let r := choose text options default w in
  vstate r.2 = vstate w
  ∧ (∃ evs, stdout r.2 = stdout w ++ evs ∧ Forall dialogue_event evs)
  ∧ match r.1 with
    | Return _ => (length (stdin r.2) < length (stdin w))%nat
    | Raise _ => (length (stdin r.2) ≤ length (stdin w))%nat
    | Timeout => False
    end.
Proof.
  unfold choose. destruct (_ || _).
  - by apply choose_loop_steady.
  - simpl. split_and!; [done| |done]. exists []. by rewrite app_nil_r.
Qed.

Lemma choose_steady text options default :
  steady dialogue_event (choose text options default).
Proof.
  intros w. destruct (choose_spec text options default w)
    as (Hvs & Hout & Hres).
  rewrite Hvs. split_and!; [|done|done| |done].
  - intros Ht. by rewrite Ht in Hres.
  - destruct (choose _ _ _ w).1; [lia|done|done].
Qed.

(** *** The drill *)

Lemma steady_iterate P s : steady P (iterate s).
Proof.
  intros w. simpl. split_and!; try done. exists []. by rewrite app_nil_r.
Qed.

Lemma _modify_translation_steady engword answer translations :
  steady dialogue_event (_modify_translation engword answer translations).
Proof.
  unfold _modify_translation.
  apply steady_bind; [apply steady_iterate|]. intros words.
  apply steady_bind; [apply choose_steady|]. intros [opt replaceword].
  repeat case_decide; repeat steady_step.
Qed.

Lemma train_round_steady testwords : ∀ num vocdict,
  steady round_event (train_round testwords num vocdict).
Proof.
  induction testwords as [|engword testwords IH]; intros num vocdict; simpl.
  - apply steady_mret.
  - repeat steady_step. destruct (negb _); repeat steady_step; try apply IH.
    eapply steady_mono; [|apply _modify_translation_steady].
    intros e He. by destruct e.
Qed.

Lemma print_difficult_steady P engwords : ∀ vocdict,
  (∀ k T, P (EvDifficultWord k T)) →
  steady P (print_difficult engwords vocdict).
Proof.
  induction engwords as [|engword engwords IH]; intros vocdict HP; simpl.
  - apply steady_mret.
  - repeat steady_step; first [by apply steady_print | by apply IH].
Qed.

Lemma not_final_absent evs :
  Forall not_final evs → (EvKnowAll ∉ evs) ∧ (EvNowQualified ∉ evs).
Proof.
  intros Hall. split; intros Hin;
    apply (proj1 (Forall_forall _ _) Hall) in Hin as [? ?]; done.
Qed.

Lemma round_event_not_final e : round_event e → not_final e.
Proof. by destruct e. Qed.

Lemma dialogue_event_not_final e : dialogue_event e → not_final e.
Proof. by destruct e. Qed.

(** Events that are not final, printed before, do not change how the drill
    has ended. *)
Lemma drill_outcome_prefix w w1 r pre evs :
  Forall not_final pre →
  _is_qualified (vstate w1) = _is_qualified (vstate w) →
  _level (vstate w1) = _level (vstate w) →
  drill_outcome w1 r evs → drill_outcome w r (pre ++ evs).
Proof.
  intros Hpre Hq Hl Hout. apply not_final_absent in Hpre as [Hk Hn].
  unfold drill_outcome in *. rewrite !elem_of_app, <- Hq, <- Hl.
  destruct Hout as [(? & ? & ? & ?)|(? & ? & ?)]; [left|right]; naive_solver.
Qed.

Lemma drill_spec_prefix w w1 r pre :
  stdout w1 = stdout w ++ pre →
  Forall not_final pre →
  _is_qualified (vstate w1) = _is_qualified (vstate w) →
  _level (vstate w1) = _level (vstate w) →
  drill_spec w1 r → drill_spec w r.
Proof.
  intros Hout Hpre Hq Hl (evs & Hout' & Ht & Hl' & Hres).
  exists (pre ++ evs). split_and!; [|done|congruence|].
  - by rewrite Hout', Hout, app_assoc.
  - by apply (drill_outcome_prefix w w1).
Qed.

(** A drill that ends without the final events. *)
Lemma drill_spec_quiet w (r : result unit * World) evs :
  stdout r.2 = stdout w ++ evs →
  Forall not_final evs →
  r.1 ≠ Timeout →
  _level (vstate r.2) = _level (vstate w) →
  _is_qualified (vstate r.2) = _is_qualified (vstate w) →
  drill_spec w r.
Proof.
  intros Hout Hevs Ht Hl Hq. exists evs. split_and!; try done.
  right. by destruct (not_final_absent _ Hevs).
Qed.

Lemma train_loop_spec rounds : ∀ vocdict w,
  (length (stdin w) < rounds)%nat →
  drill_spec w (train_loop rounds vocdict w).
Proof.
  induction rounds as [|rounds IH]; intros vocdict w Hlen; [lia|].
  simpl.
  unfold mbind at 1, M_bind at 1, random_shuffle.
  destruct (shuffle_draws _ _ _) as [testwords draws].
  unfold mbind at 1, M_bind at 1, print at 1.
  set (w1 := emit _ (set_entropy draws w)).
  unfold mbind at 1, M_bind at 1.
  destruct (train_round_steady testwords 0 vocdict w1)
    as (Ht1 & Hl1 & Hq1 & Hin1 & evs1 & Hout1 & Hevs1).
  pose proof (Forall_impl _ _ _ Hevs1 round_event_not_final) as Hnf1.
  simpl in Hl1, Hq1, Hin1, Hout1. rewrite <- app_assoc in Hout1.
  assert (Forall not_final ([EvRoundStart (length testwords)] ++ evs1))
    as Hpre by (by repeat constructor).
  destruct (train_round testwords 0 vocdict w1) as [[d|e|] w2];
    simpl in *; [| |done].
  - apply (drill_spec_prefix w w2 _ _ Hout1 Hpre Hq1 Hl1).
    assert (length (stdin w2) < S rounds)%nat as Hlen2 by lia.
    clear dependent w. clear dependent evs1.
    destruct (dict_is_empty d).
    + (* all words known *)
      unfold mbind, M_bind, print, get_vstate, update_vstate, mret, M_ret.
      simpl. destruct (_is_qualified (vstate w2)) eqn:Hq2; simpl;
        [|case_bool_decide as Hlev; simpl].
      * exists [EvKnowAll]. split_and!; [done|done|done|].
        left. simpl. split_and!; [set_solver|done|done|].
        rewrite Hq2. set_solver.
      * exists [EvKnowAll; EvNowQualified].
        split_and!; [simpl; by rewrite <- app_assoc|done|done|].
        left. simpl. split_and!; [set_solver|done|done|]. set_solver.
      * exists [EvKnowAll]. split_and!; [done|done|done|].
        left. simpl. split_and!; [set_solver|done|done|]. set_solver.
    + (* some words missed *)
      unfold mbind at 1, M_bind at 1, print at 1.
      unfold mbind at 1, M_bind at 1, print at 1.
      set (w3 := emit EvDifficultWords _).
      unfold mbind at 1, M_bind at 1.
      destruct (print_difficult_steady not_final (dict_keys d) d
                  ltac:(by intros) w3)
        as (Ht3 & Hl3 & Hq3 & Hin3 & evs3 & Hout3 & Hevs3).
      simpl in Hl3, Hq3, Hin3, Hout3. rewrite <- !app_assoc in Hout3.
      simpl in Hout3.
      destruct (print_difficult (dict_keys d) d w3) as [[[]|e|] w4];
        simpl in *; [| |done].
      * unfold mbind at 1, M_bind at 1.
        match goal with |- context [choose ?t ?o ?d w4] =>
          destruct (choose_spec t o d w4)
            as (Hvs5 & (evs5 & Hout5 & Hevs5) & Hin5);
          destruct (choose t o d w4) as [[choice|e|] w5]
        end; simpl in *; [| |done].
        -- assert (stdout w5
                   = stdout w2
                       ++ ([EvRoundScore (length testwords - length d)
                                         (length testwords);
                            EvDifficultWords] ++ evs3 ++ evs5)) as Hout.
           { rewrite Hout5, Hout3. by rewrite <- !app_assoc. }
           assert (Forall not_final
                     ([EvRoundScore (length testwords - length d)
                                    (length testwords);
                       EvDifficultWords] ++ evs3 ++ evs5)) as Hquiet.
           { repeat constructor; try done. apply Forall_app. split; [done|].
             eapply Forall_impl; [done|apply dialogue_event_not_final]. }
           case_decide as Hx.
           ++ eapply drill_spec_quiet; simpl;
                [exact Hout|done|done|congruence|congruence].
           ++ unfold mbind, M_bind, _clear_screen, print. simpl.
              eapply (drill_spec_prefix w2 (emit EvClearScreen w5) _
                        (([EvRoundScore (length testwords - length d)
                                        (length testwords);
                           EvDifficultWords] ++ evs3 ++ evs5)
                           ++ [EvClearScreen])).
              ** change (stdout (emit EvClearScreen w5))
                   with (stdout w5 ++ [EvClearScreen]).
                 rewrite Hout. symmetry. apply app_assoc.
              ** apply Forall_app. split; [exact Hquiet|by repeat constructor].
              ** simpl. congruence.
              ** simpl. congruence.
              ** apply IH. simpl. lia.
        -- eapply (drill_spec_quiet w2 _
                     ([EvRoundScore (length testwords - length d)
                                    (length testwords);
                       EvDifficultWords] ++ evs3 ++ evs5)); simpl.
           ++ rewrite Hout5, Hout3. by rewrite <- !app_assoc.
           ++ repeat constructor; try done. apply Forall_app. split; [done|].
              eapply Forall_impl; [done|apply dialogue_event_not_final].
           ++ done.
           ++ congruence.
           ++ congruence.
      * eapply drill_spec_quiet; simpl; [exact Hout3| |done|done|done].
        by repeat constructor.
  - eapply drill_spec_quiet; simpl; [exact Hout1|done|done|done|done].
Qed.

Lemma printed_app {A} (m : M A) w evs :
  stdout (m w).2 = stdout w ++ evs → printed m w = evs.
Proof. intros H. unfold printed. rewrite H. by rewrite drop_app_length. Qed.

Lemma _train_spec voctable w : drill_spec w (_train voctable w).
Proof.
  unfold _train.
  unfold mbind at 1, M_bind at 1, get_vstate.
  unfold mbind at 1, M_bind at 1, _print_banner, print.
  cbv beta.
  set (banner := EvBanner _ _).
  apply (drill_spec_prefix w (emit banner w) _ [banner]).
  - reflexivity.
  - by repeat constructor.
  - done.
  - done.
  - apply train_loop_spec. simpl. lia.
Qed.




(** *** The comparison of an answer *)

(** In the exam and in the drill, the answer to a word counts as correct
    ("Correct!" is printed for it) if and only if its lower-cased form is
    itself an element of the effective translations: the translations are
    compared as they are. *)
Lemma answer_test
    (vocdict : pydict (list string)) (engword : string)
    (defaults : list string) (line : string) (lines : list string)
    (w : World) (num : nat) :
  dict_getitem vocdict engword = Some defaults →
  stdin w = line :: lines →
  let T := get_modified_translations (vstate w) engword defaults in
  (EvCorrect ∈ printed (exam_loop [engword] num vocdict) w ↔ lower line ∈ T)
  ∧ (EvCorrect ∈ printed (train_round [engword] num vocdict) w
     ↔ lower line ∈ T).
Proof.
  intros Hdef Hin T. split.
  - simpl. unfold printed, getitem. rewrite Hdef.
    unfold mbind, M_bind, mret, M_ret, get_vstate, print, input. simpl.
    rewrite Hin. fold T. case_bool_decide as HT; simpl.
    + unfold delitem. destruct (dict_delitem vocdict engword); simpl;
        rewrite <- app_assoc, drop_app_length; set_solver.
    + rewrite drop_app_length. set_solver.
  - simpl. unfold printed, getitem. rewrite Hdef.
    unfold mbind at 1, M_bind at 1, mret at 1, M_ret at 1.
    unfold mbind at 1, M_bind at 1, get_vstate at 1.
    unfold mbind at 1, M_bind at 1, print at 1.
    unfold mbind at 1, M_bind at 1, input at 1. simpl.
    rewrite Hin. fold T. case_bool_decide as HT; simpl.
    + unfold mbind, M_bind, mret, M_ret, print, delitem.
      destruct (dict_delitem vocdict engword); simpl;
        rewrite <- app_assoc, drop_app_length; set_solver.
    + unfold mbind at 1, M_bind at 1, print at 1.
      match goal with |- context [(?m ≫= ?f) ?w1] =>
        assert (steady dialogue_event (m ≫= f)) as Hs
      end.
      { apply steady_bind; [apply _modify_translation_steady|].
        intros _. apply steady_mret. }
      match type of Hs with steady _ ?m =>
        match goal with |- context [m ?w1] =>
          destruct (Hs w1) as (_ & _ & _ & _ & evs & Hout & Hevs)
        end
      end.
      rewrite Hout. simpl. rewrite <- !app_assoc, drop_app_length. simpl.
      split; [|done]. intros Hc. exfalso.
      apply elem_of_cons in Hc as [?|Hc]; [done|].
      apply elem_of_cons in Hc as [?|Hc]; [done|].
      apply (proj1 (Forall_forall _ _) Hevs) in Hc. done.
Qed.

(** C5.  The translation "Haus" of "house" cannot be given: every answer
    whose lower-cased form is "haus" (the answers "Haus" and "haus" are such)
    is rejected, in the exam and in the drill, although it equals the
    translation up to letter case. *)
Theorem capital_translation_rejected (line : string) (lines : list string) :
  lower line = "haus" →
  let w := mkWorld VocState_init (line :: lines) [] [] in
  get_modified_translations (vstate w) "house" ["Haus"] = {["Haus"]}
  ∧ (EvCorrect ∉ printed (exam_loop ["house"] 0 block_house) w)
  ∧ (EvCorrect ∉ printed (train_round ["house"] 0 block_house) w).
Proof.
  intros Hlow w.
  assert (get_modified_translations (vstate w) "house" ["Haus"]
          = {["Haus"]}) as HT by compute_done.
  destruct (answer_test block_house "house" ["Haus"] line lines w 0
              eq_refl eq_refl) as [Hexam Htrain].
  cbv zeta in Hexam, Htrain. rewrite HT, Hlow in Hexam, Htrain.
  split_and!; [done| |].
  - intros Hc. apply Hexam in Hc. by apply elem_of_singleton in Hc.
  - intros Hc. apply Htrain in Hc. by apply elem_of_singleton in Hc.
Qed.

(** *** The store by reference *)

Lemma heap_content_store l s st l' :
  Heap.content (Heap.store l s st) l'
  = if decide (l = l') then s else Heap.content st l'.
Proof.
  unfold Heap.content, Heap.store. simpl. rewrite lookup_insert.
  by case_decide.
Qed.

Lemma heap_lookup_store_ne l s st l' :
  l ≠ l' → Heap.objs (Heap.store l s st) !! l' = Heap.objs st !! l'.
Proof. intros Hne. unfold Heap.store. simpl. by rewrite lookup_insert_ne. Qed.

Lemma heap_dom_store l s st :
  dom (Heap.objs (Heap.store l s st)) = {[l]} ∪ dom (Heap.objs st).
Proof. unfold Heap.store. simpl. by rewrite dom_insert_L. Qed.

Lemma heap_new_set_fresh s st :
  (Heap.new_set s st).1 ∉ dom (Heap.objs st).
Proof. unfold Heap.new_set. simpl. apply is_fresh. Qed.

(** The four updates of [change_translation], on objects that are all
    different from the two of the store. *)
Lemma heap_updates st a r la lr :
  a ≠ r → la ≠ a → la ≠ r → lr ≠ a → lr ≠ r →
  let st' := Heap.isub r la (Heap.ior r lr (Heap.isub a lr (Heap.ior a la st)))
  in
  Heap.content st' a
    = (Heap.content st a ∪ Heap.content st la) ∖ Heap.content st lr
  ∧ Heap.content st' r
    = (Heap.content st r ∪ Heap.content st lr) ∖ Heap.content st la
  ∧ (∀ l, l ≠ a → l ≠ r → Heap.objs st' !! l = Heap.objs st !! l)
  ∧ Heap.extra_trans st' = Heap.extra_trans st
  ∧ Heap.level st' = Heap.level st
  ∧ Heap.is_qualified st' = Heap.is_qualified st.
Proof.
  intros Har Hla Hla' Hlr Hlr'. cbv zeta. unfold Heap.isub, Heap.ior.
  split_and!; try done.
  - repeat (rewrite !heap_content_store; repeat case_decide; try done).
  - repeat (rewrite !heap_content_store; repeat case_decide; try done).
  - intros l Hl Hl'. by rewrite !heap_lookup_store_ne.
Qed.

(** The updates write to the two objects of the store only, whatever the
    arguments are. *)
Lemma heap_updates_frame st a r la lr l :
  l ≠ a → l ≠ r →
  Heap.objs
    (Heap.isub r la (Heap.ior r lr (Heap.isub a lr (Heap.ior a la st)))) !! l
  = Heap.objs st !! l.
Proof.
  intros Hl Hl'. unfold Heap.isub, Heap.ior. by rewrite !heap_lookup_store_ne.
Qed.

Lemma heap_updates_dom st a r la lr :
  dom (Heap.objs
         (Heap.isub r la (Heap.ior r lr (Heap.isub a lr (Heap.ior a la st)))))
  = {[a; r]} ∪ dom (Heap.objs st).
Proof.
  unfold Heap.isub, Heap.ior. rewrite !heap_dom_store. set_solver.
Qed.

(** What [setdefault] returns and leaves. *)
Lemma heap_setdefault_pair w st :
  let p := (Heap.setdefault_pair w st).1 in
  let st' := (Heap.setdefault_pair w st).2 in
  (∀ l, l ∈ dom (Heap.objs st) → Heap.objs st' !! l = Heap.objs st !! l)
  ∧ dom (Heap.objs st) ⊆ dom (Heap.objs st')
  ∧ Heap.level st' = Heap.level st
  ∧ Heap.is_qualified st' = Heap.is_qualified st
  ∧ match Heap.extra_trans st !! w with
    | Some stored => p = stored ∧ Heap.extra_trans st' = Heap.extra_trans st
    | None =>
        (p.1 ∉ dom (Heap.objs st)) ∧ (p.2 ∉ dom (Heap.objs st)) ∧ p.1 ≠ p.2
        ∧ Heap.objs st' !! p.1 = Some ∅ ∧ Heap.objs st' !! p.2 = Some ∅
        ∧ Heap.extra_trans st' = <[w := p]> (Heap.extra_trans st)
    end.
Proof.
  unfold Heap.setdefault_pair, Heap.new_set. simpl.
  set (l1 := fresh (dom (Heap.objs st))).
  set (l2 := fresh (dom (<[l1:=∅]> (Heap.objs st)))).
  assert (l1 ∉ dom (Heap.objs st)) as H1 by apply is_fresh.
  assert (l2 ∉ dom (<[l1:=∅]> (Heap.objs st))) as H2 by apply is_fresh.
  rewrite dom_insert_L in H2.
  assert (l1 ≠ l2) as Hne by set_solver.
  assert (∀ l, l ∈ dom (Heap.objs st) →
               <[l2:=∅]> (<[l1:=∅]> (Heap.objs st)) !! l = Heap.objs st !! l)
    as Hkeep.
  { intros l Hl. rewrite !lookup_insert_ne; [done|set_solver|set_solver]. }
  assert (dom (Heap.objs st) ⊆ dom (<[l2:=∅]> (<[l1:=∅]> (Heap.objs st))))
    as Hdom.
  { rewrite !dom_insert_L. set_solver. }
  destruct (Heap.extra_trans st !! w) as [stored|] eqn:E; simpl.
  - split_and!; done.
  - split_and!; try done; [set_solver| |].
    + rewrite lookup_insert_ne by done. by rewrite lookup_insert_eq.
    + by rewrite lookup_insert_eq.
Qed.

Lemma heap_change_translation_unfold st w add remove :
  Heap.change_translation st w add remove
  = let p := (Heap.setdefault_pair w st).1 in
    let st' := (Heap.setdefault_pair w st).2 in
    let la := default Heap.default_add add in
    let lr := default Heap.default_remove remove in
    Heap.isub p.2 la (Heap.ior p.2 lr (Heap.isub p.1 lr (Heap.ior p.1 la st'))).
Proof.
  unfold Heap.change_translation.
  by destruct (Heap.setdefault_pair w st) as [[a r] st'].
Qed.

(** The pair of a word after [setdefault]: it is one of the store's before,
    or it is new. *)
Lemma heap_setdefault_pairs w st w' p' :
  Heap.extra_trans (Heap.setdefault_pair w st).2 !! w' = Some p' →
  Heap.extra_trans st !! w' = Some p'
  ∨ (w' = w ∧ p' = (Heap.setdefault_pair w st).1
     ∧ Heap.extra_trans st !! w = None
     ∧ (p'.1 ∉ dom (Heap.objs st)) ∧ (p'.2 ∉ dom (Heap.objs st))
     ∧ p'.1 ≠ p'.2).
Proof.
  intros Hp'.
  destruct (heap_setdefault_pair w st) as (_ & _ & _ & _ & Hcase).
  destruct (Heap.extra_trans st !! w) as [stored|] eqn:E.
  - destruct Hcase as [_ Het]. rewrite Het in Hp'. by left.
  - destruct Hcase as (H1 & H2 & Hne & _ & _ & Het). rewrite Het in Hp'.
    destruct (decide (w = w')) as [<-|Hw].
    + rewrite lookup_insert_eq in Hp'. injection Hp' as <-. by right.
    + rewrite lookup_insert_ne in Hp' by done. by left.
Qed.

Lemma heap_setdefault_pair_in w st :
  Heap.extra_trans (Heap.setdefault_pair w st).2 !! w
  = Some (Heap.setdefault_pair w st).1.
Proof.
  destruct (heap_setdefault_pair w st) as (_ & _ & _ & _ & Hcase).
  destruct (Heap.extra_trans st !! w) as [stored|] eqn:E.
  - destruct Hcase as [-> ->]. done.
  - destruct Hcase as (_ & _ & _ & _ & _ & ->). by rewrite lookup_insert_eq.
Qed.

Lemma heap_wf_in_dom st l : Heap.wf st → Heap.owned st l → l ∈ dom (Heap.objs st).
Proof.
  intros (_ & _ & Hw & _) (w & p & Hp & [->| ->]);
    destruct (Hw w p Hp) as (? & ? & _); done.
Qed.

Lemma heap_wf_defaults st :
  Heap.wf st →
  Heap.default_add ∈ dom (Heap.objs st)
  ∧ Heap.default_remove ∈ dom (Heap.objs st)
  ∧ ¬ Heap.owned st Heap.default_add
  ∧ ¬ Heap.owned st Heap.default_remove
  ∧ Heap.content st Heap.default_add = ∅
  ∧ Heap.content st Heap.default_remove = ∅.
Proof.
  intros (Ha & Hr & Hw & _). unfold Heap.content. rewrite Ha, Hr.
  split_and!; try done.
  - apply elem_of_dom. eauto.
  - apply elem_of_dom. eauto.
  - intros (w & p & Hp & Hl). destruct (Hw w p Hp) as (_&_&_&?&_&?&_).
    naive_solver.
  - intros (w & p & Hp & Hl). destruct (Hw w p Hp) as (_&_&_&_&?&_&?).
    naive_solver.
Qed.

Lemma heap_change_translation_wf st w add remove :
  Heap.wf st → Heap.wf (Heap.change_translation st w add remove).
Proof.
  intros Hwf. pose proof Hwf as (Ha & Hr & Hw2 & Hw3).
  rewrite heap_change_translation_unfold. cbv zeta.
  set (la := default Heap.default_add add).
  set (lr := default Heap.default_remove remove).
  destruct (heap_setdefault_pair w st) as (Hkeep & Hdom & _ & _ & _).
  pose proof (heap_setdefault_pairs w st) as Hpairs.
  pose proof (heap_setdefault_pair_in w st) as Hin.
  set (p := (Heap.setdefault_pair w st).1) in *.
  set (st' := (Heap.setdefault_pair w st).2) in *.
  pose proof (heap_updates_dom st' p.1 p.2 la lr) as Hdom'.
  assert (∀ l, l ∈ dom (Heap.objs st) → l ≠ p.1 → l ≠ p.2 →
            Heap.objs (Heap.isub p.2 la (Heap.ior p.2 lr
                         (Heap.isub p.1 lr (Heap.ior p.1 la st')))) !! l
            = Heap.objs st !! l) as Hframe.
  { intros l Hl H1 H2. rewrite heap_updates_frame by done. by apply Hkeep. }
  assert (Heap.default_add ∈ dom (Heap.objs st)) as Hda
    by (apply elem_of_dom; eauto).
  assert (Heap.default_remove ∈ dom (Heap.objs st)) as Hdr
    by (apply elem_of_dom; eauto).
  assert (∀ l, l ∈ dom (Heap.objs st) → ¬ Heap.owned st l →
               l ≠ p.1 ∧ l ≠ p.2) as Hother.
  { intros l Hl Hno. destruct (Hpairs w p Hin) as [Hst|(_&_&_&H1&H2&_)].
    - split; intros ->; apply Hno; exists w, p; eauto.
    - split; intros ->; done. }
  destruct (heap_wf_defaults st Hwf) as (_ & _ & Hnoa & Hnor & _ & _).
  destruct (Hother _ Hda Hnoa) as [? ?].
  destruct (Hother _ Hdr Hnor) as [? ?].
  assert (Heap.extra_trans
            (Heap.isub p.2 la (Heap.ior p.2 lr
               (Heap.isub p.1 lr (Heap.ior p.1 la st'))))
          = Heap.extra_trans st') as Het by done.
  split_and!.
  - rewrite Hframe by done. done.
  - rewrite Hframe by done. done.
  - intros w' p' Hp'. rewrite Het in Hp'. rewrite Hdom'.
    destruct (Hpairs w' p' Hp') as [Hst|(-> & -> & _ & Hf1 & Hf2 & Hne)].
    + destruct (Hw2 w' p' Hst) as (?&?&?&?&?&?&?).
      split_and!; try done; set_solver.
    + fold p in Hf1, Hf2, Hne |- *.
      split_and!; try done; try set_solver; intros Heq; rewrite Heq in *; done.
  - intros w1 w2 p1 p2 Hne Hp1 Hp2. rewrite Het in Hp1, Hp2.
    destruct (Hpairs w1 p1 Hp1) as [Hst1|(-> & -> & _ & Hf1 & Hf2 & _)];
      destruct (Hpairs w2 p2 Hp2) as [Hst2|(-> & -> & _ & Hg1 & Hg2 & _)].
    + by apply (Hw3 w1 w2).
    + destruct (Hw2 w1 p1 Hst1) as (?&?&_).
      fold p in Hg1, Hg2 |- *. split_and!; intros Heq; rewrite Heq in *; done.
    + destruct (Hw2 w2 p2 Hst2) as (?&?&_).
      fold p in Hf1, Hf2 |- *. split_and!; intros Heq; rewrite <- Heq in *; done.
    + done.
Qed.

(** More objects, the same store. *)
Lemma heap_wf_extend st st' :
  Heap.wf st →
  Heap.extra_trans st' = Heap.extra_trans st →
  (∀ l, l ∈ dom (Heap.objs st) → Heap.objs st' !! l = Heap.objs st !! l) →
  Heap.wf st'.
Proof.
  intros (Ha & Hr & Hw2 & Hw3) Het Hkeep.
  assert (dom (Heap.objs st) ⊆ dom (Heap.objs st')) as Hdom.
  { intros l Hl. apply elem_of_dom. rewrite Hkeep by done.
    by apply elem_of_dom. }
  split_and!.
  - rewrite Hkeep; [done|]. apply elem_of_dom. eauto.
  - rewrite Hkeep; [done|]. apply elem_of_dom. eauto.
  - intros w p Hp. rewrite Het in Hp.
    destruct (Hw2 w p Hp) as (?&?&?&?&?&?&?). split_and!; try done; set_solver.
  - intros w w' p p' Hne Hp Hp'. rewrite Het in Hp, Hp'. by apply (Hw3 w w').
Qed.

Lemma heap_new_set_keeps s st l :
  l ∈ dom (Heap.objs st) →
  Heap.objs (Heap.new_set s st).2 !! l = Heap.objs st !! l.
Proof.
  intros Hl. unfold Heap.new_set. simpl. apply lookup_insert_ne.
  intros <-. by apply (is_fresh (dom (Heap.objs st))).
Qed.

Lemma heap_new_set_dom s st :
  dom (Heap.objs (Heap.new_set s st).2)
  = {[(Heap.new_set s st).1]} ∪ dom (Heap.objs st).
Proof. unfold Heap.new_set. simpl. by rewrite dom_insert_L. Qed.

Lemma heap_new_set_wf s st : Heap.wf st → Heap.wf (Heap.new_set s st).2.
Proof.
  intros Hwf. apply (heap_wf_extend st); [done|done|].
  intros l Hl. by apply heap_new_set_keeps.
Qed.

Lemma heap_reset_modifications_wf st w :
  Heap.wf st → Heap.wf (Heap.reset_modifications st w).
Proof.
  intros (Ha & Hr & Hw2 & Hw3). unfold Heap.reset_modifications.
  case_decide; [|done]. split_and!; simpl; try done.
  - intros w' p Hp. apply lookup_delete_Some in Hp as [_ Hp]. by apply (Hw2 w').
  - intros w1 w2 p1 p2 Hne Hp1 Hp2.
    apply lookup_delete_Some in Hp1 as [_ Hp1].
    apply lookup_delete_Some in Hp2 as [_ Hp2]. by apply (Hw3 w1 w2).
Qed.

(** What [get_modified_translations] returns and leaves: a new object with
    the elements the method by value computes, and every object that was
    there as it was. *)
Lemma heap_get_modified_translations st w translations :
  Heap.wf st →
  let result := (Heap.get_modified_translations st w translations).1 in
  let st' := (Heap.get_modified_translations st w translations).2 in
  (result ∉ dom (Heap.objs st))
  ∧ result ∈ dom (Heap.objs st')
  ∧ Heap.content st' result
    = get_modified_translations (Heap.view st) w translations
  ∧ (∀ l, l ∈ dom (Heap.objs st) → Heap.objs st' !! l = Heap.objs st !! l)
  ∧ Heap.extra_trans st' = Heap.extra_trans st
  ∧ Heap.level st' = Heap.level st
  ∧ Heap.is_qualified st' = Heap.is_qualified st.
Proof.
  intros Hwf. pose proof Hwf as (_ & _ & Hw2 & _).
  unfold Heap.get_modified_translations, Heap.get_pair.
  destruct (Heap.new_set ∅ st) as [l1 st1] eqn:E1.
  destruct (Heap.new_set ∅ st1) as [l2 st2] eqn:E2.
  destruct (default (l1, l2) (Heap.extra_trans st2 !! w)) as [a r] eqn:Ep.
  destruct (Heap.new_set (list_to_set translations) st2) as [res st3] eqn:E3.
  simpl.
  pose proof (heap_new_set_fresh ∅ st) as F1. rewrite E1 in F1. simpl in F1.
  pose proof (heap_new_set_fresh ∅ st1) as F2. rewrite E2 in F2. simpl in F2.
  pose proof (heap_new_set_fresh (list_to_set translations) st2) as F3.
  rewrite E3 in F3. simpl in F3.
  pose proof (heap_new_set_dom ∅ st) as D1. rewrite E1 in D1. simpl in D1.
  pose proof (heap_new_set_dom ∅ st1) as D2. rewrite E2 in D2. simpl in D2.
  assert (st1 = Heap.store l1 ∅ st) as ->
    by (unfold Heap.new_set in E1; by injection E1 as <- <-).
  assert (st2 = Heap.store l2 ∅ (Heap.store l1 ∅ st)) as ->
    by (unfold Heap.new_set in E2; by injection E2 as <- <-).
  assert (st3 = Heap.store res (list_to_set translations)
                  (Heap.store l2 ∅ (Heap.store l1 ∅ st))) as ->
    by (unfold Heap.new_set in E3; by injection E3 as <- <-).
  assert (res ≠ l1 ∧ res ≠ l2 ∧ l1 ≠ l2) as (? & ? & ?) by set_solver.
  assert (res ∉ dom (Heap.objs st)) as Fres by set_solver.
  unfold Heap.isub, Heap.ior.
  split_and!; try done.
  - rewrite dom_insert_L. set_solver.
  - simpl in Ep.
    assert (res ≠ a ∧ res ≠ r
            ∧ (Heap.content (Heap.store l2 ∅ (Heap.store l1 ∅ st)) a,
               Heap.content (Heap.store l2 ∅ (Heap.store l1 ∅ st)) r)
              = corrections (Heap.view st) w) as (Hra & Hrr & Hcorr).
    { unfold corrections, Heap.view. simpl. rewrite lookup_fmap.
      destruct (Heap.extra_trans st !! w) as [p|] eqn:Ew; simpl in *.
      - subst p. destruct (Hw2 w (a, r) Ew) as (Hin1 & Hin2 & _). simpl in *.
        split_and!; [set_solver|set_solver|].
        rewrite !heap_content_store.
        repeat case_decide; try done; set_solver.
      - injection Ep as <- <-. split_and!; [done|done|].
        rewrite !heap_content_store. repeat case_decide; done. }
    unfold get_modified_translations. rewrite <- Hcorr.
    repeat (rewrite !heap_content_store; repeat case_decide; try done).
  - intros l Hl. assert (res ≠ l ∧ l1 ≠ l ∧ l2 ≠ l) as (?&?&?) by set_solver.
    repeat first [rewrite lookup_insert_ne by done
                 |rewrite heap_lookup_store_ne by done].
    done.
Qed.

Lemma heap_get_modified_translations_wf st w translations :
  Heap.wf st → Heap.wf (Heap.get_modified_translations st w translations).2.
Proof.
  intros Hwf.
  destruct (heap_get_modified_translations st w translations Hwf)
    as (_ & _ & _ & Hkeep & Het & _).
  by apply (heap_wf_extend st).
Qed.

Lemma heap_init_wf : Heap.wf Heap.init.
Proof. split_and!; done. Qed.

Lemma heap_run_ops_wf os : ∀ st st',
  Heap.wf st → Heap.run_ops st os = Some st' → Heap.wf st'.
Proof.
  induction os as [|o os IH]; intros st st' Hwf Hrun; simpl in Hrun.
  - by injection Hrun as <-.
  - destruct (Heap.run_op st o) as [st1|] eqn:Hop; [|done].
    apply (IH st1); [|done].
    destruct o; simpl in Hop.
    + injection Hop as <-. by apply heap_new_set_wf.
    + destruct (_ && _); [|done]. injection Hop as <-.
      by apply heap_change_translation_wf.
    + injection Hop as <-. by apply heap_reset_modifications_wf.
    + injection Hop as <-. by apply heap_get_modified_translations_wf.
Qed.

Lemma heap_content_eq st st' l :
  Heap.objs st' !! l = Heap.objs st !! l → Heap.content st' l = Heap.content st l.
Proof. unfold Heap.content. by intros ->. Qed.

(** An argument of client code: the object it stands for exists, is not one
    of the store's, and holds the elements passed. *)
Lemma heap_client_arg st (a : option Heap.loc) (dflt : Heap.loc) :
  Heap.wf st →
  dflt = Heap.default_add ∨ dflt = Heap.default_remove →
  Heap.client_arg st a →
  default dflt a ∈ dom (Heap.objs st)
  ∧ ¬ Heap.owned st (default dflt a)
  ∧ Heap.content st (default dflt a) = Heap.passed st a.
Proof.
  intros Hwf Hd Ha.
  destruct (heap_wf_defaults st Hwf) as (?&?&?&?&?&?).
  destruct a as [l|]; simpl in *; [by destruct Ha|].
  destruct Hd as [-> | ->]; done.
Qed.

(** Called by client code, [change_translation] by reference does to the
    contents what [change_translation] by value does. *)
Lemma heap_change_translation_view st w add remove :
  Heap.wf st → Heap.client_arg st add → Heap.client_arg st remove →
  Heap.view (Heap.change_translation st w add remove)
  = change_translation (Heap.view st) w (Heap.passed st add)
                       (Heap.passed st remove).
Proof.
  intros Hwf Hadd Hrem. pose proof Hwf as (_ & _ & Hw2 & Hw3).
  destruct (heap_client_arg st add Heap.default_add Hwf (or_introl eq_refl) Hadd)
    as (Hla & Hnoa & Hca).
  destruct (heap_client_arg st remove Heap.default_remove Hwf
              (or_intror eq_refl) Hrem) as (Hlr & Hnor & Hcr).
  rewrite heap_change_translation_unfold. cbv zeta.
  set (la := default Heap.default_add add) in *.
  set (lr := default Heap.default_remove remove) in *.
  destruct (heap_setdefault_pair w st) as (Hkeep & Hdom & Hlev & Hq & Hcase).
  pose proof (heap_setdefault_pairs w st) as Hpairs.
  pose proof (heap_setdefault_pair_in w st) as Hin.
  set (p := (Heap.setdefault_pair w st).1) in *.
  set (st' := (Heap.setdefault_pair w st).2) in *.
  assert (∀ l, l ∈ dom (Heap.objs st) → ¬ Heap.owned st l →
               l ≠ p.1 ∧ l ≠ p.2) as Hother.
  { intros l Hl Hno. destruct (Hpairs w p Hin) as [Hst|(_&_&_&Hf1&Hf2&_)].
    - split; intros ->; apply Hno; exists w, p; eauto.
    - split; intros ->; done. }
  destruct (Hother la Hla Hnoa) as [Hla1 Hla2].
  destruct (Hother lr Hlr Hnor) as [Hlr1 Hlr2].
  assert (p.1 ≠ p.2) as Hp12.
  { destruct (Hpairs w p Hin) as [Hst|(_&_&_&_&_&?)]; [|done].
    by destruct (Hw2 w p Hst) as (_&_&?&_). }
  destruct (heap_updates st' p.1 p.2 la lr Hp12 Hla1 Hla2 Hlr1 Hlr2)
    as (Hc1 & Hc2 & Hframe & Het & Hlev' & Hq').
  set (final := Heap.isub _ _ _) in *.
  assert (Heap.content st' la = Heap.passed st add) as Hca'.
  { rewrite <- Hca. apply heap_content_eq. by apply Hkeep. }
  assert (Heap.content st' lr = Heap.passed st remove) as Hcr'.
  { rewrite <- Hcr. apply heap_content_eq. by apply Hkeep. }
  rewrite Hca', Hcr' in Hc1, Hc2.
  assert ((Heap.content st' p.1, Heap.content st' p.2)
          = corrections (Heap.view st) w) as Hcorr.
  { unfold corrections, Heap.view. simpl. rewrite lookup_fmap.
    destruct (Heap.extra_trans st !! w) as [stored|] eqn:Ew; simpl.
    - destruct Hcase as [-> _]. destruct (Hw2 w stored Ew) as (?&?&_).
      f_equal; apply heap_content_eq; by apply Hkeep.
    - destruct Hcase as (_&_&_&H1&H2&_). unfold Heap.content.
      by rewrite H1, H2. }
  unfold change_translation. rewrite <- Hcorr.
  unfold Heap.view, set_extra_trans. rewrite Hlev', Hq', Hlev, Hq.
  cbn [_level _is_qualified _extra_trans].
  f_equal. apply map_eq. intros w'. rewrite lookup_fmap, Het.
  destruct (decide (w = w')) as [<-|Hne].
  - rewrite Hin, lookup_insert_eq. simpl. by rewrite Hc1, Hc2.
  - rewrite lookup_insert_ne, lookup_fmap by done.
    assert (Heap.extra_trans st' !! w' = Heap.extra_trans st !! w') as ->.
    { destruct (Heap.extra_trans st !! w) as [stored|].
      - destruct Hcase as [_ ->]. done.
      - destruct Hcase as (_&_&_&_&_& ->). by rewrite lookup_insert_ne. }
    destruct (Heap.extra_trans st !! w') as [p'|] eqn:Ew'; simpl; [|done].
    destruct (Hw2 w' p' Ew') as (Hi1 & Hi2 & _).
    assert (p'.1 ≠ p.1 ∧ p'.1 ≠ p.2 ∧ p'.2 ≠ p.1 ∧ p'.2 ≠ p.2)
      as (?&?&?&?).
    { destruct (Hpairs w p Hin) as [Hst|(_&_&_&Hf1&Hf2&_)].
      - destruct (Hw3 w' w p' p) as (?&?&?&?); [done|done|done|]. done.
      - split_and!; intros Heq; rewrite Heq in *; done. }
    f_equal. f_equal.
    + rewrite <- (heap_content_eq st st' p'.1) by (by apply Hkeep).
      apply heap_content_eq. by apply Hframe.
    + rewrite <- (heap_content_eq st st' p'.2) by (by apply Hkeep).
      apply heap_content_eq. by apply Hframe.
Qed.

(** An object that exists and is not one of the store's is left as it is,
    whatever is passed. *)
Lemma heap_change_translation_frame st w add remove l :
  Heap.wf st → l ∈ dom (Heap.objs st) → ¬ Heap.owned st l →
  Heap.objs (Heap.change_translation st w add remove) !! l = Heap.objs st !! l.
Proof.
  intros Hwf Hl Hno. rewrite heap_change_translation_unfold. cbv zeta.
  destruct (heap_setdefault_pair w st) as (Hkeep & _).
  pose proof (heap_setdefault_pairs w st _ _ (heap_setdefault_pair_in w st))
    as [Hst|(_&_&_&Hf1&Hf2&_)].
  - rewrite heap_updates_frame; [by apply Hkeep| |];
      intros ->; apply Hno; eexists _, _; eauto.
  - rewrite heap_updates_frame; [by apply Hkeep| |]; intros ->; done.
Qed.

(** A new object changes nothing for the store and for the arguments. *)
Lemma heap_new_set_view s st :
  Heap.wf st → Heap.view (Heap.new_set s st).2 = Heap.view st.
Proof.
  intros (_ & _ & Hw2 & _). unfold Heap.view. simpl. f_equal.
  apply map_eq. intros w. rewrite !lookup_fmap.
  destruct (Heap.extra_trans st !! w) as [p|] eqn:Ew; simpl; [|done].
  destruct (Hw2 w p Ew) as (?&?&_).
  f_equal. f_equal; apply heap_content_eq; by apply heap_new_set_keeps.
Qed.

Lemma heap_new_set_client_arg s st a :
  Heap.client_arg st a →
  Heap.client_arg (Heap.new_set s st).2 a
  ∧ Heap.passed (Heap.new_set s st).2 a = Heap.passed st a.
Proof.
  destruct a as [l|]; simpl; [|done]. intros [Hl Hno]. split_and!.
  - rewrite dom_insert_L. set_solver.
  - done.
  - apply heap_content_eq. by apply heap_new_set_keeps.
Qed.

Lemma heap_new_set_is_client_arg s st :
  Heap.wf st →
  Heap.client_arg (Heap.new_set s st).2 (Some (Heap.new_set s st).1)
  ∧ Heap.passed (Heap.new_set s st).2 (Some (Heap.new_set s st).1) = s.
Proof.
  intros Hwf. simpl. split_and!.
  - rewrite dom_insert_L. set_solver.
  - intros Hown. apply (is_fresh (dom (Heap.objs st))).
    by apply (heap_wf_in_dom st).
  - unfold Heap.content. simpl. by rewrite lookup_insert_eq.
Qed.

(** C9.  After every sequence of calls, [change_translation] called by
    client code (each parameter omitted, or an existing set object that is
    not one of the store's own) leaves the objects passed or defaulted as
    they were; the two default objects are empty before and after; the call
    does to the store what the method by value does with the elements passed
    and no elements for an omitted parameter; and so it does the same as the
    call that passes a new empty set for the omitted parameter. *)
Theorem change_translation_keeps_arguments
    (os : list Heap.op) (st : Heap.state) (w : string)
    (add remove : option Heap.loc) :
  Heap.run_ops Heap.init os = Some st →
  Heap.client_arg st add →
  Heap.client_arg st remove →
  let st' := Heap.change_translation st w add remove in
  let la := default Heap.default_add add in
  let lr := default Heap.default_remove remove in
  let empty := Heap.new_set ∅ st in
  Heap.objs st' !! la = Heap.objs st !! la
  ∧ Heap.objs st' !! lr = Heap.objs st !! lr
  ∧ Heap.objs st !! Heap.default_add = Some ∅
  ∧ Heap.objs st !! Heap.default_remove = Some ∅
  ∧ Heap.objs st' !! Heap.default_add = Some ∅
  ∧ Heap.objs st' !! Heap.default_remove = Some ∅
  ∧ Heap.view st'
    = change_translation (Heap.view st) w (Heap.passed st add)
                         (Heap.passed st remove)
  ∧ Heap.view (Heap.change_translation st w None remove)
    = Heap.view (Heap.change_translation empty.2 w (Some empty.1) remove)
  ∧ Heap.view (Heap.change_translation st w add None)
    = Heap.view (Heap.change_translation empty.2 w add (Some empty.1)).
Proof.
  intros Hrun Hadd Hrem. cbv zeta.
  pose proof (heap_run_ops_wf os _ _ heap_init_wf Hrun) as Hwf.
  pose proof (heap_change_translation_wf st w add remove Hwf) as Hwf'.
  destruct (heap_client_arg st add Heap.default_add Hwf (or_introl eq_refl) Hadd)
    as (Hla & Hnoa & _).
  destruct (heap_client_arg st remove Heap.default_remove Hwf
              (or_intror eq_refl) Hrem) as (Hlr & Hnor & _).
  pose proof (heap_new_set_wf ∅ st Hwf) as Hwf1.
  destruct (heap_new_set_is_client_arg ∅ st Hwf) as [Hnew Hnewc].
  destruct (heap_new_set_client_arg ∅ st add Hadd) as [Hadd1 Hpa].
  destruct (heap_new_set_client_arg ∅ st remove Hrem) as [Hrem1 Hpr].
  split_and!.
  - by apply heap_change_translation_frame.
  - by apply heap_change_translation_frame.
  - by destruct Hwf as (? & ? & _).
  - by destruct Hwf as (? & ? & _).
  - by destruct Hwf' as (? & ? & _).
  - by destruct Hwf' as (? & ? & _).
  - by apply heap_change_translation_view.
  - rewrite !heap_change_translation_view by done.
    rewrite heap_new_set_view, Hnewc, Hpr by done. done.
  - rewrite !heap_change_translation_view by done.
    rewrite heap_new_set_view, Hnewc, Hpa by done. done.
Qed.


(** ** Further properties of the correction store *)

Lemma get_modified_translations_corrections self self' w translations :
  corrections self' w = corrections self w →
  get_modified_translations self' w translations
  = get_modified_translations self w translations.
Proof. intros H. unfold get_modified_translations. by rewrite H. Qed.

(** X1.  After [reset_modifications] of a word, its effective translations
    are its default translations; the effective translations of every other
    word, the level and the qualification are as before; and for a word
    without an entry the state is not changed at all. *)
Theorem reset_modifications_restores_defaults
    (self : VocState) (w : string) (translations : list string) :
  get_modified_translations (reset_modifications self w) w translations
    = list_to_set translations
  ∧ (∀ w' translations', w ≠ w' →
       get_modified_translations (reset_modifications self w) w' translations'
       = get_modified_translations self w' translations')
  ∧ _level (reset_modifications self w) = _level self
  ∧ _is_qualified (reset_modifications self w) = _is_qualified self
  ∧ (_extra_trans self !! w = None → reset_modifications self w = self).
Proof.
  split_and!.
  - unfold get_modified_translations. rewrite corrections_reset_eq. set_solver.
  - intros w' translations' Hne.
    apply get_modified_translations_corrections.
    by apply corrections_reset_ne.
  - apply reset_modifications_level.
  - apply reset_modifications_qualified.
  - intros Hnone. unfold reset_modifications.
    rewrite decide_False; [done|]. by apply not_elem_of_dom.
Qed.

Lemma num_of_modifs_step_comm (z1 z2 : gset string * gset string) (y : nat) :
  (size (z1.1 ∪ z1.2) + (size (z2.1 ∪ z2.2) + y)
   = size (z2.1 ∪ z2.2) + (size (z1.1 ∪ z1.2) + y))%nat.
Proof. lia. Qed.

(** X2.  [num_of_modifs] counts, for every word with an entry, the words in
    its addition set or its removal set: the modifications of one word are
    the part of the count that [reset_modifications] takes away, and when
    the two sets of the word are disjoint that part is the number of
    additions plus the number of removals.  A new state counts 0. *)
Theorem num_of_modifs_reset (self : VocState) (w : string) :
  num_of_modifs VocState_init = 0%nat
  ∧ num_of_modifs self
    = (size (additions self w ∪ removals self w)
       + num_of_modifs (reset_modifications self w))%nat
  ∧ (additions self w ## removals self w →
     size (additions self w ∪ removals self w)
     = (size (additions self w) + size (removals self w))%nat).
Proof.
  split_and!.
  - unfold num_of_modifs. simpl. apply map_fold_empty.
  - unfold num_of_modifs, reset_modifications, additions, removals, corrections.
    destruct (_extra_trans self !! w) as [p|] eqn:E.
    + rewrite decide_True by (apply elem_of_dom; eauto).
      cbn [default _extra_trans set_extra_trans].
      rewrite (map_fold_delete_L _ _ w p (_extra_trans self)); [done| |done].
      intros. apply num_of_modifs_step_comm.
    + rewrite decide_False by (by apply not_elem_of_dom).
      assert (size (∅ ∪ ∅ : gset string) = 0%nat) as Hz
        by (by rewrite (left_id_L ∅ (∪)), size_empty).
      cbn [default fst snd]. by rewrite Hz.
  - intros Hd. by apply size_union.
Qed.

(** ** Further properties of the menu *)

Lemma filter_fmap_key {A V} (f : A → string * V) (l : list A) k :
  filter (λ kv, kv.1 = k) (f <$> l) = f <$> filter (λ a, (f a).1 = k) l.
Proof.
  induction l as [|a l IH]; [done|].
  rewrite fmap_cons, !filter_cons.
  case_decide; [rewrite fmap_cons|]; by rewrite IH.
Qed.

Lemma menu_input_dict options key :
  dict_getitem
    (dict_from_pairs ((λ tup, (opt_input tup, (opt_input tup, opt_value tup)))
                        <$> options)) key
  = menu_entry options key.
Proof.
  rewrite dict_getitem_from_pairs, filter_fmap_key. simpl.
  unfold menu_entry. rewrite fmap_last.
  by destruct (last _).
Qed.

(** The loop of [choose] on lines that are no valid choice, followed by one
    that is. *)
Lemma choose_loop_valid bad : ∀ good rest text options default input_dict w r,
  Forall (λ inp, dict_getitem input_dict (menu_key default inp) = None) bad →
  dict_getitem input_dict (menu_key default good) = Some r →
  choose_loop (bad ++ good :: rest) text options default input_dict w
  = (Return r,
     mkWorld (vstate w) rest
             (stdout w ++ menu_retries text options default bad
                ++ [EvMenu text options])
             (entropy w)).
Proof.
  induction bad as [|inp bad IH];
    intros good rest text options default input_dict w r Hbad Hgood.
  - simpl. fold (menu_key default good). rewrite Hgood. done.
  - apply Forall_cons in Hbad as [Hinp Hbad]. simpl.
    fold (menu_key default inp). rewrite Hinp.
    rewrite (IH good rest text options default input_dict _ r Hbad Hgood).
    simpl. by rewrite <- !app_assoc.
Qed.

(** The loop of [choose] on lines none of which is a valid choice. *)
Lemma choose_loop_invalid bad : ∀ text options default input_dict w,
  stdin w = bad →
  Forall (λ inp, dict_getitem input_dict (menu_key default inp) = None) bad →
  choose_loop bad text options default input_dict w
  = (Raise EOFError,
     mkWorld (vstate w) []
             (stdout w ++ menu_retries text options default bad
                ++ [EvMenu text options])
             (entropy w)).
Proof.
  induction bad as [|inp bad IH];
    intros text options default input_dict w Hin Hbad; simpl.
  - unfold emit. by rewrite Hin.
  - apply Forall_cons in Hbad as [Hinp Hbad].
    fold (menu_key default inp). rewrite Hinp.
    rewrite IH; [|done|done].
    simpl. by rewrite <- !app_assoc.
Qed.

Lemma choose_unfold text options default w :
  negb (truthy default)
  || bool_decide (from_option id "" default ∈ opt_input <$> options) = true →
  choose text options default w
  = choose_loop (stdin w) text options default
      (dict_from_pairs ((λ tup, (opt_input tup, (opt_input tup, opt_value tup)))
                          <$> options)) w.
Proof. intros H. unfold choose. by rewrite H. Qed.

Lemma choose_assert_ok (options : list menuopt) (default : option string) :
  (truthy default = true → from_option id "" default ∈ opt_input <$> options) →
  negb (truthy default)
  || bool_decide (from_option id "" default ∈ opt_input <$> options) = true.
Proof.
  intros H. destruct (truthy default); simpl; [|done].
  apply bool_decide_eq_true. by apply H.
Qed.

Lemma choose_valid_run
    (text : string) (options : list menuopt) (default : option string)
    (w : World) (bad : list string) (good : string) (rest : list string)
    (r : string * option string) :
  (truthy default = true → from_option id "" default ∈ opt_input <$> options) →
  stdin w = bad ++ good :: rest →
  Forall (λ inp, menu_entry options (menu_key default inp) = None) bad →
  menu_entry options (menu_key default good) = Some r →
  choose text options default w
  = (Return r,
     mkWorld (vstate w) rest
             (stdout w ++ menu_retries text options default bad
                ++ [EvMenu text options])
             (entropy w)).
Proof.
  intros Hassert Hin Hbad Hgood.
  rewrite choose_unfold by (by apply choose_assert_ok).
  rewrite Hin. apply choose_loop_valid.
  - eapply Forall_impl; [exact Hbad|]. intros inp Hinp.
    by rewrite menu_input_dict.
  - by rewrite menu_input_dict.
Qed.

(** X3.  [choose] skips the lines that are no valid choice, printing for
    each the menu and the complaint, which names the line stripped, and
    returns the input and the value of the option chosen by the first valid
    line; the lines after it are left unread.  An empty line stands for the
    default when there is one. *)
Theorem choose_first_valid
    (text : string) (options : list menuopt) (default : option string)
    (w : World) (bad : list string) (good : string) (rest : list string)
    (r : string * option string) :
  (truthy default = true → from_option id "" default ∈ opt_input <$> options) →
  stdin w = bad ++ good :: rest →
  Forall (λ inp, menu_entry options (menu_key default inp) = None) bad →
  menu_entry options (menu_key default good) = Some r →
  choose text options default w
  = (Return r,
     mkWorld (vstate w) rest
             (stdout w ++ menu_retries text options default bad
                ++ [EvMenu text options])
             (entropy w)).
Proof. apply choose_valid_run. Qed.

(** X4.  When no line of the input is a valid choice, [choose] reads all of
    it, printing for each line the menu and the complaint, which names the
    line stripped, prints the menu once more and raises EOFError. *)
Theorem choose_no_valid_line
    (text : string) (options : list menuopt) (default : option string)
    (w : World) :
  (truthy default = true → from_option id "" default ∈ opt_input <$> options) →
  Forall (λ inp, menu_entry options (menu_key default inp) = None) (stdin w) →
  choose text options default w
  = (Raise EOFError,
     mkWorld (vstate w) []
             (stdout w ++ menu_retries text options default (stdin w)
                ++ [EvMenu text options])
             (entropy w)).
Proof.
  intros Hassert Hbad.
  rewrite choose_unfold by (by apply choose_assert_ok).
  apply choose_loop_invalid; [done|].
  eapply Forall_impl; [exact Hbad|]. intros inp Hinp.
  by rewrite menu_input_dict.
Qed.

Lemma choose_loop_result lines : ∀ text options default input_dict w,
  match (choose_loop lines text options default input_dict w).1 with
  | Return r => ∃ key, dict_getitem input_dict key = Some r
  | Raise e => e = EOFError
  | Timeout => False
  end.
Proof.
  induction lines as [|inp lines IH];
    intros text options default input_dict w; simpl; [done|].
  destruct (dict_getitem input_dict _) as [r|] eqn:E; simpl; [eauto|].
  apply IH.
Qed.

Lemma menu_entry_offered options key r :
  menu_entry options key = Some r →
  ∃ tup, tup ∈ options ∧ opt_input tup = r.1 ∧ opt_value tup = r.2
         ∧ r.1 = key.
Proof.
  unfold menu_entry. intros Hr.
  destruct (last (filter (λ tup, opt_input tup = key) options))
    as [tup|] eqn:E; [|done].
  injection Hr as <-. apply last_Some_elem_of in E.
  apply list_elem_of_filter in E as [Hk Hin]. exists tup. done.
Qed.

(** X5.  What [choose] returns is the input and the value of one of the
    options it was given, and it has read at least one line for it. *)
Theorem choose_returns_option
    (text : string) (options : list menuopt) (default : option string)
    (w w' : World) (opt : string) (value : option string) :
  choose text options default w = (Return (opt, value), w') →
  (∃ tup, tup ∈ options ∧ opt_input tup = opt ∧ opt_value tup = value)
  ∧ (length (stdin w') < length (stdin w))%nat
  ∧ vstate w' = vstate w.
Proof.
  intros Hrun.
  destruct (choose_spec text options default w) as (Hvs & _ & Hlen).
  rewrite Hrun in Hvs, Hlen. simpl in Hvs, Hlen. split_and!; [|done|done].
  unfold choose in Hrun. destruct (_ || _); [|done].
  match type of Hrun with choose_loop ?l ?t ?o ?d ?i ?w = _ =>
    pose proof (choose_loop_result l t o d i w) as Hres
  end.
  rewrite Hrun in Hres. simpl in Hres. destruct Hres as [key Hkey].
  rewrite menu_input_dict in Hkey.
  destruct (menu_entry_offered _ _ _ Hkey) as (tup & ? & ? & ? & _). eauto.
Qed.

(** X6.  [choose] raises AssertionError exactly when it is given a non-empty
    default that is not the input of any option; it then has neither printed
    nor read anything.  The only other exception it raises is EOFError. *)
Theorem choose_assertion
    (text : string) (options : list menuopt) (default : option string)
    (w : World) :
  ((choose text options default w).1 = Raise AssertionError
   ↔ truthy default = true
     ∧ from_option id "" default ∉ opt_input <$> options)
  ∧ ((choose text options default w).1 = Raise AssertionError →
     (choose text options default w).2 = w)
  ∧ (∀ e, (choose text options default w).1 = Raise e →
          e = AssertionError ∨ e = EOFError).
Proof.
  unfold choose.
  destruct (truthy default) eqn:Ht; simpl.
  - case_bool_decide as Hin; simpl.
    + match goal with |- context [choose_loop ?l ?t ?o ?d ?i ?w] =>
        pose proof (choose_loop_result l t o d i w) as Hres;
        destruct (choose_loop l t o d i w) as [[r|e|] w']
      end; simpl in *; split_and!; try done; try naive_solver.
    + split_and!; try done; naive_solver.
  - match goal with |- context [choose_loop ?l ?t ?o ?d ?i ?w] =>
      pose proof (choose_loop_result l t o d i w) as Hres;
      destruct (choose_loop l t o d i w) as [[r|e|] w']
    end; simpl in *; split_and!; try done; try naive_solver.
Qed.

(** X7.  With a non-empty default that is the input of an option, an empty
    first line chooses that option: [choose] returns the default and the
    value of the last option with that input, having read that one line. *)
Theorem choose_default
    (text : string) (options : list menuopt) (d : string) (w : World)
    (rest : list string) (r : string * option string) :
  d ≠ "" →
  stdin w = "" :: rest →
  menu_entry options d = Some r →
  choose text options (Some d) w
  = (Return r,
     mkWorld (vstate w) rest (stdout w ++ [EvMenu text options]) (entropy w))
  ∧ r.1 = d.
Proof.
  intros Hd Hin Hr.
  assert (truthy (Some d) = true) as Ht.
  { simpl. by rewrite bool_decide_eq_false_2. }
  assert (menu_key (Some d) "" = d) as Hkey.
  { unfold menu_key. by rewrite Ht. }
  destruct (menu_entry_offered _ _ _ Hr) as (tup & Htup & Hi & _ & Hr1).
  split; [|done].
  rewrite (choose_valid_run text options (Some d) w [] "" rest r); try done.
  - intros _. simpl. rewrite <- Hr1, <- Hi. by apply list_elem_of_fmap_2.
  - by rewrite Hkey.
Qed.





(** ** Further properties of the dialogue on a rejected answer *)

(** The decimal numeral of a positive number is none of "0", "a", "r". *)
Lemma pretty_N_go_ne_letter (c : ascii) x s :
  c = "a"%char ∨ c = "r"%char →
  s ≠ String c "" → pretty_N_go x s ≠ String c "".
Proof.
  intros Hc. revert s. induction (N.lt_wf_0 x) as [x _ IH]; intros s ?.
  assert (x = 0 ∨ 0 < x)%N as [->|?] by lia.
  - by rewrite pretty_N_go_0.
  - rewrite pretty_N_go_step by done. apply IH.
    { by apply N.div_lt. }
    unfold pretty_N_char. destruct Hc as [-> | ->]; by repeat case_match.
Qed.

Lemma pretty_N_go_ne_empty x s : s ≠ "" → pretty_N_go x s ≠ "".
Proof.
  revert s. induction (N.lt_wf_0 x) as [x _ IH]; intros s ?.
  assert (x = 0 ∨ 0 < x)%N as [->|?] by lia.
  - by rewrite pretty_N_go_0.
  - rewrite pretty_N_go_step by done. apply IH; [by apply N.div_lt|done].
Qed.

Lemma pretty_S_not_fixed (n : nat) :
  pretty (S n) ≠ "0" ∧ pretty (S n) ≠ "a" ∧ pretty (S n) ≠ "r"
  ∧ pretty (S n) ≠ "".
Proof.
  split_and!; [| | |unfold pretty, pretty_nat, pretty, pretty_N;
                     case_decide; [done|];
                     rewrite pretty_N_go_step by lia;
                     by apply pretty_N_go_ne_empty].
  - change "0" with (pretty 0%nat). intros H. by apply (inj pretty) in H.
  - unfold pretty, pretty_nat, pretty, pretty_N.
    case_decide; [lia|]. apply pretty_N_go_ne_letter; [by left|done].
  - unfold pretty, pretty_nat, pretty, pretty_N.
    case_decide; [lia|]. apply pretty_N_go_ne_letter; [by right|done].
Qed.

Lemma filter_absent {A} (P : A → Prop) `{!∀ x, Decision (P x)} (l : list A) :
  Forall (λ x, ¬ P x) l → filter P l = [].
Proof.
  induction 1 as [|x l Hx Hl IH]; [done|]. by rewrite filter_cons_False.
Qed.

Lemma numbered_options_filter_fixed (f : nat → string → menuopt)
    (words : list string) key :
  (∀ n word, opt_input (f n word) ≠ key) →
  filter (λ tup, opt_input tup = key) (imap f words) = [].
Proof.
  intros Hne. apply filter_absent, Forall_forall. intros tup Htup.
  apply list_elem_of_lookup in Htup as [i Hi].
  rewrite list_lookup_imap in Hi.
  destruct (words !! i) as [word|]; [|done]. injection Hi as <-. apply Hne.
Qed.

Lemma numbered_options_filter (answer : string) (words : list string) :
  ∀ (k i : nat) word,
  words !! i = Some word →
  last (filter (λ tup, opt_input tup = pretty (S (k + i)))
          (imap (λ n word,
                   MenuOpt (pretty (S (k + n))) (Some word)
                           ("Replace '" +:+ word +:+ "' with '" +:+ answer
                              +:+ "'")) words))
  = Some (MenuOpt (pretty (S (k + i))) (Some word)
                  ("Replace '" +:+ word +:+ "' with '" +:+ answer +:+ "'")).
Proof.
  induction words as [|word0 words IH]; intros k i word Hi; [done|].
  rewrite imap_cons, filter_cons. simpl.
  destruct i as [|i]; simpl in Hi.
  - injection Hi as ->. rewrite Nat.add_0_r, decide_True by done.
    rewrite numbered_options_filter_fixed; [done|].
    intros n word' Heq. simpl in Heq. apply (inj pretty) in Heq. lia.
  - rewrite decide_False.
    2:{ intros Heq. apply (inj pretty) in Heq. lia. }
    specialize (IH (S k) i word Hi).
    replace (S k + i)%nat with (k + S i)%nat in IH by lia.
    rewrite <- IH. f_equal. f_equal.
    apply imap_ext. intros n word' _. simpl.
    by replace (k + S n)%nat with (S k + n)%nat by lia.
Qed.

Lemma modify_menu_fixed engword answer (words : list string) :
  menu_entry (modify_menu engword answer words) "0" = Some ("0", None)
  ∧ menu_entry (modify_menu engword answer words) "a" = Some ("a", None)
  ∧ menu_entry (modify_menu engword answer words) "r" = Some ("r", None).
Proof.
  unfold menu_entry, modify_menu. rewrite !filter_app.
  rewrite !numbered_options_filter_fixed, !app_nil_r.
  - split_and!; by vm_compute.
  - intros n word. simpl. by destruct (pretty_S_not_fixed n) as (?&?&?&?).
  - intros n word. simpl. by destruct (pretty_S_not_fixed n) as (?&?&?&?).
  - intros n word. simpl. by destruct (pretty_S_not_fixed n) as (?&?&?&?).
Qed.

Lemma modify_menu_numbered engword answer (words : list string) (i : nat)
    word :
  words !! i = Some word →
  menu_entry (modify_menu engword answer words) (pretty (S i))
  = Some (pretty (S i), Some word).
Proof.
  intros Hi. unfold menu_entry, modify_menu. rewrite filter_app.
  destruct (pretty_S_not_fixed i) as (?&?&?&?).
  rewrite !filter_cons, filter_nil. simpl.
  rewrite !decide_False by done. simpl.
  pose proof (numbered_options_filter answer words 0 i word Hi) as Hlast.
  simpl in Hlast. by rewrite Hlast.
Qed.

Lemma modify_menu_offered engword answer (words : list string) tup :
  tup ∈ modify_menu engword answer words →
  (opt_input tup = "0" ∨ opt_input tup = "a" ∨ opt_input tup = "r")
  ∨ ∃ word, word ∈ words ∧ opt_value tup = Some word.
Proof.
  unfold modify_menu. rewrite elem_of_app. intros [Hin|Hin].
  - left. repeat (apply elem_of_cons in Hin as [->|Hin]; [naive_solver|]).
    by apply elem_of_nil in Hin.
  - right. apply list_elem_of_lookup in Hin as [i Hi].
    rewrite list_lookup_imap in Hi.
    destruct (words !! i) as [word|] eqn:E; [|done].
    injection Hi as <-. exists word. split; [|done].
    by apply list_elem_of_lookup_2 in E.
Qed.

(** [_modify_translation] when the first line is a valid choice. *)
Lemma _modify_translation_run engword answer translations w line rest r :
  stdin w = line :: rest →
  menu_entry (modify_menu engword answer (iter_order w translations))
             (menu_key (Some "0") line) = Some r →
  _modify_translation engword answer translations w
  = (let w1 := mkWorld (vstate w) rest
                       (stdout w
                          ++ [EvMenu modify_text
                                (modify_menu engword answer
                                   (iter_order w translations))])
                       (entropy w) in
     if decide (r.1 = "0") then print EvOkContinuing w1
     else if decide (r.1 = "a") then
       (print (EvOkAdding answer);;
        update_vstate (λ vs, change_translation vs engword {[answer]} ∅)) w1
     else if decide (r.1 = "r") then
       (print (EvOkClearing engword);;
        update_vstate (λ vs, reset_modifications vs engword)) w1
     else
       (print (EvOkReplacing r.2 answer);;
        update_vstate (λ vs, change_translation vs engword {[answer]}
                                                (set_of_value r.2))) w1).
Proof.
  intros Hin Hr. unfold _modify_translation. fold modify_text.
  unfold mbind at 1, M_bind at 1, iterate at 1.
  unfold mbind at 1, M_bind at 1.
  rewrite (choose_valid_run modify_text _ (Some "0") w [] line rest r);
    [|intros _; vm_compute; left|done|done|done].
  simpl. destruct r as [opt replaceword]. simpl. by repeat case_decide.
Qed.

Lemma change_translation_accepts vs engword answer remove defaults :
  answer ∉ remove →
  answer ∈ get_modified_translations
             (change_translation vs engword {[answer]} remove) engword defaults.
Proof.
  intros Hnot. unfold get_modified_translations.
  rewrite corrections_change_eq. set_solver.
Qed.

Lemma change_translation_rejects vs engword add word defaults :
  word ∉ add →
  word ∉ get_modified_translations
             (change_translation vs engword add {[word]}) engword defaults.
Proof.
  intros Hnot. unfold get_modified_translations.
  rewrite corrections_change_eq. set_solver.
Qed.

(** X8.  Choosing "a" adds the answer: the state is changed by
    [change_translation(engword, add={answer})] and by nothing else, and from
    then on the answer is among the effective translations of the word,
    whatever its default translations are. *)
Theorem _modify_translation_add
    (engword answer : string) (translations : gset string) (w : World)
    (rest : list string) :
  stdin w = "a" :: rest →
  ∃ w',
    _modify_translation engword answer translations w = (Return tt, w')
    ∧ vstate w' = change_translation (vstate w) engword {[answer]} ∅
    ∧ stdin w' = rest
    ∧ ∀ defaults,
        answer ∈ get_modified_translations (vstate w') engword defaults.
Proof.
  intros Hin.
  rewrite (_modify_translation_run _ _ _ w "a" rest ("a", None) Hin).
  2:{ apply modify_menu_fixed. }
  simpl. eexists. split; [reflexivity|]. simpl. split_and!; [done|done|].
  intros defaults. apply change_translation_accepts. set_solver.
Qed.

(** X9.  Choosing the number the menu shows for a translation replaces that
    translation by the answer, in whatever order the set is gone through:
    when [word] is number i+1 of this iteration and the answer is not among
    the translations shown, the state is changed by
    [change_translation(engword, add={answer}, remove={word})], and from
    then on the answer is among the effective translations of the word and
    the replaced translation is not. *)
Theorem _modify_translation_replace
    (engword answer : string) (translations : gset string) (w : World)
    (rest : list string) (i : nat) (word : string) :
  stdin w = pretty (S i) :: rest →
  iter_order w translations !! i = Some word →
  answer ∉ translations →
  ∃ w',
    _modify_translation engword answer translations w = (Return tt, w')
    ∧ vstate w' = change_translation (vstate w) engword {[answer]} {[word]}
    ∧ stdin w' = rest
    ∧ ∀ defaults,
        answer ∈ get_modified_translations (vstate w') engword defaults
        ∧ word ∉ get_modified_translations (vstate w') engword defaults.
Proof.
  intros Hin Hi Hanswer.
  assert (word ∈ translations) as Hword.
  { apply elem_of_elements. rewrite <- (iter_order_perm w translations).
    by apply list_elem_of_lookup_2 in Hi. }
  assert (answer ≠ word) as Hne by (by intros ->).
  destruct (pretty_S_not_fixed i) as (H0 & Ha & Hr & He).
  assert (menu_key (Some "0") (pretty (S i)) = pretty (S i)) as Hkey.
  { unfold menu_key. simpl. by rewrite (bool_decide_eq_false_2 _ He). }
  rewrite (_modify_translation_run _ _ _ w (pretty (S i)) rest
             (pretty (S i), Some word) Hin).
  2:{ rewrite Hkey. by apply modify_menu_numbered. }
  simpl. rewrite !decide_False by done.
  eexists. split; [reflexivity|]. simpl. split_and!; [done|done|].
  intros defaults. split.
  - apply change_translation_accepts. set_solver.
  - apply change_translation_rejects. set_solver.
Qed.

(** X10.  An empty line (the default) or "0" changes nothing: the state is
    as it was and only that line was read. *)
Theorem _modify_translation_nothing
    (engword answer : string) (translations : gset string) (w : World)
    (line : string) (rest : list string) :
  line = "" ∨ line = "0" →
  stdin w = line :: rest →
  ∃ w',
    _modify_translation engword answer translations w = (Return tt, w')
    ∧ vstate w' = vstate w
    ∧ stdin w' = rest.
Proof.
  intros Hline Hin.
  rewrite (_modify_translation_run _ _ _ w line rest ("0", None) Hin).
  2:{ assert (menu_key (Some "0") line = "0") as ->
        by (destruct Hline as [-> | ->]; reflexivity).
      apply modify_menu_fixed. }
  simpl. eexists. split; [reflexivity|]. done.
Qed.

(** X11.  Choosing "r" resets the word: the state is changed by
    [reset_modifications(engword)], and the effective translations of the
    word are its default translations again. *)
Theorem _modify_translation_reset
    (engword answer : string) (translations : gset string) (w : World)
    (rest : list string) :
  stdin w = "r" :: rest →
  ∃ w',
    _modify_translation engword answer translations w = (Return tt, w')
    ∧ vstate w' = reset_modifications (vstate w) engword
    ∧ stdin w' = rest
    ∧ ∀ defaults,
        get_modified_translations (vstate w') engword defaults
        = list_to_set defaults.
Proof.
  intros Hin.
  rewrite (_modify_translation_run _ _ _ w "r" rest ("r", None) Hin).
  2:{ apply modify_menu_fixed. }
  simpl. eexists. split; [reflexivity|]. simpl. split_and!; [done|done|].
  intros defaults. unfold get_modified_translations.
  rewrite corrections_reset_eq. set_solver.
Qed.

Lemma choose_result text (options : list menuopt) (default : option string) w :
  (truthy default = true → from_option id "" default ∈ opt_input <$> options) →
  vstate (choose text options default w).2 = vstate w
  ∧ match (choose text options default w).1 with
    | Return r =>
        ∃ tup, tup ∈ options ∧ opt_input tup = r.1 ∧ opt_value tup = r.2
    | Raise e => e = EOFError
    | Timeout => False
    end.
Proof.
  intros Hassert.
  destruct (choose_spec text options default w) as (Hvs & _ & _).
  split; [done|].
  rewrite choose_unfold by (by apply choose_assert_ok).
  match goal with |- context [choose_loop ?l ?t ?o ?d ?i ?w] =>
    pose proof (choose_loop_result l t o d i w) as Hres;
    destruct (choose_loop l t o d i w) as [[r|e|] w']
  end; simpl in *; [|done|done].
  destruct Hres as [key Hkey]. rewrite menu_input_dict in Hkey.
  destruct (menu_entry_offered _ _ _ Hkey) as (tup & ? & ? & ? & _). eauto.
Qed.

Lemma _modify_translation_cases
    (engword answer : string) (translations : gset string) (w : World) :
  let r := _modify_translation engword answer translations w in
  (r.1 = Return tt ∨ r.1 = Raise EOFError)
  ∧ (vstate r.2 = vstate w
     ∨ vstate r.2 = change_translation (vstate w) engword {[answer]} ∅
     ∨ vstate r.2 = reset_modifications (vstate w) engword
     ∨ ∃ word, word ∈ translations
         ∧ vstate r.2
           = change_translation (vstate w) engword {[answer]} {[word]}).
Proof.
  intros r. assert (r = _modify_translation engword answer translations w)
    as Hr by done.
  clearbody r. unfold _modify_translation in Hr. fold modify_text in Hr.
  unfold mbind at 1, M_bind at 1, iterate at 1 in Hr.
  unfold mbind at 1, M_bind at 1 in Hr.
  destruct (choose_result modify_text
              (modify_menu engword answer (iter_order w translations))
              (Some "0") w) as (Hvs & Hres).
  { intros _. vm_compute. left. }
  destruct (choose modify_text _ (Some "0") w) as [[[opt replaceword]|e|] w1];
    simpl in *; [| |done].
  2:{ subst e r. split; [by right|by left]. }
  destruct Hres as (tup & Htup & <- & <-).
  unfold mbind, M_bind, print, update_vstate in Hr.
  repeat case_decide; subst r; simpl; rewrite Hvs;
    [by auto|by auto|by auto 6|].
  split; [by left|]. do 3 right.
  destruct (modify_menu_offered _ _ _ _ Htup) as [Hfixed|(word & Hword & Hval)].
  - naive_solver.
  - exists word. rewrite Hval. split; [|done].
    apply elem_of_elements. by rewrite <- (iter_order_perm w translations).
Qed.

(** X12.  Whatever is typed, [_modify_translation] returns or raises
    EOFError, and the state after it is the state before with exactly one of
    four things done: nothing, the answer added for the word, the word reset,
    or one of the translations shown replaced by the answer. *)
Theorem _modify_translation_outcomes
    (engword answer : string) (translations : gset string) (w : World) :
  let r := _modify_translation engword answer translations w in
  (r.1 = Return tt ∨ r.1 = Raise EOFError)
  ∧ (vstate r.2 = vstate w
     ∨ vstate r.2 = change_translation (vstate w) engword {[answer]} ∅
     ∨ vstate r.2 = reset_modifications (vstate w) engword
     ∨ ∃ word, word ∈ translations
         ∧ vstate r.2
           = change_translation (vstate w) engword {[answer]} {[word]}).
Proof. apply _modify_translation_cases. Qed.





(** ** Further properties of the exam *)

Lemma dict_delitem_keys {V} (d d' : pydict V) k :
  NoDup (dict_keys d) → dict_delitem d k = Some d' →
  NoDup (dict_keys d')
  ∧ (k ∉ dict_keys d')
  ∧ (∀ k', k' ∈ dict_keys d' ↔ k' ∈ dict_keys d ∧ k' ≠ k).
Proof.
  intros Hnd Hdel.
  assert (k ∈ dict_keys d) as Hk.
  { apply dict_getitem_Some_keys. clear Hnd. revert d' Hdel.
    induction d as [|[k0 v0] d IH]; intros d' Hdel; simpl in *; [done|].
    case_decide; [by eauto|].
    destruct (dict_delitem d k) as [d1|]; [|done]. by eapply IH. }
  destruct (dict_delitem_Some d k Hk) as (d1 & Hdel1 & Hperm & _).
  rewrite Hdel in Hdel1. injection Hdel1 as <-.
  rewrite Hperm in Hnd. apply NoDup_cons in Hnd as [Hfresh Hnd].
  split_and!; [done|done|].
  intros k'. rewrite Hperm, elem_of_cons. split.
  - intros Hin. split; [by right|]. by intros ->.
  - intros [[->|Hin] Hne]; done.
Qed.

(** The loop of the exam on any input: it asks words of the dict that are
    all different, so no key is missing. *)
Lemma exam_loop_any testwords : ∀ num vocdict w r,
  r = exam_loop testwords num vocdict w →
  NoDup testwords →
  (∀ k, k ∈ testwords → k ∈ dict_keys vocdict) →
  NoDup (dict_keys vocdict) →
  vstate r.2 = vstate w
  ∧ (∃ evs, stdout r.2 = stdout w ++ evs ∧ Forall round_event evs)
  ∧ match r.1 with
    | Return d =>
        (dict_is_empty d = true → testwords ≡ₚ dict_keys vocdict)
    | Raise e => e = EOFError
    | Timeout => False
    end.
Proof.
  induction testwords as [|engword testwords IH];
    intros num vocdict w r Hr Hnd Hsub Hndk.
  - subst r. simpl. split_and!; [done|exists []; by rewrite app_nil_r|].
    intros Hempty. apply dict_is_empty_keys in Hempty. by rewrite Hempty.
  - apply NoDup_cons in Hnd as [Hfresh Hnd].
    assert (engword ∈ dict_keys vocdict) as Hk by (apply Hsub; left).
    destruct (dict_delitem_Some vocdict engword Hk) as (d1 & Hdel & Hperm & _).
    destruct (dict_delitem_keys vocdict d1 engword Hndk Hdel)
      as (Hnd1 & _ & Hkeys1).
    apply dict_getitem_Some_keys in Hk as [defaults Hdef].
    simpl in Hr. unfold getitem in Hr. rewrite Hdef in Hr.
    unfold mbind at 1, M_bind at 1, mret at 1, M_ret at 1 in Hr.
    unfold mbind at 1, M_bind at 1, get_vstate at 1 in Hr.
    unfold mbind at 1, M_bind at 1, print at 1 in Hr.
    unfold mbind at 1, M_bind at 1, input at 1 in Hr.
    destruct (stdin w) as [|line lines] eqn:Hin; simpl in Hr.
    { rewrite Hin in Hr. subst r. simpl.
      split_and!; [done| |done]. eexists [_]. split; [done|].
      by repeat constructor. }
    rewrite Hin in Hr. simpl in Hr.
    case_bool_decide as Hmatch; simpl in Hr.
    + unfold mbind at 1, M_bind at 1, print at 1 in Hr.
      unfold mbind at 1, M_bind at 1, delitem in Hr. rewrite Hdel in Hr.
      simpl in Hr.
      match type of Hr with r = exam_loop testwords ?n d1 ?w1 =>
        destruct (IH n d1 w1 r Hr) as (Hvs & (evs & Hout & Hevs) & Hres)
      end; [done| |done|].
      { intros k Hk'. apply Hkeys1. split; [apply Hsub; by right|].
        by intros ->. }
      simpl in Hvs, Hout. split_and!; [done| |].
      * eexists (_ :: _ :: evs). split.
        -- rewrite Hout. by rewrite <- !app_assoc.
        -- by repeat constructor.
      * destruct r.1; [|done|done].
        intros Hempty. by rewrite Hperm, (Hres Hempty).
    + subst r. simpl. split_and!; [done| |].
      * eexists [_]. split; [done|]. by repeat constructor.
      * intros Hempty. by destruct vocdict.
Qed.

Lemma round_event_not_passed evs :
  Forall round_event evs → EvExamPassed ∉ evs.
Proof.
  intros Hall Hin. by apply (proj1 (Forall_forall _ _) Hall) in Hin.
Qed.

Lemma _take_exam_cases (voctable : VocTable) (w : World) :
  let r := _take_exam voctable w in
  let evs := printed (_take_exam voctable) w in
  (r.1 = Return tt ∨ r.1 = Raise EOFError)
  ∧ _extra_trans (vstate r.2) = _extra_trans (vstate w)
  ∧ ((EvExamPassed ∈ evs
      ∧ _level (vstate r.2) = _level (vstate w) + 1
      ∧ _is_qualified (vstate r.2) = false)
     ∨ ((EvExamPassed ∉ evs) ∧ vstate r.2 = vstate w)).
Proof.
  intros r evs.
  assert (∃ evs', stdout r.2 = stdout w ++ evs'
            ∧ (r.1 = Return tt ∨ r.1 = Raise EOFError)
            ∧ _extra_trans (vstate r.2) = _extra_trans (vstate w)
            ∧ ((EvExamPassed ∈ evs'
                ∧ _level (vstate r.2) = _level (vstate w) + 1
                ∧ _is_qualified (vstate r.2) = false)
               ∨ ((EvExamPassed ∉ evs') ∧ vstate r.2 = vstate w)))
    as (evs' & Hout & Hres).
  2:{ unfold evs. by rewrite (printed_app _ _ _ Hout). }
  assert (r = _take_exam voctable w) as Hr by done. clearbody r. clear evs.
  rewrite _take_exam_unfold in Hr.
  set (w0 := mkWorld _ _ _ _) in Hr.
  unfold mbind at 1, M_bind at 1 in Hr.
  destruct (exam_loop_any (exam_order voctable w) 0
              (_setup_test (vstate w) voctable) w0 _ eq_refl)
    as (Hvs & (evs1 & Hout1 & Hevs1) & Hres1).
  { eapply (NoDup_Permutation_proper); [apply exam_order_Permutation|].
    apply _setup_test_NoDup. }
  { intros k Hk. by rewrite <- (exam_order_Permutation voctable w). }
  { apply _setup_test_NoDup. }
  pose proof (round_event_not_passed _ Hevs1) as Hnp.
  pose proof (Forall_impl _ _ _ Hevs1 round_event_not_final) as _.
  destruct (exam_loop _ _ _ w0) as [[d|e|] w1]; simpl in *; [| |done].
  - destruct (dict_is_empty d).
    + unfold mbind, M_bind, print, update_vstate, get_vstate, input, mret,
        M_ret in Hr. simpl in Hr.
      destruct (stdin w1) as [|line lines]; subst r; simpl; rewrite Hvs;
        (eexists (exam_heading (vstate w) ++ evs1
                    ++ [EvExamPassed; EvLevelUp (_level (vstate w) + 1);
                        EvPressReturn]);
         split; [rewrite Hout1; by rewrite <- !app_assoc|];
         split_and!; [by auto|done|left; split_and!; [set_solver|done|done]]).
    + unfold print in Hr. subst r. simpl. rewrite Hvs.
      exists (exam_heading (vstate w) ++ evs1 ++ [EvExamFailed]).
      split; [rewrite Hout1; by rewrite <- !app_assoc|].
      split_and!; [by auto|done|right; split; [|done]].
      unfold exam_heading. set_solver.
  - subst r e. simpl. rewrite Hvs.
    exists (exam_heading (vstate w) ++ evs1).
    split; [rewrite Hout1; by rewrite <- !app_assoc|].
    split_and!; [by auto|done|right; split; [|done]].
    unfold exam_heading. set_solver.
Qed.

(** X13.  Whatever is typed, [_take_exam] returns or raises EOFError (no key
    is ever missing), and it never changes the correction store.  Either the
    exam is passed ("You finished the exam with no errors!" is printed), the
    level is one higher and [qualified] is false; or the whole state is as it
    was. *)
Theorem _take_exam_outcomes (voctable : VocTable) (w : World) :
  let r := _take_exam voctable w in
  let evs := printed (_take_exam voctable) w in
  (r.1 = Return tt ∨ r.1 = Raise EOFError)
  ∧ _extra_trans (vstate r.2) = _extra_trans (vstate w)
  ∧ ((EvExamPassed ∈ evs
      ∧ _level (vstate r.2) = _level (vstate w) + 1
      ∧ _is_qualified (vstate r.2) = false)
     ∨ ((EvExamPassed ∉ evs) ∧ vstate r.2 = vstate w)).
Proof. apply _take_exam_cases. Qed.

(** ** Further properties of the drill *)

Lemma _modify_translation_frame engword answer translations w :
  match (_modify_translation engword answer translations w).1 with
  | Return _ => True
  | Raise e => e = EOFError
  | Timeout => False
  end
  ∧ ∀ w', w' ≠ engword →
      corrections (vstate (_modify_translation engword answer translations w).2)
                  w'
      = corrections (vstate w) w'.
Proof.
  destruct (_modify_translation_cases engword answer translations w)
    as [Hres Hvs].
  split.
  - destruct Hres as [-> | ->]; done.
  - intros w' Hne.
    destruct Hvs as [-> |[-> |[-> |(word & _ & ->)]]];
      [done|by apply corrections_change_ne|by apply corrections_reset_ne
      |by apply corrections_change_ne].
Qed.

(** A round on any input: it asks words of the dict that are all different,
    so no key is missing, and it changes the corrections of the words it asks
    only. *)
Lemma train_round_any testwords : ∀ num vocdict w r,
  r = train_round testwords num vocdict w →
  NoDup testwords →
  (∀ k, k ∈ testwords → k ∈ dict_keys vocdict) →
  NoDup (dict_keys vocdict) →
  (∀ w', w' ∉ testwords → corrections (vstate r.2) w' = corrections (vstate w) w')
  ∧ match r.1 with
    | Return d =>
        NoDup (dict_keys d) ∧ ∀ k, k ∈ dict_keys d → k ∈ dict_keys vocdict
    | Raise e => e = EOFError
    | Timeout => False
    end.
Proof.
  induction testwords as [|engword testwords IH];
    intros num vocdict w r Hr Hnd Hsub Hndk.
  - subst r. simpl. done.
  - apply NoDup_cons in Hnd as [Hfresh Hnd].
    assert (engword ∈ dict_keys vocdict) as Hk by (apply Hsub; left).
    destruct (dict_delitem_Some vocdict engword Hk) as (d1 & Hdel & Hperm & _).
    destruct (dict_delitem_keys vocdict d1 engword Hndk Hdel)
      as (Hnd1 & _ & Hkeys1).
    apply dict_getitem_Some_keys in Hk as [defaults Hdef].
    simpl in Hr. unfold getitem in Hr. rewrite Hdef in Hr.
    unfold mbind at 1, M_bind at 1, mret at 1, M_ret at 1 in Hr.
    unfold mbind at 1, M_bind at 1, get_vstate at 1 in Hr.
    unfold mbind at 1, M_bind at 1, print at 1 in Hr.
    unfold mbind at 1, M_bind at 1, input at 1 in Hr.
    destruct (stdin w) as [|line lines] eqn:Hin; simpl in Hr.
    { rewrite Hin in Hr. subst r. simpl. done. }
    rewrite Hin in Hr. simpl in Hr.
    case_bool_decide as Hmatch; simpl in Hr.
    + unfold mbind at 1, M_bind at 1, print at 1 in Hr.
      unfold mbind at 1, M_bind at 1, delitem in Hr. rewrite Hdel in Hr.
      simpl in Hr.
      match type of Hr with r = train_round testwords ?n d1 ?w1 =>
        destruct (IH n d1 w1 r Hr) as (Hcorr & Hres)
      end; [done| |done|].
      { intros k Hk'. apply Hkeys1. split; [apply Hsub; by right|].
        by intros ->. }
      split.
      * intros w' Hw'. apply not_elem_of_cons in Hw' as [_ Hw'].
        by rewrite Hcorr.
      * destruct r.1; [|done|done]. destruct Hres as [? Hsub1].
        split; [done|]. intros k Hk'. by apply Hkeys1, Hsub1.
    + unfold mbind at 1, M_bind at 1, print at 1 in Hr.
      unfold mbind at 1, M_bind at 1 in Hr.
      match type of Hr with context [_modify_translation ?e ?a ?t ?w1] =>
        destruct (_modify_translation_frame e a t w1) as [Hm Hmc];
        destruct (_modify_translation e a t w1) as [[[]|e'|] w2]
      end; simpl in *; [| |done].
      * destruct (IH _ vocdict w2 r Hr) as (Hcorr & Hres); [done| |done|].
        { intros k Hk'. apply Hsub. by right. }
        split; [|done].
        intros w' Hw'. apply not_elem_of_cons in Hw' as [Hne Hw'].
        rewrite Hcorr by done. by apply Hmc.
      * subst r e'. simpl. split; [|done].
        intros w' Hw'. apply not_elem_of_cons in Hw' as [Hne Hw'].
        by apply Hmc.
Qed.

Lemma print_difficult_any engwords : ∀ vocdict w,
  (∀ k, k ∈ engwords → k ∈ dict_keys vocdict) →
  vstate (print_difficult engwords vocdict w).2 = vstate w
  ∧ stdin (print_difficult engwords vocdict w).2 = stdin w
  ∧ (print_difficult engwords vocdict w).1 = Return tt.
Proof.
  induction engwords as [|engword engwords IH]; intros vocdict w Hsub; [done|].
  assert (engword ∈ dict_keys vocdict) as Hk by (apply Hsub; left).
  apply dict_getitem_Some_keys in Hk as [defaults Hdef].
  simpl. unfold getitem. rewrite Hdef.
  unfold mbind, M_bind, mret, M_ret, get_vstate, print. simpl.
  match goal with |- context [print_difficult engwords vocdict ?w1] =>
    destruct (IH vocdict w1) as (Hvs & Hin & Hres)
  end.
  { intros k Hk'. apply Hsub. by right. }
  fold (mbind (M:=M) (A:=unit) (B:=unit)). 
  unfold mbind, M_bind, mret, M_ret, get_vstate, print in *. simpl in *.
  done.
Qed.

Lemma train_loop_any rounds : ∀ vocdict w r,
  r = train_loop rounds vocdict w →
  NoDup (dict_keys vocdict) →
  (∀ w', w' ∉ dict_keys vocdict →
         corrections (vstate r.2) w' = corrections (vstate w) w')
  ∧ match r.1 with
    | Raise e => e = EOFError
    | _ => True
    end.
Proof.
  induction rounds as [|rounds IH]; intros vocdict w r Hr Hndk.
  { subst r. done. }
  simpl in Hr.
  unfold mbind at 1, M_bind at 1, random_shuffle in Hr.
  pose proof (shuffle_draws_Permutation (length (dict_keys vocdict))
                (entropy w) (dict_keys vocdict) eq_refl) as Hperm.
  destruct (shuffle_draws _ _ _) as [testwords draws]. simpl in Hperm.
  unfold mbind at 1, M_bind at 1, print at 1 in Hr.
  unfold mbind at 1, M_bind at 1 in Hr.
  match type of Hr with context [train_round testwords 0 vocdict ?w1] =>
    destruct (train_round_any testwords 0 vocdict w1 _ eq_refl)
      as (Hcorr1 & Hres1);
    [by rewrite Hperm|by intros k; rewrite Hperm|done|];
    destruct (train_round testwords 0 vocdict w1) as [[d|e|] w2]
  end; simpl in *; [| |done].
  2:{ subst r e. simpl. split; [|done].
      intros w' Hw'. apply Hcorr1. by rewrite Hperm. }
  destruct Hres1 as [Hnd Hsub].
  assert (∀ w', w' ∉ dict_keys vocdict →
                corrections (vstate w2) w' = corrections (vstate w) w')
    as Hcorr2.
  { intros w' Hw'. apply Hcorr1. by rewrite Hperm. }
  destruct (dict_is_empty d).
  - unfold mbind, M_bind, print, get_vstate, update_vstate, mret, M_ret in Hr.
    simpl in Hr. destruct (_is_qualified (vstate w2)); simpl in Hr;
      [|case_bool_decide; simpl in Hr]; subst r; simpl; split; try done;
      intros w' Hw'; by apply Hcorr2.
  - unfold mbind at 1, M_bind at 1, print at 1 in Hr.
    unfold mbind at 1, M_bind at 1, print at 1 in Hr.
    unfold mbind at 1, M_bind at 1 in Hr.
    match type of Hr with context [print_difficult ?ks d ?w3] =>
      destruct (print_difficult_any ks d w3) as (Hvs4 & _ & Hres4);
      [done|];
      destruct (print_difficult ks d w3) as [r4 w4]
    end. simpl in Hvs4, Hres4. subst r4.
    unfold mbind at 1, M_bind at 1 in Hr.
    match type of Hr with context [choose ?t ?o None w4] =>
      destruct (choose_result t o None w4) as (Hvs5 & Hres5); [done|];
      destruct (choose t o None w4) as [[choice|e|] w5]
    end; simpl in *; [| |done].
    + case_decide.
      * subst r. simpl. split; [|done]. intros w' Hw'.
        rewrite Hvs5, Hvs4. by apply Hcorr2.
      * unfold mbind at 1, M_bind at 1, _clear_screen, print in Hr.
        destruct (IH d _ r Hr Hnd) as (Hcorr & Hres). split; [|done].
        intros w' Hw'. rewrite Hcorr.
        -- simpl. rewrite Hvs5, Hvs4. by apply Hcorr2.
        -- intros Hin. apply Hw'. by apply Hsub.
    + subst r e. simpl. split; [|done]. intros w' Hw'.
      rewrite Hvs5, Hvs4. by apply Hcorr2.
Qed.

Lemma _train_result (voctable : VocTable) (w : World) :
  (_train voctable w).1 = Return tt
  ∨ (_train voctable w).1 = Raise EOFError.
Proof.
  destruct (_train_spec voctable w) as (_ & _ & Ht & _).
  assert (match (_train voctable w).1 with
          | Raise e => e = EOFError
          | _ => True
          end) as Hres.
  { unfold _train.
    unfold mbind at 1, M_bind at 1, get_vstate.
    unfold mbind at 1, M_bind at 1, _print_banner, print. cbv beta.
    match goal with |- context [train_loop ?n ?d ?w1] =>
      destruct (train_loop_any n d w1 _ eq_refl) as [_ Hres]
    end; [apply _setup_test_NoDup|done]. }
  destruct (_train voctable w).1 as [[]|e|]; [by left|right; by subst|done].
Qed.

(** X14.  Whatever is typed, [_train] returns or raises EOFError: no key is
    ever missing from the dict of the session, no assertion of the menu
    fails, and the rounds end. *)
Theorem _train_raises_only_EOFError (voctable : VocTable) (w : World) :
  (_train voctable w).1 = Return tt
  ∨ (_train voctable w).1 = Raise EOFError.
Proof. apply _train_result. Qed.

(** *** The endings of a drill *)

Lemma correct_answers_app evs evs' :
  correct_answers (evs ++ evs') = (correct_answers evs + correct_answers evs')%nat.
Proof. unfold correct_answers. by rewrite filter_app, length_app. Qed.

Lemma correct_answers_none evs :
  Forall (λ e, is_correct e = false) evs → correct_answers evs = 0%nat.
Proof.
  intros Hall. unfold correct_answers.
  rewrite filter_absent; [done|]. eapply Forall_impl; [exact Hall|].
  intros e He. simpl. by rewrite He.
Qed.

Lemma dialogue_event_not_correct evs :
  Forall dialogue_event evs → correct_answers evs = 0%nat.
Proof.
  intros Hall. apply correct_answers_none.
  eapply Forall_impl; [exact Hall|]. intros e He. by destruct e.
Qed.

Lemma reads_mret {A} (a : A) : reads (mret a).
Proof. intros w. split; [by exists []|done]. Qed.

Lemma reads_raise {A} e : e ≠ EOFError → reads (raise (A:=A) e).
Proof. intros He w. split; [by exists []|]. simpl. congruence. Qed.

Lemma reads_print e : reads (print e).
Proof. intros w. split; [by exists []|done]. Qed.

Lemma reads_input : reads input.
Proof.
  intros w. unfold input. destruct (stdin w) as [|line rest] eqn:E; simpl.
  - rewrite E. split; [by exists []|done].
  - split; [by exists [line]|done].
Qed.

Lemma reads_get_vstate : reads get_vstate.
Proof. intros w. split; [by exists []|done]. Qed.

Lemma reads_update_vstate f : reads (update_vstate f).
Proof. intros w. split; [by exists []|done]. Qed.

Lemma reads_iterate s : reads (iterate s).
Proof. intros w. split; [by exists []|done]. Qed.

Lemma reads_random_shuffle l : reads (random_shuffle l).
Proof.
  intros w. unfold random_shuffle. destruct (shuffle_draws _ _ _).
  split; [by exists []|done].
Qed.

Lemma reads_getitem {V} (d : pydict V) k : reads (getitem d k).
Proof.
  unfold getitem. destruct (dict_getitem d k);
    [apply reads_mret|by apply reads_raise].
Qed.

Lemma reads_delitem {V} (d : pydict V) k : reads (delitem d k).
Proof.
  unfold delitem. destruct (dict_delitem d k);
    [apply reads_mret|by apply reads_raise].
Qed.

Lemma reads_bind {A B} (m : M A) (f : A → M B) :
  reads m → (∀ a, reads (f a)) → reads (m ≫= f).
Proof.
  intros Hm Hf w. unfold mbind, M_bind.
  destruct (Hm w) as [[pre Hpre] Heof].
  destruct (m w) as [[a|e|] w1]; simpl in *;
    [|split; [by exists pre|intros [= ->]; by apply Heof]
     |split; [by exists pre|done]].
  destruct (Hf a w1) as [[pre' Hpre'] Heof'].
  split; [|exact Heof']. exists (pre ++ pre').
  by rewrite Hpre, Hpre', app_assoc.
Qed.

Create HintDb reads.
#[local] Hint Resolve reads_mret reads_print reads_input reads_get_vstate
  reads_update_vstate reads_iterate reads_random_shuffle reads_getitem
  reads_delitem : reads.

Ltac reads_step :=
  first [ simple apply reads_bind; [|intros ?]
        | solve [eauto with reads] ].

Lemma choose_loop_reads lines : ∀ text options default input_dict w,
  stdin w = lines →
  let r := choose_loop lines text options default input_dict w in
  (∃ pre, lines = pre ++ stdin r.2)
  ∧ match r.1 with
    | Return c =>
        ∃ pre line, lines = pre ++ line :: stdin r.2
                    ∧ dict_getitem input_dict (menu_key default line) = Some c
    | Raise _ => stdin r.2 = []
    | Timeout => False
    end.
Proof.
  induction lines as [|inp lines IH];
    intros text options default input_dict w Hin; simpl.
  { rewrite Hin. split; [by exists []|done]. }
  fold (menu_key default inp).
  destruct (dict_getitem input_dict (menu_key default inp)) as [c|] eqn:E;
    simpl.
  - split; [by exists [inp]|]. by exists [], inp.
  - match goal with |- context [choose_loop lines _ _ _ _ ?w1] =>
      destruct (IH text options default input_dict w1 eq_refl)
        as [[pre Hpre] Hres];
      destruct (choose_loop lines text options default input_dict w1)
        as [[c|e|] w2]
    end; simpl in *; [| |done].
    + split; [exists (inp :: pre); by rewrite Hpre at 1|].
      destruct Hres as (pre' & line & Hl & Hc).
      exists (inp :: pre'), line. split; [by rewrite Hl at 1|done].
    + split; [|done]. exists (inp :: pre). by rewrite Hpre at 1.
Qed.

Lemma choose_reads text options default : reads (choose text options default).
Proof.
  intros w. unfold choose. destruct (_ || _).
  - destruct (choose_loop_reads (stdin w) text options default
                (dict_from_pairs
                   ((λ tup, (opt_input tup, (opt_input tup, opt_value tup)))
                      <$> options)) w eq_refl) as [Hpre Hres].
    cbv zeta in *. split; [done|].
    destruct (choose_loop _ _ _ _ _ w) as [[c|e|] w1]; simpl in *; done.
  - split; [by exists []|done].
Qed.

(** The line that made [choose] return is the input of the option it
    returns (no default). *)
Lemma choose_reads_choice text options w c w' :
  choose text options None w = (Return c, w') →
  ∃ pre, stdin w = pre ++ c.1 :: stdin w'.
Proof.
  intros Hc. rewrite choose_unfold in Hc by done.
  match type of Hc with choose_loop _ _ _ _ ?d _ = _ =>
    destruct (choose_loop_reads (stdin w) text options None d w eq_refl)
      as [_ Hres]
  end.
  cbv zeta in Hres. rewrite Hc in Hres. simpl in Hres.
  destruct Hres as (pre & line & Hl & Hkey).
  rewrite menu_input_dict in Hkey.
  apply menu_entry_offered in Hkey as (_ & _ & _ & _ & Hkey).
  exists pre. rewrite Hkey. done.
Qed.

#[local] Hint Resolve choose_reads : reads.

Lemma _modify_translation_reads engword answer translations :
  reads (_modify_translation engword answer translations).
Proof.
  unfold _modify_translation. repeat reads_step.
  destruct a0 as [opt replaceword]. repeat case_decide; repeat reads_step.
Qed.

#[local] Hint Resolve _modify_translation_reads : reads.

Lemma train_round_reads testwords : ∀ num vocdict,
  reads (train_round testwords num vocdict).
Proof.
  induction testwords as [|engword testwords IH]; intros num vocdict; simpl.
  - apply reads_mret.
  - repeat reads_step. destruct (negb _); repeat reads_step.
Qed.

Lemma print_difficult_reads engwords : ∀ vocdict,
  reads (print_difficult engwords vocdict).
Proof.
  induction engwords as [|engword engwords IH]; intros vocdict; simpl.
  - apply reads_mret.
  - repeat reads_step.
Qed.

#[local] Hint Resolve train_round_reads print_difficult_reads : reads.

Lemma train_loop_reads rounds : ∀ vocdict, reads (train_loop rounds vocdict).
Proof.
  induction rounds as [|rounds IH]; intros vocdict; simpl.
  { intros w. split; [by exists []|done]. }
  repeat reads_step.
  destruct (dict_is_empty _); repeat reads_step.
  - destruct (negb _); repeat reads_step.
    case_bool_decide; repeat reads_step.
  - case_decide; unfold _clear_screen; repeat reads_step.
Qed.

Lemma _train_reads voctable : reads (_train voctable).
Proof.
  unfold _train, _print_banner. repeat reads_step.
  intros w. apply train_loop_reads.
Qed.

Lemma no_score_count evs :
  Forall no_score evs → correct_answers evs = 0%nat ∧ (EvKnowAll ∉ evs).
Proof.
  intros Hall. split.
  - apply correct_answers_none. eapply Forall_impl; [exact Hall|].
    by intros e [? ?].
  - intros Hin. by apply (proj1 (Forall_forall _ _) Hall) in Hin as [_ ?].
Qed.

Lemma dialogue_event_no_score e : dialogue_event e → no_score e.
Proof. by destruct e. Qed.

Lemma round_event_not_KnowAll evs : Forall round_event evs → EvKnowAll ∉ evs.
Proof.
  intros Hall Hin. by apply (proj1 (Forall_forall _ _) Hall) in Hin.
Qed.

Lemma dict_delitem_length {V} (d d' : pydict V) k :
  dict_delitem d k = Some d' → length d = S (length d').
Proof.
  revert d'. induction d as [|[k0 v0] d IH]; intros d' Hdel; simpl in *;
    [done|].
  case_decide; [by injection Hdel as <-|].
  destruct (dict_delitem d k) as [d1|] eqn:E; [|done].
  injection Hdel as <-. simpl. f_equal. by apply IH.
Qed.

(** A round of the drill: every "Correct!" takes one word from the dict. *)
Lemma train_round_count testwords : ∀ num vocdict w r,
  r = train_round testwords num vocdict w →
  NoDup testwords →
  (∀ k, k ∈ testwords → k ∈ dict_keys vocdict) →
  NoDup (dict_keys vocdict) →
  ∃ evs,
    stdout r.2 = stdout w ++ evs
    ∧ Forall round_event evs
    ∧ match r.1 with
      | Return d => (length d + correct_answers evs = length vocdict)%nat
      | Raise _ => (correct_answers evs < length vocdict)%nat
      | Timeout => False
      end.
Proof.
  induction testwords as [|engword testwords IH];
    intros num vocdict w r Hr Hnd Hsub Hndk.
  - subst r. simpl. exists []. rewrite app_nil_r.
    split_and!; [done|done|]. unfold correct_answers. simpl. lia.
  - apply NoDup_cons in Hnd as [Hfresh Hnd].
    assert (engword ∈ dict_keys vocdict) as Hk by (apply Hsub; left).
    destruct (dict_delitem_Some vocdict engword Hk) as (d1 & Hdel & Hperm & _).
    destruct (dict_delitem_keys vocdict d1 engword Hndk Hdel)
      as (Hnd1 & _ & Hkeys1).
    pose proof (dict_delitem_length _ _ _ Hdel) as Hlen.
    apply dict_getitem_Some_keys in Hk as [defaults Hdef].
    simpl in Hr. unfold getitem in Hr. rewrite Hdef in Hr.
    unfold mbind at 1, M_bind at 1, mret at 1, M_ret at 1 in Hr.
    unfold mbind at 1, M_bind at 1, get_vstate at 1 in Hr.
    unfold mbind at 1, M_bind at 1, print at 1 in Hr.
    unfold mbind at 1, M_bind at 1, input at 1 in Hr.
    destruct (stdin w) as [|line lines] eqn:Hin; simpl in Hr.
    { rewrite Hin in Hr. subst r. simpl. eexists [_].
      split_and!; [done|by repeat constructor|].
      unfold correct_answers. simpl. lia. }
    rewrite Hin in Hr. simpl in Hr.
    case_bool_decide as Hmatch; simpl in Hr.
    + unfold mbind at 1, M_bind at 1, print at 1 in Hr.
      unfold mbind at 1, M_bind at 1, delitem in Hr. rewrite Hdel in Hr.
      simpl in Hr.
      match type of Hr with r = train_round testwords ?n d1 ?w1 =>
        destruct (IH n d1 w1 r Hr) as (evs & Hout & Hevs & Hres)
      end; [done| |done|].
      { intros k Hk'. apply Hkeys1. split; [apply Hsub; by right|].
        by intros ->. }
      simpl in Hout.
      exists ([EvPrompt (num + 1) engword; EvCorrect] ++ evs).
      split_and!.
      * rewrite Hout. by rewrite <- !app_assoc.
      * by repeat constructor.
      * rewrite correct_answers_app.
        change (correct_answers [EvPrompt (num + 1) engword; EvCorrect])
          with 1%nat.
        destruct r.1; [lia|lia|done].
    + unfold mbind at 1, M_bind at 1, print at 1 in Hr.
      unfold mbind at 1, M_bind at 1 in Hr.
      match type of Hr with context [_modify_translation ?e ?a ?t ?w1] =>
        destruct (_modify_translation_steady e a t w1)
          as (Ht & _ & _ & _ & evsm & Houtm & Hevsm);
        destruct (_modify_translation e a t w1) as [[[]|e'|] w2]
      end; simpl in *; [| |done].
      * destruct (IH _ vocdict w2 r Hr) as (evs & Hout & Hevs & Hres);
          [done| |done|].
        { intros k Hk'. apply Hsub. by right. }
        exists ([EvPrompt (num + 1) engword;
                 EvNotCorrect
                   (get_modified_translations (vstate w) engword defaults)]
                  ++ evsm ++ evs).
        split_and!.
        -- rewrite Hout, Houtm. by rewrite <- !app_assoc.
        -- repeat constructor. apply Forall_app. split; [|done].
           eapply Forall_impl; [exact Hevsm|]. intros e He. by destruct e.
        -- rewrite !correct_answers_app.
           rewrite (dialogue_event_not_correct _ Hevsm).
           match goal with |- context [correct_answers [?a; ?b]] =>
             change (correct_answers [a; b]) with 0%nat
           end.
           destruct r.1; [lia|lia|done].
      * subst r. simpl.
        exists ([EvPrompt (num + 1) engword;
                 EvNotCorrect
                   (get_modified_translations (vstate w) engword defaults)]
                  ++ evsm).
        split_and!.
        -- rewrite Houtm. by rewrite <- !app_assoc.
        -- repeat constructor.
           eapply Forall_impl; [exact Hevsm|]. intros e He. by destruct e.
        -- rewrite !correct_answers_app.
           rewrite (dialogue_event_not_correct _ Hevsm).
           match goal with |- context [correct_answers [?a; ?b]] =>
             change (correct_answers [a; b]) with 0%nat
           end. lia.
Qed.

(** The loop of the drill: "You seem to know all the words!" is printed when
    as many words were answered right as the dict had, and only then; and a
    drill that returns without it was left by the choice "x". *)
Lemma train_loop_ends rounds : ∀ vocdict w r,
  r = train_loop rounds vocdict w →
  (length (stdin w) < rounds)%nat →
  NoDup (dict_keys vocdict) →
  ∃ evs,
    stdout r.2 = stdout w ++ evs
    ∧ (correct_answers evs ≤ length vocdict)%nat
    ∧ (EvKnowAll ∈ evs ↔ correct_answers evs = length vocdict)
    ∧ (EvKnowAll ∉ evs → r.1 = Return tt →
       ∃ pre, stdin w = pre ++ "x" :: stdin r.2).
Proof.
  induction rounds as [|rounds IH]; intros vocdict w r Hr Hlen Hndk; [lia|].
  simpl in Hr.
  unfold mbind at 1, M_bind at 1, random_shuffle in Hr.
  pose proof (shuffle_draws_Permutation (length (dict_keys vocdict))
                (entropy w) (dict_keys vocdict) eq_refl) as Hperm.
  destruct (shuffle_draws _ _ _) as [testwords draws]. simpl in Hperm.
  unfold mbind at 1, M_bind at 1, print at 1 in Hr.
  unfold mbind at 1, M_bind at 1 in Hr.
  set (start := EvRoundStart (length testwords)) in Hr.
  match type of Hr with context [train_round testwords 0 vocdict ?w1] =>
    destruct (train_round_count testwords 0 vocdict w1 _ eq_refl)
      as (evs1 & Hout1 & Hevs1 & Hcount1);
    [by rewrite Hperm|by intros k; rewrite Hperm|done|];
    destruct (train_round_any testwords 0 vocdict w1 _ eq_refl)
      as (_ & Hres1);
    [by rewrite Hperm|by intros k; rewrite Hperm|done|];
    destruct (train_round_reads testwords 0 vocdict w1) as [[pre1 Hpre1] _];
    destruct (train_round testwords 0 vocdict w1) as [[d|e|] w2]
  end; simpl in *; [| |done].
  2:{ subst r. simpl. exists ([start] ++ evs1).
      rewrite !correct_answers_app.
      change (correct_answers [start]) with 0%nat.
      pose proof (round_event_not_KnowAll _ Hevs1) as Hnk.
      split_and!; [rewrite Hout1; by rewrite <- !app_assoc|lia| |done].
      split; [|lia]. intros Hin. apply elem_of_app in Hin as [Hin|Hin]; [|done].
      apply list_elem_of_singleton in Hin. done. }
  destruct Hres1 as [Hnd Hsub].
  pose proof (round_event_not_KnowAll _ Hevs1) as Hnk1.
  destruct (dict_is_empty d) eqn:Hempty.
  - (* the round ends with the dict empty *)
    assert (length d = 0%nat) as Hd by (by destruct d).
    assert (∃ tail, stdout r.2 = stdout w2 ++ EvKnowAll :: tail
                    ∧ Forall (λ e, is_correct e = false) tail)
      as (tail & Hout & Htail).
    { unfold mbind, M_bind, print, get_vstate, update_vstate, mret, M_ret
        in Hr.
      simpl in Hr. destruct (_is_qualified (vstate w2)); simpl in Hr;
        [|case_bool_decide; simpl in Hr]; subst r; simpl.
      - exists []. done.
      - exists [EvNowQualified]. rewrite <- app_assoc. split; [done|].
        by repeat constructor.
      - exists []. done. }
    exists ([start] ++ evs1 ++ EvKnowAll :: tail).
    rewrite !correct_answers_app.
    change (correct_answers [start]) with 0%nat.
    change (EvKnowAll :: tail) with ([EvKnowAll] ++ tail).
    rewrite !correct_answers_app.
    change (correct_answers [EvKnowAll]) with 0%nat.
    rewrite (correct_answers_none _ Htail).
    split_and!.
    + rewrite Hout, Hout1. by rewrite <- !app_assoc.
    + lia.
    + split; [lia|]. intros _. set_solver.
    + intros Hnot. exfalso. apply Hnot. set_solver.
  - (* words are left *)
    assert (0 < length d)%nat as Hd by (destruct d; [done|simpl; lia]).
    unfold mbind at 1, M_bind at 1, print at 1 in Hr.
    unfold mbind at 1, M_bind at 1, print at 1 in Hr.
    unfold mbind at 1, M_bind at 1 in Hr.
    set (score := EvRoundScore _ _) in Hr.
    match type of Hr with context [print_difficult ?ks d ?w3] =>
      destruct (print_difficult_any ks d w3) as (_ & Hin4 & Hres4); [done|];
      assert (steady no_score (print_difficult ks d)) as Hpd
        by (by apply print_difficult_steady);
      destruct (Hpd w3) as (_ & _ & _ & _ & evs4 & Hout4 & Hevs4);
      destruct (print_difficult ks d w3) as [r4 w4]
    end. simpl in Hin4, Hres4, Hout4. subst r4.
    unfold mbind at 1, M_bind at 1 in Hr.
    match type of Hr with context [choose ?t ?o None w4] =>
      destruct (choose_spec t o None w4) as (_ & (evs5 & Hout5 & Hevs5) & Hlen5);
      pose proof (choose_reads_choice t o w4) as Hchoice;
      destruct (choose t o None w4) as [[choice|e|] w5]
    end; simpl in *; [| |done].
    + specialize (Hchoice _ _ eq_refl) as [pre5 Hpre5].
      pose proof (Forall_impl _ _ _ Hevs5 dialogue_event_no_score) as Hns5.
      destruct (no_score_count _ Hevs4) as [Hc4 Hk4].
      destruct (no_score_count _ Hns5) as [Hc5 Hk5].
      case_decide as Hx.
      * subst r. simpl.
        exists ([start] ++ evs1 ++ [score; EvDifficultWords] ++ evs4 ++ evs5).
        rewrite !correct_answers_app, Hc4, Hc5.
        change (correct_answers [start]) with 0%nat.
        change (correct_answers [score; EvDifficultWords]) with 0%nat.
        split_and!.
        -- rewrite Hout5, Hout4, Hout1. by rewrite <- !app_assoc.
        -- lia.
        -- split; [|lia]. intros Hin. exfalso. set_solver.
        -- intros _ _. exists (pre1 ++ pre5).
           rewrite Hpre1, <- Hin4, Hpre5, Hx. by rewrite <- app_assoc.
      * unfold mbind at 1, M_bind at 1, _clear_screen, print in Hr.
        destruct (IH d _ r Hr) as (evs & Hout & Hle & Hiff & Hexit);
          [simpl; rewrite Hpre1, length_app, <- Hin4 in Hlen; lia|done|].
        simpl in Hout, Hexit.
        exists ([start] ++ evs1 ++ [score; EvDifficultWords] ++ evs4 ++ evs5
                  ++ [EvClearScreen] ++ evs).
        rewrite !correct_answers_app, Hc4, Hc5.
        change (correct_answers [start]) with 0%nat.
        change (correct_answers [score; EvDifficultWords]) with 0%nat.
        change (correct_answers [EvClearScreen]) with 0%nat.
        assert (EvKnowAll ∈ [start] ++ evs1 ++ [score; EvDifficultWords]
                            ++ evs4 ++ evs5 ++ [EvClearScreen] ++ evs
                ↔ EvKnowAll ∈ evs) as Hin.
        { rewrite !elem_of_app. set_solver. }
        rewrite Hin. split_and!.
        -- rewrite Hout, Hout5, Hout4, Hout1. by rewrite <- !app_assoc.
        -- lia.
        -- rewrite Hiff. lia.
        -- intros Hnot Hret. destruct (Hexit Hnot Hret) as [pre Hpre].
           exists (pre1 ++ pre5 ++ choice.1 :: pre).
           rewrite Hpre1, <- Hin4, Hpre5, Hpre. by rewrite <- !app_assoc.
    + subst r. simpl.
      pose proof (Forall_impl _ _ _ Hevs5 dialogue_event_no_score) as Hns5.
      destruct (no_score_count _ Hevs4) as [Hc4 Hk4].
      destruct (no_score_count _ Hns5) as [Hc5 Hk5].
      exists ([start] ++ evs1 ++ [score; EvDifficultWords] ++ evs4 ++ evs5).
      rewrite !correct_answers_app, Hc4, Hc5.
      change (correct_answers [start]) with 0%nat.
      change (correct_answers [score; EvDifficultWords]) with 0%nat.
      split_and!.
      * rewrite Hout5, Hout4, Hout1. by rewrite <- !app_assoc.
      * lia.
      * split; [|lia]. intros Hin. exfalso. set_solver.
      * done.
Qed.

Lemma _train_unfold voctable w :
  _train voctable w
  = train_loop (S (length (stdin w))) (_setup_test (vstate w) voctable)
      (emit (EvBanner ("Level " +:+ pretty (_level (vstate w))
                         +:+ " training session") 40) w).
Proof. reflexivity. Qed.

Lemma _train_ends voctable w :
  let r := _train voctable w in
  let evs := printed (_train voctable) w in
  let block := _setup_test (vstate w) voctable in
  (EvKnowAll ∈ evs ↔ correct_answers evs = length block)
  ∧ (EvKnowAll ∉ evs → r.1 = Return tt →
     ∃ pre, stdin w = pre ++ "x" :: stdin r.2)
  ∧ (r.1 = Raise EOFError → stdin r.2 = []).
Proof.
  intros r evs block.
  destruct (_train_reads voctable w) as [_ Heof].
  destruct (train_loop_ends _ _ _ r (_train_unfold voctable w))
    as (evs1 & Hout & _ & Hiff & Hexit);
    [simpl; lia|apply _setup_test_NoDup|].
  simpl in Hout, Hexit. rewrite <- app_assoc in Hout.
  assert (evs = [EvBanner ("Level " +:+ pretty (_level (vstate w))
                             +:+ " training session") 40] ++ evs1) as Hevs
    by (by apply printed_app).
  rewrite Hevs, correct_answers_app.
  match goal with |- context [correct_answers [?b]] =>
    change (correct_answers [b]) with 0%nat
  end.
  split_and!; [|intros Hnot; apply Hexit|exact Heof].
  - fold block in Hiff. rewrite <- Hiff. set_solver.
  - set_solver.
Qed.



(** X15.  A drill changes the corrections of words of its block only: the
    additions and removals of every other word are as before, whatever is
    typed. *)
Theorem _train_corrects_block_only
    (voctable : VocTable) (w : World) (engword : string) :
  engword ∉ dict_keys (_setup_test (vstate w) voctable) →
  corrections (vstate (_train voctable w).2) engword
  = corrections (vstate w) engword.
Proof.
  intros Hout. unfold _train.
  unfold mbind at 1, M_bind at 1, get_vstate.
  unfold mbind at 1, M_bind at 1, _print_banner, print. cbv beta.
  match goal with |- context [train_loop ?n ?d ?w1] =>
    destruct (train_loop_any n d w1 _ eq_refl) as [Hcorr _]
  end; [apply _setup_test_NoDup|].
  by rewrite Hcorr.
Qed.


(** A round in which every answer matches: every word is deleted and the
    dict is empty at the end. *)
Lemma train_round_correct testwords : ∀ num vocdict w answers lines,
  testwords ≡ₚ dict_keys vocdict →
  NoDup (dict_keys vocdict) →
  stdin w = answers ++ lines →
  Forall2 (λ engword line,
             answer_matches (vstate w) vocdict engword line = true)
          testwords answers →
  train_round testwords num vocdict w
  = (Return [],
     mkWorld (vstate w) lines (stdout w ++ exam_transcript num testwords)
             (entropy w)).
Proof.
  induction testwords as [|engword testwords IH];
    intros num vocdict w answers lines Hperm Hnd Hin Hall.
  - apply Forall2_nil_inv_l in Hall as ->. simpl in *.
    apply Permutation_nil_l in Hperm.
    assert (vocdict = []) as -> by (by destruct vocdict).
    rewrite app_nil_r. destruct w; simpl in *; by subst.
  - apply Forall2_cons_inv_l in Hall as (line & answers' & Hok & Hall & ->).
    simpl in Hin.
    assert (NoDup (engword :: testwords)) as Hnd' by (by rewrite Hperm).
    apply NoDup_cons in Hnd' as [Hfresh Hnd'].
    assert (engword ∈ dict_keys vocdict) as Hkey.
    { rewrite <- Hperm. left. }
    destruct (dict_delitem_Some vocdict engword Hkey)
      as (d1 & Hdel & Hperm1 & Hget1).
    unfold answer_matches in Hok.
    destruct (dict_getitem vocdict engword) as [defaults|] eqn:Hdef; [|done].
    simpl. unfold getitem. rewrite Hdef.
    unfold mbind, M_bind, mret, M_ret, get_vstate, print, input. simpl.
    rewrite Hin. rewrite Hok. simpl.
    unfold delitem. rewrite Hdel. simpl.
    fold (mbind (M:=M) (A:=unit) (B:=pydict (list string))).
    rewrite (IH (S num) d1 _ answers' lines).
    + simpl. by rewrite <- !app_assoc.
    + rewrite Hperm1 in Hperm. by apply Permutation_cons_inv in Hperm.
    + rewrite Hperm1 in Hnd. by apply NoDup_cons in Hnd as [_ ?].
    + done.
    + simpl. eapply Forall2_impl_elem; [apply Hall|].
      intros k line' Hk Hm. simpl in Hm. rewrite <- Hm.
      apply answer_matches_getitem, Hget1. by intros ->.
Qed.

(** X16.  When the answers to all the words of the block match in the first
    round, the drill ends after that round: every word is asked once, no
    list of difficult words is printed and no menu is shown, the lines after
    the answers are left unread, [qualified] is true afterwards, and the
    level and the correction store are as before. *)
Theorem _train_all_correct
    (voctable : VocTable) (w : World) (answers lines : list string) :
  stdin w = answers ++ lines →
  Forall2 (λ engword line,
             answer_matches (vstate w) (_setup_test (vstate w) voctable)
                            engword line = true)
          (exam_order voctable w) answers →
  ∃ w',
    _train voctable w = (Return tt, w')
    ∧ _is_qualified (vstate w') = true
    ∧ _level (vstate w') = _level (vstate w)
    ∧ _extra_trans (vstate w') = _extra_trans (vstate w)
    ∧ stdin w' = lines
    ∧ stdout w'
      = stdout w
          ++ [EvBanner ("Level " +:+ pretty (_level (vstate w))
                          +:+ " training session") 40;
              EvRoundStart (length (exam_order voctable w))]
          ++ exam_transcript 0 (exam_order voctable w)
          ++ [EvKnowAll]
          ++ (if negb (_is_qualified (vstate w))
                 && bool_decide (_level (vstate w) < _MAXLEVEL)
              then [EvNowQualified] else []).
Proof.
  intros Hin Hall. unfold _train.
  unfold mbind at 1, M_bind at 1, get_vstate.
  unfold mbind at 1, M_bind at 1, _print_banner, print. cbv beta.
  set (banner := EvBanner _ _).
  cbn [train_loop].
  unfold mbind at 1, M_bind at 1, random_shuffle.
  pose proof (exam_order_Permutation voctable w) as Hperm.
  unfold exam_order in *. cbn [entropy emit].
  destruct (shuffle_draws _ _ _) as [testwords draws]. cbn [fst] in *.
  unfold mbind at 1, M_bind at 1, print at 1.
  unfold mbind at 1, M_bind at 1.
  rewrite (train_round_correct testwords 0 _ _ answers lines);
    [|done|apply _setup_test_NoDup|done|done].
  cbn [dict_is_empty].
  unfold mbind, M_bind, print, get_vstate, update_vstate, mret, M_ret.
  simpl. destruct (_is_qualified (vstate w)) eqn:Hq; simpl;
    [|case_bool_decide; simpl];
    (eexists; split; [reflexivity|]; simpl;
     split_and!; try done; by rewrite <- !app_assoc).
Qed.


(** ** A vocabulary that ends before the level *)

Lemma _setup_test_beyond vs (voctable : VocTable) :
  0 ≤ _level vs → Z.of_nat (length voctable) ≤ 10 * _level vs →
  _setup_test vs voctable = [].
Proof.
  intros Hl Hlen. unfold _setup_test. rewrite _setup_test_slice by done.
  unfold level_entries. rewrite drop_ge by lia. by rewrite take_nil.
Qed.

(** X17.  When the vocabulary has no entry at the indices of the level, the
    block is empty, and then the exam is passed without a question (the level
    goes up by one) and a drill ends at once with all words known
    ([qualified] becomes true), reading no answer. *)
Theorem empty_block (voctable : VocTable) (w : World) :
  0 ≤ _level (vstate w) →
  Z.of_nat (length voctable) ≤ 10 * _level (vstate w) →
  _setup_test (vstate w) voctable = []
  ∧ (∃ w',
       _take_exam voctable w
         = (match stdin w with [] => Raise EOFError | _ => Return tt end, w')
       ∧ _level (vstate w') = _level (vstate w) + 1
       ∧ _is_qualified (vstate w') = false
       ∧ stdout w'
         = stdout w ++ exam_heading (vstate w)
             ++ [EvExamPassed; EvLevelUp (_level (vstate w) + 1);
                 EvPressReturn])
  ∧ (∃ w',
       _train voctable w = (Return tt, w')
       ∧ _is_qualified (vstate w') = true
       ∧ _level (vstate w') = _level (vstate w)
       ∧ stdin w' = stdin w
       ∧ Forall (λ e, ∀ num engword, e ≠ EvPrompt num engword)
                (printed (_train voctable) w)).
Proof.
  intros Hl Hlen.
  pose proof (_setup_test_beyond (vstate w) voctable Hl Hlen) as Hblock.
  split_and!; [done| |].
  - rewrite _take_exam_unfold. unfold exam_order. rewrite Hblock. simpl.
    unfold mbind, M_bind, print, update_vstate, get_vstate, input, mret, M_ret.
    simpl. destruct (stdin w) as [|line lines]; simpl;
      (eexists; split; [reflexivity|]; simpl; split_and!; try done;
       by rewrite <- !app_assoc).
  - unfold printed, _train.
    unfold mbind at 1 2, M_bind at 1 2, get_vstate.
    unfold mbind at 1 2, M_bind at 1 2, _print_banner, print. cbv beta.
    rewrite Hblock. cbn [train_loop dict_keys fmap list_fmap].
    unfold mbind, M_bind, random_shuffle, print, get_vstate, update_vstate,
      mret, M_ret. simpl.
    destruct (_is_qualified (vstate w)) eqn:Hq; simpl;
      [|case_bool_decide; simpl];
      (eexists; split; [reflexivity|]; simpl; split_and!; try done;
       rewrite <- ?app_assoc, drop_app_length; by repeat constructor).
Qed.


(** ** Further properties of the store by reference *)

(** X18.  After every sequence of calls, [get_modified_translations] returns
    a set object that did not exist before, holding what the method by value
    computes from the contents of the store; every object that existed (the
    sets of the store among them) and the store are as they were; and the
    object returned is not one of the store's, so that it can be passed to
    [change_translation]. *)
Theorem get_modified_translations_new_object
    (os : list Heap.op) (st : Heap.state) (w : string)
    (translations : list string) :
  Heap.run_ops Heap.init os = Some st →
  let result := (Heap.get_modified_translations st w translations).1 in
  let st' := (Heap.get_modified_translations st w translations).2 in
  (result ∉ dom (Heap.objs st))
  ∧ Heap.content st' result
    = get_modified_translations (Heap.view st) w translations
  ∧ (∀ l, l ∈ dom (Heap.objs st) → Heap.objs st' !! l = Heap.objs st !! l)
  ∧ Heap.view st' = Heap.view st
  ∧ Heap.client_arg st' (Some result).
Proof.
  intros Hrun. cbv zeta.
  pose proof (heap_run_ops_wf os _ _ heap_init_wf Hrun) as Hwf.
  pose proof Hwf as (_ & _ & Hw2 & _).
  destruct (heap_get_modified_translations st w translations Hwf)
    as (Hnew & Hin & Hcontent & Hkeep & Het & Hlev & Hq).
  split_and!; try done.
  - unfold Heap.view. rewrite Hlev, Hq, Het. f_equal.
    apply map_eq. intros w'. rewrite !lookup_fmap.
    destruct (Heap.extra_trans st !! w') as [p|] eqn:Ew; simpl; [|done].
    destruct (Hw2 w' p Ew) as (?&?&_).
    f_equal. f_equal; apply heap_content_eq; by apply Hkeep.
  - split; [exact Hin|].
    intros (w' & p & Hp & Hl). rewrite Het in Hp.
    destruct (Hw2 w' p Hp) as (?&?&_). destruct Hl as [Hl|Hl];
      rewrite Hl in Hnew; done.
Qed.


Lemma heap_setdefault_stored st w p :
  Heap.extra_trans st !! w = Some p →
  (Heap.setdefault_pair w st).1 = p
  ∧ ∀ l, l ∈ dom (Heap.objs st) →
         Heap.content (Heap.setdefault_pair w st).2 l = Heap.content st l.
Proof.
  intros Hp. destruct (heap_setdefault_pair w st) as (Hkeep & _ & _ & _ & Hcase).
  rewrite Hp in Hcase. destruct Hcase as [-> _]. split; [done|].
  intros l Hl. apply heap_content_eq. by apply Hkeep.
Qed.

(** X19.  The arguments are protected as long as they are not the store's
    own sets.  After every sequence of calls, for a word with a stored pair:
    passing the word's removal set itself as [add] moves its elements to the
    addition set and leaves it empty; passing the word's addition set itself
    as [remove] leaves that set empty and the removal set as it was. *)
Theorem change_translation_aliased
    (os : list Heap.op) (st : Heap.state) (w : string)
    (addset rmset : Heap.loc) :
  Heap.run_ops Heap.init os = Some st →
  Heap.extra_trans st !! w = Some (addset, rmset) →
  (Heap.content (Heap.change_translation st w (Some rmset) None) rmset = ∅
   ∧ Heap.content (Heap.change_translation st w (Some rmset) None) addset
     = Heap.content st addset ∪ Heap.content st rmset)
  ∧ (Heap.content (Heap.change_translation st w None (Some addset)) addset = ∅
     ∧ Heap.content (Heap.change_translation st w None (Some addset)) rmset
       = Heap.content st rmset).
Proof.
  intros Hrun Hp.
  pose proof (heap_run_ops_wf os _ _ heap_init_wf Hrun) as Hwf.
  pose proof Hwf as (_ & _ & Hw2 & _).
  destruct (Hw2 w _ Hp) as (Ha & Hr & Hne & Hada & Hadr & Hrda & Hrdr).
  simpl in *.
  destruct (heap_wf_defaults st Hwf) as (Hda & Hdr & _ & _ & Hca & Hcr).
  destruct (heap_setdefault_stored st w _ Hp) as [Hpair Hkeep].
  rewrite !heap_change_translation_unfold. cbv zeta. rewrite Hpair. simpl.
  unfold Heap.isub, Heap.ior.
  split; split;
    repeat (rewrite !heap_content_store; repeat case_decide; try done);
    rewrite !Hkeep by done; rewrite ?Hca, ?Hcr; set_solver.
Qed.


(** X20.  After every sequence of calls the set objects of the store exist,
    are not the two default objects, and are all different objects: no set
    is shared between the two sets of a word or between two words; and the
    default objects are empty. *)
Theorem store_objects_separate (os : list Heap.op) (st : Heap.state) :
  Heap.run_ops Heap.init os = Some st → Heap.wf st.
Proof. intros Hrun. by apply (heap_run_ops_wf os Heap.init). Qed.


(** ** Reading a vocabulary file *)

Lemma split_on_nonempty sep s : split_on sep s ≠ [].
Proof.
  destruct s as [|c s]; simpl; [done|].
  case_decide; [done|]. by destruct (split_on sep s).
Qed.

Lemma split_on_length sep s :
  length (split_on sep s) = S (count_char sep s).
Proof.
  induction s as [|c s IH]; simpl; [done|].
  case_decide; simpl; [by rewrite IH|].
  pose proof (split_on_nonempty sep s).
  destruct (split_on sep s); [done|]. simpl in *. lia.
Qed.

Lemma split_on_join sep s : join_with sep (split_on sep s) = s.
Proof.
  induction s as [|c s IH]; simpl; [done|].
  pose proof (split_on_nonempty sep s) as Hne.
  case_decide as Hc.
  - subst c. destruct (split_on sep s) as [|f fs] eqn:E; [done|].
    simpl in *. by rewrite IH.
  - destruct (split_on sep s) as [|f fs] eqn:E; [done|].
    destruct fs as [|f' fs]; simpl in *; by rewrite <- IH.
Qed.

Lemma split_on_fields sep s :
  Forall (λ field, count_char sep field = 0%nat) (split_on sep s).
Proof.
  induction s as [|c s IH]; simpl; [by repeat constructor|].
  case_decide as Hc; [by constructor|].
  pose proof (split_on_nonempty sep s) as Hne.
  destruct (split_on sep s) as [|f fs]; [done|].
  apply Forall_cons in IH as [Hf Hfs]. constructor; [|done].
  simpl. by rewrite decide_False.
Qed.

Lemma count_char_lstrip c s : (count_char c (lstrip s) ≤ count_char c s)%nat.
Proof.
  induction s as [|c' s IH]; simpl; [done|].
  destruct (is_space c'); simpl; lia.
Qed.

Lemma count_char_rstrip c s : (count_char c (rstrip s) ≤ count_char c s)%nat.
Proof.
  induction s as [|c' s IH]; simpl; [done|].
  destruct (rstrip s) as [|c'' t] eqn:E.
  - destruct (is_space c'); simpl in *; lia.
  - simpl in *. lia.
Qed.

Lemma count_char_ascii_strip c s :
  (count_char c (ascii_strip s) ≤ count_char c s)%nat.
Proof.
  unfold ascii_strip.
  pose proof (count_char_rstrip c (lstrip s)).
  pose proof (count_char_lstrip c s). lia.
Qed.

Lemma rstrip_idemp s : rstrip (rstrip s) = rstrip s.
Proof.
  induction s as [|c s IH]; simpl; [done|].
  destruct (rstrip s) as [|c' t] eqn:E.
  - destruct (is_space c) eqn:Hc; simpl; [done|]. by rewrite Hc.
  - simpl in *. rewrite IH. done.
Qed.

Lemma lstrip_head s :
  match lstrip s with
  | EmptyString => True
  | String c _ => is_space c = false
  end.
Proof.
  induction s as [|c s IH]; simpl; [done|].
  destruct (is_space c) eqn:Hc; [done|]. simpl. done.
Qed.

Lemma rstrip_head s c t :
  rstrip s = String c t →
  match s with
  | EmptyString => False
  | String c' _ => c' = c
  end.
Proof.
  destruct s as [|c' s]; simpl; [done|].
  destruct (rstrip s); [destruct (is_space c')|]; congruence.
Qed.

Lemma lstrip_rstrip s : lstrip (rstrip (lstrip s)) = rstrip (lstrip s).
Proof.
  pose proof (lstrip_head s) as Hh.
  destruct (rstrip (lstrip s)) as [|c t] eqn:E; [done|].
  apply rstrip_head in E. destruct (lstrip s) as [|c' s']; [done|].
  subst c'. simpl. by rewrite Hh.
Qed.

Lemma ascii_strip_idemp s : ascii_strip (ascii_strip s) = ascii_strip s.
Proof. unfold ascii_strip. by rewrite lstrip_rstrip, rstrip_idemp. Qed.

Lemma split_on_count c sep s :
  Forall (λ field, (count_char c field ≤ count_char c s)%nat) (split_on sep s).
Proof.
  induction s as [|c' s IH]; simpl; [by repeat constructor|].
  pose proof (split_on_nonempty sep s) as Hne.
  destruct (decide (c' = sep)) as [Hs|Hs].
  - constructor; [simpl; lia|].
    eapply Forall_impl; [exact IH|]. intros f Hf. simpl in *. lia.
  - destruct (split_on sep s) as [|f fs]; [done|].
    apply Forall_cons in IH as [Hf Hfs]. constructor.
    + simpl. lia.
    + eapply Forall_impl; [exact Hfs|]. intros f' Hf'. simpl in *. lia.
Qed.

Lemma parse_line_Some line :
  count_char tab line = 2%nat →
  ∃ f0 translations engword,
    split_on tab line = [f0; translations; engword]
    ∧ parse_line line
      = Some (strip engword, strip <$> split_on comma translations).
Proof.
  intros Hc. pose proof (split_on_length tab line) as Hlen. rewrite Hc in Hlen.
  unfold parse_line.
  destruct (split_on tab line) as [|f0 [|t [|e [|? ?]]]]; try done.
  by exists f0, t, e.
Qed.

Lemma parse_line_None line :
  count_char tab line ≠ 2%nat → parse_line line = None.
Proof.
  intros Hc. pose proof (split_on_length tab line) as Hlen.
  unfold parse_line.
  destruct (split_on tab line) as [|f0 [|t [|e [|? ?]]]]; try done.
  simpl in Hlen. lia.
Qed.

Lemma mapM_parse_cons line lines :
  mapM parse_line (line :: lines)
  = match parse_line line with
    | Some entry => cons entry <$> mapM parse_line lines
    | None => None
    end.
Proof.
  simpl. destruct (parse_line line); simpl; [|done].
  by destruct (mapM parse_line lines).
Qed.

Lemma read_voc_lines_mapM lines : ∀ acc,
  read_voc_lines lines acc
  = match mapM parse_line lines with
    | Some voctable => inr (acc ++ voctable)
    | None => inl ValueError
    end.
Proof.
  induction lines as [|line lines IH]; intros acc.
  - simpl. by rewrite app_nil_r.
  - rewrite mapM_parse_cons. cbn [read_voc_lines].
    destruct (decide (count_char tab line = 2%nat)) as [Hc|Hc].
    + destruct (parse_line_Some line Hc) as (f0 & t & e & Hs & ->).
      rewrite Hs, IH.
      destruct (mapM parse_line lines); simpl; [|done].
      by rewrite <- app_assoc.
    + rewrite (parse_line_None line Hc).
      pose proof (split_on_length tab line) as Hlen.
      destruct (split_on tab line) as [|f0 [|t [|e [|? ?]]]]; try done.
      simpl in Hlen. lia.
Qed.

Lemma _read_voc_lines dir voc_file lines :
  dict_getitem dir voc_file = Some (Some lines) →
  _read_voc dir voc_file
  = match mapM parse_line lines with
    | Some voctable => inr voctable
    | None => inl ValueError
    end.
Proof.
  intros Hfile. unfold _read_voc, open_file. rewrite Hfile.
  by rewrite read_voc_lines_mapM.
Qed.

(** X21.  For a regular file, [_read_voc] returns one entry per line, in the
    order of the lines, when every line has exactly two tabs: the entry of
    the line f0 TAB translations TAB engword is the stripped word with the
    stripped pieces of the translations between commas.  When some line has
    another number of tabs (an empty line, too), it raises ValueError. *)
Theorem _read_voc_table
    (dir : list (string * option (list string))) (voc_file : string)
    (lines : list string) :
  dict_getitem dir voc_file = Some (Some lines) →
  (Forall (λ line, count_char tab line = 2%nat) lines →
   ∃ voctable,
     _read_voc dir voc_file = inr voctable
     ∧ length voctable = length lines
     ∧ ∀ i line, lines !! i = Some line →
         ∃ f0 translations engword,
           line = f0 +:+ String tab (translations +:+ String tab engword)
           ∧ count_char tab translations = 0%nat
           ∧ count_char tab engword = 0%nat
           ∧ voctable !! i
             = Some (strip engword, strip <$> split_on comma translations))
  ∧ (¬ Forall (λ line, count_char tab line = 2%nat) lines →
     _read_voc dir voc_file = inl ValueError).
Proof.
  intros Hfile. rewrite (_read_voc_lines dir voc_file lines Hfile). split.
  - intros Hall.
    assert (is_Some (mapM parse_line lines)) as [voctable Hvt].
    { apply mapM_is_Some. eapply Forall_impl; [exact Hall|].
      intros line Hc. simpl.
      destruct (parse_line_Some line Hc) as (?&?&?&_&->). eauto. }
    rewrite Hvt. exists voctable. apply mapM_Some in Hvt.
    split_and!; [done|symmetry; by eapply Forall2_length|].
    intros i line Hi.
    destruct (Forall2_lookup_l _ _ _ _ _ Hvt Hi) as (entry & Hentry & Hparse).
    pose proof (proj1 (Forall_lookup _ _) Hall i line Hi) as Hc. simpl in Hc.
    destruct (parse_line_Some line Hc) as (f0 & t & e & Hsplit & Hp).
    exists f0, t, e.
    pose proof (split_on_join tab line) as Hjoin.
    pose proof (split_on_fields tab line) as Hfields.
    rewrite Hsplit in Hjoin, Hfields. simpl in Hjoin.
    apply Forall_cons in Hfields as [_ Hfields].
    apply Forall_cons in Hfields as [Ht Hfields].
    apply Forall_cons in Hfields as [He _].
    split_and!; [done|done|done|]. rewrite Hentry. f_equal. congruence.
  - intros Hnot.
    destruct (mapM parse_line lines) as [voctable|] eqn:Hvt; [|done].
    exfalso. apply Hnot. apply Forall_forall. intros line Hline.
    destruct (decide (count_char tab line = 2%nat)) as [|Hne]; [done|].
    assert (is_Some (mapM parse_line lines)) as Hsome by eauto.
    apply mapM_is_Some in Hsome.
    apply (proj1 (Forall_forall _ _) Hsome) in Hline. simpl in Hline.
    rewrite parse_line_None in Hline by done. by destruct Hline.
Qed.

(** X22.  [str.strip] gives a part of its argument, and stripping again
    changes nothing.  For a [strip] of which this holds: in a table
    [_read_voc] returns, no word and no translation is changed by stripping
    it or contains a tab, no translation contains a comma, and every word
    has at least one translation (which may be the empty string). *)
Theorem _read_voc_clean
    (dir : list (string * option (list string))) (voc_file : string)
    (voctable : VocTable) :
  (∀ s, strip (strip s) = strip s) →
  (∀ c s, (count_char c (strip s) ≤ count_char c s)%nat) →
  _read_voc dir voc_file = inr voctable →
  Forall (λ entry,
            strip entry.1 = entry.1
            ∧ count_char tab entry.1 = 0%nat
            ∧ entry.2 ≠ []
            ∧ Forall (λ t, strip t = t
                           ∧ count_char comma t = 0%nat
                           ∧ count_char tab t = 0%nat) entry.2)
         voctable.
Proof.
  intros Hidem Hpart.
  assert (∀ c s, count_char c s = 0%nat → count_char c (strip s) = 0%nat)
    as count_char_strip.
  { intros c s Hs. specialize (Hpart c s). lia. }
  unfold _read_voc. destruct (open_file dir voc_file) as [|lines]; [done|].
  rewrite read_voc_lines_mapM.
  destruct (mapM parse_line lines) as [vt|] eqn:Hvt; [|done].
  intros [= <-]. apply mapM_Some in Hvt.
  apply Forall_forall. intros entry Hentry.
  apply list_elem_of_lookup in Hentry as [i Hi].
  destruct (Forall2_lookup_r _ _ _ _ _ Hvt Hi) as (line & _ & Hparse).
  unfold parse_line in Hparse.
  pose proof (split_on_fields tab line) as Hfields.
  destruct (split_on tab line) as [|f0 [|t [|e [|? ?]]]]; try done.
  injection Hparse as <-. simpl.
  apply Forall_cons in Hfields as [_ Hfields].
  apply Forall_cons in Hfields as [Ht Hfields].
  apply Forall_cons in Hfields as [He _].
  split_and!.
  - apply Hidem.
  - by apply count_char_strip.
  - pose proof (split_on_nonempty comma t). by destruct (split_on comma t).
  - apply Forall_fmap, Forall_forall. intros piece Hpiece. simpl.
    split_and!.
    + apply Hidem.
    + apply count_char_strip.
      by apply (proj1 (Forall_forall _ _) (split_on_fields comma t)).
    + apply count_char_strip.
      pose proof (proj1 (Forall_forall _ _) (split_on_count tab comma t)
                        piece Hpiece) as Hle.
      simpl in Hle. lia.
Qed.




(** ** The session *)

(** *** The functions of the terminal read their input forwards *)

Lemma forwards_bind {A B} (m : M A) (f : A → M B) :
  forwards m → (∀ a, forwards (f a)) → forwards (m ≫= f).
Proof.
  intros Hm Hf w. unfold mbind, M_bind. pose proof (Hm w) as H1.
  destruct (m w) as [[a|e|] w1]; simpl in *; [|done|done].
  pose proof (Hf a w1). lia.
Qed.

Lemma steady_forwards P {A} (m : M A) : steady P m → forwards m.
Proof. intros Hm w. by destruct (Hm w) as (_ & _ & _ & ? & _). Qed.

Lemma forwards_mret {A} (a : A) : forwards (mret a).
Proof. by intros w. Qed.

Lemma forwards_print e : forwards (print e).
Proof. by intros w. Qed.

Lemma forwards_update_vstate f : forwards (update_vstate f).
Proof. by intros w. Qed.

Lemma forwards_get_vstate : forwards get_vstate.
Proof. by intros w. Qed.

Lemma forwards_input : forwards input.
Proof. apply (steady_forwards (λ _, True)), steady_input. Qed.

Lemma forwards_random_shuffle l : forwards (random_shuffle l).
Proof. apply (steady_forwards (λ _, True)), steady_random_shuffle. Qed.

Lemma forwards_choose text options default :
  forwards (choose text options default).
Proof. eapply steady_forwards, choose_steady. Qed.

Create HintDb forwards.
#[local] Hint Resolve forwards_mret forwards_print forwards_update_vstate
  forwards_get_vstate forwards_input forwards_random_shuffle
  forwards_choose : forwards.

Ltac forwards_step :=
  first [ simple apply forwards_bind; [|intros ?]
        | solve [eauto with forwards] ].

Lemma exam_loop_forwards testwords : ∀ num vocdict,
  forwards (exam_loop testwords num vocdict).
Proof.
  induction testwords as [|engword testwords IH]; intros num vocdict; simpl.
  - apply forwards_mret.
  - repeat forwards_step.
    + eapply steady_forwards, (steady_getitem (λ _, True)).
    + case_bool_decide; repeat forwards_step.
      eapply steady_forwards, (steady_delitem (λ _, True)).
Qed.

Lemma _take_exam_forwards voctable : forwards (_take_exam voctable).
Proof.
  unfold _take_exam, _clear_screen, _print_banner. repeat forwards_step.
  - apply exam_loop_forwards.
  - destruct (dict_is_empty _); repeat forwards_step.
Qed.

Lemma train_loop_forwards rounds : ∀ vocdict,
  forwards (train_loop rounds vocdict).
Proof.
  induction rounds as [|rounds IH]; intros vocdict; simpl; [by intros w|].
  repeat forwards_step.
  - eapply steady_forwards, train_round_steady.
  - destruct (dict_is_empty _); repeat forwards_step.
    + destruct (negb _); repeat forwards_step.
      case_bool_decide; repeat forwards_step.
    + eapply steady_forwards, (print_difficult_steady (λ _, True)). done.
    + case_decide; unfold _clear_screen; repeat forwards_step.
Qed.

Lemma _train_forwards voctable : forwards (_train voctable).
Proof.
  unfold _train, _print_banner. repeat forwards_step.
  intros w. apply train_loop_forwards.
Qed.

(** *** The progress records of a trainee *)

Lemma progress_ok_init : progress_ok VocState_init.
Proof. split; [by compute|done]. Qed.

Lemma current_voc_state_name ts :
  _current_voc (current_voc_state ts).2 = _current_voc ts.
Proof. unfold current_voc_state. by destruct (dict_getitem _ _). Qed.

Lemma current_voc_state_lookup ts :
  dict_getitem (_voc_states (current_voc_state ts).2) (_current_voc ts)
  = Some (current_voc_state ts).1.
Proof.
  unfold current_voc_state.
  destruct (dict_getitem (_voc_states ts) (_current_voc ts)) eqn:E; simpl;
    [done|].
  rewrite dict_getitem_setitem. by rewrite decide_True.
Qed.

Lemma current_voc_state_found ts vs :
  dict_getitem (_voc_states ts) (_current_voc ts) = Some vs →
  current_voc_state ts = (vs, ts).
Proof. intros H. unfold current_voc_state. by rewrite H. Qed.

Lemma current_voc_state_idem ts :
  current_voc_state (current_voc_state ts).2 = current_voc_state ts.
Proof.
  rewrite (current_voc_state_found (current_voc_state ts).2
             (current_voc_state ts).1).
  - by destruct (current_voc_state ts).
  - rewrite current_voc_state_name. apply current_voc_state_lookup.
Qed.

Lemma current_voc_state_old ts k vs :
  dict_getitem (_voc_states ts) k = Some vs →
  dict_getitem (_voc_states (current_voc_state ts).2) k = Some vs.
Proof.
  unfold current_voc_state.
  destruct (dict_getitem (_voc_states ts) (_current_voc ts)) eqn:E; simpl;
    [done|].
  intros H. rewrite dict_getitem_setitem. case_decide; [congruence|done].
Qed.

Lemma current_voc_state_other ts k :
  k ≠ _current_voc ts →
  dict_getitem (_voc_states (current_voc_state ts).2) k
  = dict_getitem (_voc_states ts) k.
Proof.
  intros Hk. unfold current_voc_state.
  destruct (dict_getitem (_voc_states ts) (_current_voc ts)) eqn:E; simpl;
    [done|].
  rewrite dict_getitem_setitem. by rewrite decide_False.
Qed.

Lemma current_voc_state_ok ts :
  states_ok ts →
  progress_ok (current_voc_state ts).1 ∧ states_ok (current_voc_state ts).2.
Proof.
  intros Hok. unfold current_voc_state.
  destruct (dict_getitem _ _) as [vs|] eqn:E; simpl.
  - split; [by eapply Hok|done].
  - split; [apply progress_ok_init|]. intros k vs. simpl.
    rewrite dict_getitem_setitem. case_decide.
    + intros [= <-]. apply progress_ok_init.
    + apply Hok.
Qed.

Lemma store_current_ok vs ts :
  states_ok ts → progress_ok vs → states_ok (store_current vs ts).
Proof.
  intros Hok Hvs k vs'. simpl. rewrite dict_getitem_setitem.
  case_decide; [by intros [= <-]|apply Hok].
Qed.

Lemma levels_kept_refl ts : levels_kept ts ts.
Proof. intros k vs Hk. exists vs. split; [done|lia]. Qed.

Lemma levels_kept_trans ts1 ts2 ts3 :
  levels_kept ts1 ts2 → levels_kept ts2 ts3 → levels_kept ts1 ts3.
Proof.
  intros H12 H23 k vs Hk. destruct (H12 k vs Hk) as (vs2 & Hk2 & Hl2).
  destruct (H23 k vs2 Hk2) as (vs3 & Hk3 & Hl3). exists vs3. split; [done|lia].
Qed.

Lemma levels_kept_states ts ts' :
  _voc_states ts' = _voc_states ts → levels_kept ts ts'.
Proof. intros H k vs Hk. exists vs. rewrite H. split; [done|lia]. Qed.

Lemma levels_kept_current ts : levels_kept ts (current_voc_state ts).2.
Proof.
  intros k vs Hk. exists vs. split; [by apply current_voc_state_old|lia].
Qed.

Lemma store_current_levels ts vs' :
  _level (current_voc_state ts).1 ≤ _level vs' →
  levels_kept ts (store_current vs' (current_voc_state ts).2).
Proof.
  intros Hl k vs Hk. simpl.
  rewrite current_voc_state_name, dict_getitem_setitem.
  apply current_voc_state_old in Hk. case_decide as Hc.
  - subst k. rewrite current_voc_state_lookup in Hk. injection Hk as <-.
    by exists vs'.
  - exists vs. split; [done|lia].
Qed.

(** *** The functions called from the main menu *)

Lemma schoose_spec text options s :
  let r := schoose text options None s in
  tstate r.2 = tstate s
  ∧ directory r.2 = directory s
  ∧ match r.1 with
    | SReturn c =>
        (∃ tup, tup ∈ options ∧ opt_input tup = c.1 ∧ opt_value tup = c.2)
        ∧ (length (lines_in r.2) < length (lines_in s))%nat
    | SRaise e => e = Inner EOFError
    | STimeout => False
    end.
Proof.
  unfold schoose, call.
  set (w := mkWorld _ _ _ _).
  destruct (choose_spec text options None w) as (_ & _ & Hlen).
  destruct (choose_result text options None w) as [_ Hres]; [done|].
  destruct (choose text options None w) as [[c|e|] w']; simpl in *;
    [done|by subst e|done].
Qed.

Lemma on_current_voc_state_spec (m : M unit) s :
  let cur := current_voc_state (tstate s) in
  let w := mkWorld cur.1 (lines_in s) [] (draws s) in
  let r := on_current_voc_state m s in
  r.1 = of_result (m w).1
  ∧ tstate r.2 = store_current (vstate (m w).2) cur.2
  ∧ directory r.2 = directory s
  ∧ lines_in r.2 = stdin (m w).2
  ∧ transcript r.2 = transcript s ++ (SvInner <$> stdout (m w).2).
Proof.
  unfold on_current_voc_state, call.
  destruct (current_voc_state (tstate s)) as [vs ts]. simpl.
  by destruct (m _) as [r w'].
Qed.

Lemma on_current_train voctable s :
  let r := on_current_voc_state (_train voctable) s in
  directory r.2 = directory s
  ∧ (states_ok (tstate s) →
     _level (current_voc_state (tstate s)).1 ≠ _MAXLEVEL →
     states_ok (tstate r.2))
  ∧ levels_kept (tstate s) (tstate r.2)
  ∧ (length (lines_in r.2) ≤ length (lines_in s))%nat
  ∧ (r.1 = SReturn tt ∨ r.1 = SRaise (Inner EOFError)).
Proof.
  destruct (on_current_voc_state_spec (_train voctable) s)
    as (Hr & Hts & Hdir & Hin & _).
  cbv zeta in *. set (w := mkWorld _ _ _ _) in *.
  destruct (_train_spec voctable w) as (_ & _ & _ & Hl & _).
  pose proof (_train_forwards voctable w) as Hfw.
  pose proof (_train_result voctable w) as Hres.
  simpl in Hl, Hfw. rewrite Hts, Hin, Hr. split_and!; [done| | |done|].
  - intros Hok Hmax. destruct (current_voc_state_ok _ Hok) as [[Hle Hq] Hok'].
    apply store_current_ok; [done|]. split; rewrite Hl; [done|lia].
  - apply store_current_levels. lia.
  - destruct Hres as [-> | ->]; by auto.
Qed.

Lemma on_current_take_exam voctable s :
  let r := on_current_voc_state (_take_exam voctable) s in
  directory r.2 = directory s
  ∧ (states_ok (tstate s) →
     _is_qualified (current_voc_state (tstate s)).1 = true →
     states_ok (tstate r.2))
  ∧ levels_kept (tstate s) (tstate r.2)
  ∧ (length (lines_in r.2) ≤ length (lines_in s))%nat
  ∧ (r.1 = SReturn tt ∨ r.1 = SRaise (Inner EOFError)).
Proof.
  destruct (on_current_voc_state_spec (_take_exam voctable) s)
    as (Hr & Hts & Hdir & Hin & _).
  cbv zeta in *. set (w := mkWorld _ _ _ _) in *.
  destruct (_take_exam_cases voctable w) as (Hres & _ & Hcases).
  pose proof (_take_exam_forwards voctable w) as Hfw.
  simpl in Hcases, Hfw. rewrite Hts, Hin, Hr. split_and!; [done| | |done|].
  - intros Hok Hqual.
    destruct (current_voc_state_ok _ Hok) as [[Hle Hq] Hok'].
    apply store_current_ok; [done|].
    destruct Hcases as [(_ & Hl & Hq')|[_ ->]]; [|done].
    split; [rewrite Hl; specialize (Hq Hqual); lia|by rewrite Hq'].
  - apply store_current_levels.
    destruct Hcases as [(_ & Hl & Hq')|[_ ->]]; simpl; lia.
  - destruct Hres as [-> | ->]; by auto.
Qed.

Lemma endswith_nonempty f suffix :
  suffix ≠ "" → endswith f suffix = true → f ≠ "".
Proof.
  intros Hs. unfold endswith. rewrite andb_true_iff, !bool_decide_eq_true.
  intros [Hlen _] ->. destruct suffix; [done|]. simpl in Hlen. lia.
Qed.

Lemma voc_files_spec dir f :
  f ∈ voc_files dir ↔
  endswith f "_voc.txt" = true ∧ ∃ lines, (f, Some lines) ∈ dir.
Proof.
  unfold voc_files. rewrite list_elem_of_filter, list_elem_of_omap.
  split.
  - intros [He ([f' [lines|]] & Hin & Hf)]; simpl in Hf; [|done].
    injection Hf as ->. eauto.
  - intros [He [lines Hin]]. split; [done|]. by exists (f, Some lines).
Qed.

Lemma switch_menu_spec dir tup :
  tup ∈ switch_menu dir → ∃ f, opt_value tup = Some f ∧ f ∈ voc_files dir.
Proof.
  unfold switch_menu. rewrite elem_of_lookup_imap.
  intros (n & f & -> & Hf). exists f. split; [done|].
  by eapply list_elem_of_lookup_2.
Qed.

Lemma _switch_voc_spec s : ∀ r, r = _switch_voc s →
  directory r.2 = directory s
  ∧ _voc_states (tstate r.2) = _voc_states (tstate s)
  ∧ match r.1 with
    | SReturn changed =>
        (length (lines_in r.2) < length (lines_in s))%nat
        ∧ changed = bool_decide (_current_voc (tstate r.2)
                                 ≠ _current_voc (tstate s))
        ∧ (_current_voc (tstate r.2) = _current_voc (tstate s)
           ∨ _current_voc (tstate r.2) ∈ voc_files (directory s))
    | SRaise e => e = Inner EOFError ∧ tstate r.2 = tstate s
    | STimeout => False
    end.
Proof.
  intros r Hr. unfold _switch_voc in Hr.
  unfold mbind, SM_bind, get_tstate, get_directory in Hr. simpl in Hr.
  assert (∃ s', (if switch_menu (directory s) is []
                 then sprint SvNoVocFile else mret ()) s = (SReturn (), s')
                ∧ tstate s' = tstate s ∧ directory s' = directory s
                ∧ lines_in s' = lines_in s) as (s' & Hs' & Hts & Hdir & Hin).
  { destruct (switch_menu (directory s)); eexists; by split_and!. }
  rewrite Hs' in Hr. clear Hs'.
  match type of Hr with context [schoose ?t ?o None s'] =>
    pose proof (schoose_spec t o s') as (Hts1 & Hdir1 & Hres);
    destruct (schoose t o None s') as [[[choice vocfile]|e|] s1]
  end; simpl in *; subst r; simpl; [| |done].
  - destruct Hres as [(tup & Htup & Hc & Hv) Hlen].
    case_decide as Hq; simpl.
    + rewrite Hdir1, Hdir, Hts1, Hts, <- Hin. split_and!; try done.
      right. apply elem_of_app in Htup as [Htup|Htup].
      * apply switch_menu_spec in Htup as (f & Hf & Hin').
        rewrite <- Hv, Hf. done.
      * apply list_elem_of_singleton in Htup. subst tup. done.
    + rewrite Hdir1, Hdir, Hts1, Hts, <- Hin. split_and!; try done. by left.
  - rewrite Hdir1, Hdir, Hts1, Hts. done.
Qed.

Lemma main_menu_options_spec voctable s :
  ∃ opts s',
    main_menu_options voctable s = (SReturn opts, s')
    ∧ directory s' = directory s
    ∧ lines_in s' = lines_in s
    ∧ tstate s' = (if no_voctable voctable then tstate s
                   else (current_voc_state (tstate s)).2)
    ∧ opt_input <$> opts
      = ["c"; "l"]
        ++ (if no_voctable voctable
               || bool_decide (_level (current_voc_state (tstate s)).1
                               = _MAXLEVEL)
            then []
            else "t" :: (if _is_qualified (current_voc_state (tstate s)).1
                         then ["e"] else [])).
Proof.
  unfold main_menu_options. destruct (no_voctable voctable); simpl.
  { eexists _, _. by split_and!. }
  unfold mbind, SM_bind, get_tstate, get_current_voc_state. simpl.
  case_bool_decide; simpl.
  { eexists _, _. by split_and!. }
  rewrite current_voc_state_idem.
  destruct (_is_qualified _); simpl; eexists _, _; by split_and!.
Qed.

Lemma read_voc_spec s :
  match (read_voc s).1 with
  | SReturn _ => True
  | SRaise e =>
      ∃ re, e = ReadError re
            ∧ _read_voc (directory s) (_current_voc (tstate s)) = inl re
  | STimeout => False
  end
  ∧ (read_voc s).2 = s.
Proof.
  unfold read_voc. destruct (_read_voc _ _) as [re|vt]; simpl; [|done].
  split; [|done]. by exists re.
Qed.

Lemma main_menu_offers voctable ts (opts : list menuopt) tup :
  opt_input <$> opts
  = ["c"; "l"]
    ++ (if no_voctable voctable
           || bool_decide (_level (current_voc_state ts).1 = _MAXLEVEL)
        then []
        else "t" :: (if _is_qualified (current_voc_state ts).1
                     then ["e"] else [])) →
  tup ∈ opts ++ [MenuOpt "q" None "Quit and save"] →
  (opt_input tup = "t" →
   no_voctable voctable = false
   ∧ _level (current_voc_state ts).1 ≠ _MAXLEVEL)
  ∧ (opt_input tup = "e" →
     no_voctable voctable = false
     ∧ _level (current_voc_state ts).1 ≠ _MAXLEVEL
     ∧ _is_qualified (current_voc_state ts).1 = true).
Proof.
  intros Hopts Htup.
  assert (opt_input tup ∈ opt_input <$> opts ++ [MenuOpt "q" None "Quit and save"])
    as Hin by (apply list_elem_of_fmap; eauto).
  rewrite fmap_app, Hopts in Hin. clear Hopts Htup.
  destruct (no_voctable voctable); simpl in Hin.
  { split; intros Heq; rewrite Heq in Hin; set_solver. }
  case_bool_decide; simpl in Hin.
  { split; intros Heq; rewrite Heq in Hin; set_solver. }
  destruct (_is_qualified _); simpl in Hin; [done|].
  split; [done|]. intros Heq; rewrite Heq in Hin; set_solver.
Qed.

Lemma no_voctable_false voctable :
  no_voctable voctable = false → ∃ vt, voctable = Some vt.
Proof. destruct voctable as [vt|]; [eauto|done]. Qed.

Ltac split_spec := split; [|split; [|split]].

Lemma session_turn_spec voctable s : ∀ r,
  r = session_turn voctable s → turn_spec s r.
Proof.
  intros r Hr. unfold session_turn in Hr.
  unfold mbind at 1, SM_bind at 1, sprint at 1 in Hr.
  unfold mbind at 1, SM_bind at 1 in Hr.
  set (s0 := mkSession _ _ _ _ _) in Hr.
  destruct (main_menu_options_spec voctable s0)
    as (opts & s1 & Hmenu & Hdir1 & Hin1 & Hts1 & Hopts).
  rewrite Hmenu in Hr. clear Hmenu. simpl in Hdir1, Hin1, Hts1, Hopts.
  assert ((states_ok (tstate s) → states_ok (tstate s1))
          ∧ levels_kept (tstate s) (tstate s1)) as [Hok1 Hkept1].
  { rewrite Hts1. destruct (no_voctable voctable).
    - split; [done|apply levels_kept_refl].
    - split; [intros Hok; by apply current_voc_state_ok
             |apply levels_kept_current]. }
  unfold mbind at 1, SM_bind at 1 in Hr.
  match type of Hr with context [schoose ?t ?o None s1] =>
    pose proof (schoose_spec t o s1) as (Hts2 & Hdir2 & Hres);
    destruct (schoose t o None s1) as [[choice|e|] s2]
  end; simpl in Hts2, Hdir2, Hres; [| |done].
  2:{ subst r e. unfold turn_spec. simpl. rewrite Hdir2, Hdir1, Hts2.
      split_spec; [done|done|done|by left]. }
  destruct Hres as [(tup & Htup & Hc & _) Hlen].
  destruct (main_menu_offers _ _ _ _ Hopts Htup) as [Ht He].
  rewrite Hc in Ht, He. clear Hopts Htup Hc tup.
  unfold mbind at 1, SM_bind at 1, sprint at 1 in Hr.
  set (s3 := mkSession _ _ _ _ _) in Hr.
  assert (tstate s3 = tstate s1) as Hts3 by done.
  assert (directory s3 = directory s) as Hdir3 by (simpl; congruence).
  assert (length (lines_in s3) < length (lines_in s))%nat as Hlen3
    by (simpl; rewrite <- Hin1; done).
  clearbody s3. clear Hlen Hts2 Hdir2 Hdir1 Hin1 s2 s0.
  rewrite <- Hts3 in Hok1, Hkept1.
  repeat case_decide.
  - (* c *)
    unfold mbind at 1, SM_bind at 1 in Hr.
    destruct (_switch_voc_spec s3 _ eq_refl) as (Hdir4 & Hst4 & Hres4).
    destruct (_switch_voc s3) as [[changed|e|] s4]; simpl in *; [| |done].
    + destruct Hres4 as (Hlen4 & Hch & Hfile).
      assert (states_ok (tstate s) → states_ok (tstate s4)) as Hok4.
      { intros Hok k vs. rewrite Hst4. by apply Hok1. }
      assert (levels_kept (tstate s) (tstate s4)) as Hkept4.
      { eapply levels_kept_trans; [exact Hkept1|].
        by apply levels_kept_states. }
      destruct changed.
      * unfold mbind, SM_bind in Hr.
        destruct (read_voc_spec s4) as [Hrd Hs4].
        destruct (read_voc s4) as [[vt|e|] s5]; simpl in *; [| |done];
          subst s5 r; unfold turn_spec; simpl;
          (split_spec; [congruence|done|done|]).
        -- split; [lia|done].
        -- destruct Hrd as (re & -> & Hre). right. exists re.
           split_and!; [done| |done].
           symmetry in Hch. apply bool_decide_eq_true in Hch.
           destruct Hfile as [?|Hf]; [done|].
           apply voc_files_spec in Hf as [Hend _].
           by apply (endswith_nonempty _ "_voc.txt").
      * subst r. unfold turn_spec. simpl.
        split_spec; [congruence|done|done|]. split; [lia|done].
    + destruct Hres4 as [-> Hts4]. subst r. unfold turn_spec. simpl.
      rewrite Hts4. split_spec; [congruence|done|done|by left].
  - (* q *)
    subst r. unfold turn_spec. simpl.
    split_spec; [done|done|done|]. split; [done|]. intros _. by eexists.
  - (* t *)
    destruct Ht as [Hnv Hmax]; [done|]. rewrite Hnv in Hts1.
    apply no_voctable_false in Hnv as [vt ->]. simpl in Hr.
    unfold mbind, SM_bind in Hr.
    destruct (on_current_train vt s3)
      as (Hdir4 & Hok4 & Hkept4 & Hlen4 & Hres4).
    rewrite Hts3, Hts1, current_voc_state_idem in Hok4.
    rewrite <- Hts1, <- Hts3 in Hok4.
    destruct (on_current_voc_state (_train vt) s3) as [res s4].
    simpl in *. unfold turn_spec.
    destruct Hres4 as [-> | ->]; subst r; simpl;
      (split_spec; [congruence|by auto
                   |by eapply levels_kept_trans|]).
    + split; [lia|done].
    + by left.
  - (* e *)
    destruct He as (Hnv & _ & Hqual); [done|]. rewrite Hnv in Hts1.
    apply no_voctable_false in Hnv as [vt ->]. simpl in Hr.
    unfold mbind, SM_bind in Hr.
    destruct (on_current_take_exam vt s3)
      as (Hdir4 & Hok4 & Hkept4 & Hlen4 & Hres4).
    rewrite Hts3, Hts1, current_voc_state_idem in Hok4.
    rewrite <- Hts1, <- Hts3 in Hok4.
    destruct (on_current_voc_state (_take_exam vt) s3) as [res s4].
    simpl in *. unfold turn_spec.
    destruct Hres4 as [-> | ->]; subst r; simpl;
      (split_spec; [congruence|by auto
                   |by eapply levels_kept_trans|]).
    + split; [lia|done].
    + by left.
  - (* l *)
    subst r. unfold turn_spec. simpl.
    split_spec; [done|done|done|]. split; [done|done].
  - subst r. unfold turn_spec. simpl.
    split_spec; [done|done|done|]. split; [done|done].
Qed.

Lemma session_loop_spec turns : ∀ voctable s r,
  r = session_loop turns voctable s →
  (length (lines_in s) < turns)%nat →
  loop_spec s r.
Proof.
  induction turns as [|turns IH]; intros voctable s r Hr Hlen; [lia|].
  simpl in Hr. unfold mbind, SM_bind in Hr.
  destruct (session_turn_spec voctable s _ eq_refl)
    as (Hdir1 & Hok1 & Hkept1 & Hres1).
  destruct (session_turn voctable s) as [[[again vt]|e|] s1]; simpl in *;
    [| |done].
  - destruct Hres1 as [Hlen1 Hbye]. destruct again.
    + destruct (IH vt s1 _ eq_refl) as (Hdir2 & Hok2 & Hkept2 & Hres2);
        [lia|].
      subst r. unfold loop_spec.
      split_spec; [congruence|by auto|by eapply levels_kept_trans|done].
    + subst r. unfold loop_spec. simpl. split_spec; by auto.
  - subst r. unfold loop_spec. simpl. split_spec; by auto.
Qed.

Lemma run_session_spec s : loop_spec s (run_session s).
Proof.
  unfold run_session, mbind, SM_bind, get_tstate. simpl.
  case_bool_decide as Hvoc; simpl.
  - destruct (read_voc_spec s) as [Hrd Hs].
    destruct (read_voc s) as [[vt|e|] s1]; simpl in *; [| |done]; subst s1.
    + apply (session_loop_spec (S (length (lines_in s))) (Some vt) s _
               eq_refl). lia.
    + destruct Hrd as (re & -> & Hre). unfold loop_spec. simpl.
      split_spec; [done|done|apply levels_kept_refl|].
      right. by exists re.
  - apply (session_loop_spec (S (length (lines_in s))) None s _ eq_refl).
    lia.
Qed.

(** *** What a turn of the main loop changes in the progress records *)

Lemma store_current_records ts v' k vs vs' :
  dict_getitem (_voc_states ts) k = Some vs →
  dict_getitem (_voc_states (store_current v' (current_voc_state ts).2)) k
  = Some vs' →
  vs' ≠ vs →
  k = _current_voc ts ∧ vs = (current_voc_state ts).1 ∧ vs' = v'.
Proof.
  intros Hk Hk' Hne. simpl in Hk'.
  rewrite current_voc_state_name, dict_getitem_setitem in Hk'.
  apply current_voc_state_old in Hk. case_decide as Hc; [|congruence].
  subst k. rewrite current_voc_state_lookup in Hk. split_and!; congruence.
Qed.

Lemma session_turn_records voctable s : ∀ r k vs vs',
  r = session_turn voctable s →
  dict_getitem (_voc_states (tstate s)) k = Some vs →
  dict_getitem (_voc_states (tstate r.2)) k = Some vs' →
  vs' ≠ vs →
  k = _current_voc (tstate s)
  ∧ _level vs ≠ _MAXLEVEL
  ∧ (_level vs' = _level vs
     ∨ (_is_qualified vs = true
        ∧ _level vs' = _level vs + 1
        ∧ _is_qualified vs' = false
        ∧ _extra_trans vs' = _extra_trans vs
        ∧ SvInner EvExamPassed ∈ transcript r.2)).
Proof.
  intros r k vs vs' Hr Hk Hk' Hne. unfold session_turn in Hr.
  unfold mbind at 1, SM_bind at 1, sprint at 1 in Hr.
  unfold mbind at 1, SM_bind at 1 in Hr.
  set (s0 := mkSession _ _ _ _ _) in Hr.
  destruct (main_menu_options_spec voctable s0)
    as (opts & s1 & Hmenu & _ & _ & Hts1 & Hopts).
  rewrite Hmenu in Hr. clear Hmenu. simpl in Hts1, Hopts.
  assert (dict_getitem (_voc_states (tstate s1)) k = Some vs) as Hk1.
  { rewrite Hts1. destruct (no_voctable voctable); [done|].
    by apply current_voc_state_old. }
  unfold mbind at 1, SM_bind at 1 in Hr.
  match type of Hr with context [schoose ?t ?o None s1] =>
    pose proof (schoose_spec t o s1) as (Hts2 & _ & Hres);
    destruct (schoose t o None s1) as [[choice|e|] s2]
  end; simpl in Hts2, Hres; [| |done].
  2:{ subst r. simpl in Hk'. congruence. }
  destruct Hres as [(tup & Htup & Hc & _) _].
  destruct (main_menu_offers _ _ _ _ Hopts Htup) as [Ht He].
  rewrite Hc in Ht, He. clear Hopts Htup Hc tup.
  unfold mbind at 1, SM_bind at 1, sprint at 1 in Hr.
  set (s3 := mkSession _ _ _ _ _) in Hr.
  assert (tstate s3 = tstate s1) as Hts3 by done.
  clearbody s3. clear Hts2 s2 s0. rewrite <- Hts3 in Hk1, Hts1.
  repeat case_decide.
  - (* c *)
    unfold mbind at 1, SM_bind at 1 in Hr.
    destruct (_switch_voc_spec s3 _ eq_refl) as (_ & Hst4 & _).
    destruct (_switch_voc s3) as [[changed|e|] s4]; simpl in *;
      [|subst r; simpl in *; congruence|subst r; simpl in *; congruence].
    destruct changed; [|subst r; simpl in *; congruence].
    unfold mbind, SM_bind in Hr. destruct (read_voc_spec s4) as [_ Hs4].
    destruct (read_voc s4) as [[vt|e|] s5]; simpl in *; subst s5 r;
      simpl in *; congruence.
  - subst r. simpl in *. congruence.
  - (* t *)
    destruct Ht as [Hnv Hmax]; [done|]. rewrite Hnv in Hts1.
    apply no_voctable_false in Hnv as [vt ->]. simpl in Hr.
    unfold mbind, SM_bind in Hr.
    destruct (on_current_voc_state_spec (_train vt) s3)
      as (_ & Hts4 & _). cbv zeta in Hts4.
    set (w := mkWorld _ _ _ _) in Hts4.
    destruct (_train_spec vt w) as (_ & _ & _ & Hl & _).
    assert (tstate r.2 = tstate (on_current_voc_state (_train vt) s3).2)
      as Hr2.
    { subst r. by destruct (on_current_voc_state _ s3) as [[?|?|] ?]. }
    rewrite Hr2, Hts4 in Hk'.
    destruct (store_current_records _ _ _ _ _ Hk1 Hk' Hne)
      as (-> & -> & ->).
    rewrite Hts1, current_voc_state_name, current_voc_state_idem.
    split_and!; [done|done|left]. rewrite Hl. simpl.
    by rewrite Hts1, current_voc_state_idem.
  - (* e *)
    destruct He as (Hnv & Hmax & Hqual); [done|]. rewrite Hnv in Hts1.
    apply no_voctable_false in Hnv as [vt ->]. simpl in Hr.
    unfold mbind, SM_bind in Hr.
    destruct (on_current_voc_state_spec (_take_exam vt) s3)
      as (_ & Hts4 & _ & _ & Hout4). cbv zeta in Hts4, Hout4.
    set (w := mkWorld _ _ _ _) in Hts4, Hout4.
    destruct (_take_exam_cases vt w) as (_ & Hextra & Hcases).
    assert (tstate r.2 = tstate (on_current_voc_state (_take_exam vt) s3).2
            ∧ transcript r.2
              = transcript (on_current_voc_state (_take_exam vt) s3).2)
      as [Hr2 Hr2'].
    { subst r. by destruct (on_current_voc_state _ s3) as [[?|?|] ?]. }
    rewrite Hr2, Hts4 in Hk'.
    destruct (store_current_records _ _ _ _ _ Hk1 Hk' Hne)
      as (-> & -> & ->).
    rewrite Hr2', Hout4.
    rewrite Hts1, current_voc_state_name, current_voc_state_idem.
    assert (vstate w = (current_voc_state (tstate s)).1) as Hw.
    { simpl. by rewrite Hts1, current_voc_state_idem. }
    rewrite Hw in Hextra, Hcases.
    destruct Hcases as [(Hpassed & Hl & Hq)|[_ Hsame]].
    + split_and!; [done|done|right]. split_and!; try done.
      apply elem_of_app. right. apply list_elem_of_fmap.
      exists EvExamPassed. split; [done|]. exact Hpassed.
    + rewrite Hts1, current_voc_state_idem in Hne. done.
  - subst r. simpl in *. congruence.
  - subst r. simpl in *. congruence.
Qed.

(** X23.  [current_voc_state] is a [setdefault]: the record it returns is
    the one stored under the name of the current vocabulary afterwards, so
    asking again returns the same record and changes nothing more; a
    record that was stored before is still stored, as it was; and when the
    current vocabulary had none, the record is a fresh one: level 0, not
    qualified, no corrections. *)
Theorem current_voc_state_stored (ts : TraineeState) :
  dict_getitem (_voc_states (current_voc_state ts).2) (_current_voc ts)
  = Some (current_voc_state ts).1
  ∧ current_voc_state (current_voc_state ts).2 = current_voc_state ts
  ∧ (∀ k vs, dict_getitem (_voc_states ts) k = Some vs →
             dict_getitem (_voc_states (current_voc_state ts).2) k = Some vs)
  ∧ (dict_getitem (_voc_states ts) (_current_voc ts) = None →
     (current_voc_state ts).1 = VocState_init).
Proof.
  split_and!.
  - apply current_voc_state_lookup.
  - apply current_voc_state_idem.
  - intros k vs. apply current_voc_state_old.
  - intros Hnone. unfold current_voc_state. by rewrite Hnone.
Qed.

(** X24.  [_switch_voc] never touches the progress records.  When it
    returns, its result is true exactly when the name of the current
    vocabulary is another one than before (selecting the current file again
    gives false), and then the new name is that of a regular file of the
    directory that ends with "_voc.txt".  It raises nothing but EOFError,
    and then the trainee state is as it was. *)
Theorem _switch_voc_outcomes (s : Session) :
  let r := _switch_voc s in
  _voc_states (tstate r.2) = _voc_states (tstate s)
  ∧ match r.1 with
    | SReturn changed =>
        changed = bool_decide (_current_voc (tstate r.2)
                               ≠ _current_voc (tstate s))
        ∧ (changed = true →
           endswith (_current_voc (tstate r.2)) "_voc.txt" = true
           ∧ ∃ lines,
               (_current_voc (tstate r.2), Some lines) ∈ directory s)
    | SRaise e => e = Inner EOFError ∧ tstate r.2 = tstate s
    | STimeout => False
    end.
Proof.
  intros r. destruct (_switch_voc_spec s r eq_refl) as (_ & Hst & Hres).
  split; [done|]. destruct r.1 as [changed|e|]; [|done|done].
  destruct Hres as (_ & Hch & Hfile). split; [done|].
  intros ->. symmetry in Hch. apply bool_decide_eq_true in Hch.
  destruct Hfile as [?|Hf]; [done|]. by apply voc_files_spec.
Qed.

(** X25.  A turn of the main menu changes a stored progress record only if
    it is the record of the current vocabulary and its level is not
    MAXLEVEL.  Then either the level is as before (a drill), or the user was
    qualified, the exam was passed ("You finished the exam with no
    errors!" is in the transcript), the level is one higher, the user is no
    longer qualified and the corrections are as before. *)
Theorem session_turn_changes
    (voctable : option VocTable) (s : Session) (k : string)
    (vs vs' : VocState) :
  dict_getitem (_voc_states (tstate s)) k = Some vs →
  dict_getitem (_voc_states (tstate (session_turn voctable s).2)) k
  = Some vs' →
  vs' ≠ vs →
  k = _current_voc (tstate s)
  ∧ _level vs ≠ _MAXLEVEL
  ∧ (_level vs' = _level vs
     ∨ (_is_qualified vs = true
        ∧ _level vs' = _level vs + 1
        ∧ _is_qualified vs' = false
        ∧ _extra_trans vs' = _extra_trans vs
        ∧ SvInner EvExamPassed ∈ transcript (session_turn voctable s).2)).
Proof. intros Hk Hk' Hne. by eapply session_turn_records. Qed.

(** X26.  [run_session] keeps the progress records in order: if every
    stored record has a level of at most MAXLEVEL and is qualified only
    below MAXLEVEL, the same holds when the session ends, however it ends
    and whatever was typed. *)
Theorem run_session_keeps_progress (s : Session) :
  states_ok (tstate s) → states_ok (tstate (run_session s).2).
Proof.
  intros Hok. destruct (run_session_spec s) as (_ & H & _). by apply H.
Qed.

(** X27.  [run_session] ends, whatever is typed.  It returns only after
    the user chose "q" (the last line printed is "Ok. See you soon!"), or
    it raises EOFError at the end of the input, or the error of a
    vocabulary file that cannot be read; no key is ever missing, no menu
    is called with a wrong default, and [_train] and [_take_exam] are
    never called without a table. *)
Theorem run_session_outcomes (s : Session) :
  let r := run_session s in
  (r.1 = SReturn tt ∧ ∃ evs, transcript r.2 = evs ++ [SvBye])
  ∨ r.1 = SRaise (Inner EOFError)
  ∨ ∃ re, r.1 = SRaise (ReadError re).
Proof.
  intros r. destruct (run_session_spec s) as (_ & _ & _ & Hres).
  fold r in Hres. destruct r.1 as [[]|e|]; [by left| |done].
  right. destruct Hres as [->|(re & -> & _)]; [by left|right; by eexists].
Qed.

(** X28.  When [run_session] ends with the error of a vocabulary file that
    cannot be read, the name of that file is the current vocabulary of the
    trainee state it leaves: a later session started with that state in
    the same directory raises the same error at once, before anything is
    printed or read. *)
Theorem run_session_unreadable (s s' : Session) (re : read_error) :
  (run_session s).1 = SRaise (ReadError re) →
  tstate s' = tstate (run_session s).2 →
  directory s' = directory s →
  run_session s' = (SRaise (ReadError re), s').
Proof.
  intros Hres Hts Hdir.
  destruct (run_session_spec s) as (Hdir' & _ & _ & Hexc).
  rewrite Hres in Hexc. destruct Hexc as [?|(re' & Hre & Hvoc & Hread)];
    [done|].
  injection Hre as <-. rewrite <- Hts, Hdir', <- Hdir in Hread.
  rewrite <- Hts in Hvoc.
  unfold run_session, mbind, SM_bind, get_tstate, read_voc. simpl.
  rewrite bool_decide_eq_true_2 by done. simpl. by rewrite Hread.
Qed.

(** X29.  [run_session] never drops a progress record and never lowers a
    level: every vocabulary that has a record when the session starts has
    one when it ends, at the same level or a higher one. *)
Theorem run_session_levels_never_drop (s : Session) :
  levels_kept (tstate s) (tstate (run_session s).2).
Proof. by destruct (run_session_spec s) as (_ & _ & H & _). Qed.




End python.

(** ** The examples, run with Python on ASCII strings *)

#[local] Existing Instance ascii_python.

(** C6, as stated, fails: with the same English word twice in the slice of
    level 0 the block is not the list of the entries at [0, 10). *)
Lemma _setup_test_not_the_entries :
  0 ≤ _level VocState_init ≤ _MAXLEVEL
  ∧ level_entries VocState_init voc_light
    = [("light", ["ljus"]); ("dark", ["mork"]); ("light", ["latt"])]
  ∧ _setup_test VocState_init voc_light
    = [("light", ["latt"]); ("dark", ["mork"])]
  ∧ _setup_test VocState_init voc_light ≠ level_entries VocState_init voc_light.
Proof. split_and!; [done|done|reflexivity|reflexivity|discriminate]. Qed.

Lemma _setup_test_block_witness :
  0 ≤ _level (set_level 1 VocState_init) ≤ _MAXLEVEL
  ∧ _setup_test (set_level 1 VocState_init) voc_twelve
    = [("eleven", ["elva"]); ("twelve", ["tolv"])].
Proof.
  assert (0 ≤ _level (set_level 1 VocState_init) ≤ _MAXLEVEL) as Hl
    by (vm_compute; split; discriminate).
  split; [exact Hl|].
  destruct (_setup_test_block (set_level 1 VocState_init) voc_twelve Hl)
    as (_ & _ & Hblock).
  rewrite Hblock; [reflexivity|].
  vm_compute. repeat constructor; set_solver.
Defined.

Lemma _setup_test_duplicate_word_witness :
  length (filter (λ k, k = "light")
                 (dict_keys (_setup_test VocState_init voc_light))) = 1%nat
  ∧ dict_getitem (_setup_test VocState_init voc_light) "light" = Some ["latt"]
  ∧ (length (_setup_test VocState_init voc_light) < 3)%nat.
Proof.
  apply (_setup_test_duplicate_word VocState_init voc_light "light").
  vm_compute. lia.
Defined.

Lemma get_modified_translations_spec_witness :
  get_modified_translations vstate_two "two" ["tva"; "par"] = {["par"; "tvaa"]}
  ∧ ("tva" ∉ get_modified_translations vstate_two "two" ["tva"; "par"])
  ∧ "tvaa" ∈ get_modified_translations vstate_two "two" ["tva"; "par"]
  ∧ get_modified_translations vstate_two "one" ["ett"; "en"] = {["ett"; "en"]}.
Proof.
  destruct (get_modified_translations_spec vstate_two "two" ["tva"; "par"])
    as (Heq & Hrm & Hadd & _).
  destruct (get_modified_translations_spec vstate_two "one" ["ett"; "en"])
    as (_ & _ & _ & Hnone).
  split_and!.
  - rewrite Heq. compute_done.
  - apply Hrm. compute_done.
  - apply Hadd; compute_done.
  - rewrite Hnone; [|reflexivity]. compute_done.
Defined.


Lemma _take_exam_failed_witness :
  ∃ w',
    _take_exam voc_light world_fail = (Return tt, w')
    ∧ vstate w' = set_qualified true VocState_init
    ∧ stdin w' = ["never read"].
Proof.
  destruct (_take_exam_failed voc_light world_fail ["mork"] ["never read"]
                              "light" "ljus")
    as (w' & Hrun & Hvs & Hin & _).
  - reflexivity.
  - reflexivity.
  - repeat constructor.
  - reflexivity.
  - exists w'. split_and!; done.
Defined.


Lemma capital_translation_rejected_witness :
  (EvCorrect ∉ printed (exam_loop ["house"] 0 block_house) world_haus)
  ∧ (EvCorrect ∉ printed (train_round ["house"] 0 block_house) world_haus).
Proof.
  destruct (capital_translation_rejected "Haus" ["0"])
    as (_ & Hexam & Htrain); [reflexivity|].
  split; [exact Hexam|exact Htrain].
Defined.

Lemma change_translation_keeps_arguments_witness :
  Heap.objs (Heap.change_translation heap_example "two" (Some 2%nat) None)
    !! 2%nat = Some {["tvaa"]}
  ∧ Heap.objs (Heap.change_translation heap_example "two" (Some 2%nat) None)
      !! Heap.default_remove = Some ∅.
Proof.
  destruct (change_translation_keeps_arguments
              [Heap.NewSet {["tvaa"]}; Heap.Change "one" None (Some 2%nat)]
              heap_example "two" (Some 2%nat) None)
    as (Ha & _ & _ & _ & _ & Hd & _).
  - reflexivity.
  - split; [compute_done|].
    intros (w & p & Hp & Hl). revert Hp.
    change (Heap.extra_trans heap_example) with
      ({["one" := (3%nat, 4%nat)]} : gmap string (Heap.loc * Heap.loc)).
    intros Hp. apply lookup_singleton_Some in Hp as [_ <-].
    simpl in Hl. destruct Hl; discriminate.
  - exact I.
  - split; [|exact Hd].
    transitivity (Heap.objs heap_example !! 2%nat); [exact Ha|reflexivity].
Defined.

Lemma choose_first_valid_witness :
  choose "Continue?" menu_cx None (set_stdin [" y "; "x"; "later"] world_menu)
  = (Return ("x", None),
     mkWorld VocState_init ["later"]
             [EvMenu "Continue?" menu_cx; EvInvalidChoice "y";
              EvMenu "Continue?" menu_cx] []).
Proof.
  etransitivity.
  - apply (choose_first_valid "Continue?" menu_cx None
             (set_stdin [" y "; "x"; "later"] world_menu) [" y "] "x"
             ["later"] ("x", None)).
    + done.
    + reflexivity.
    + repeat constructor.
    + reflexivity.
  - reflexivity.
Defined.

Lemma choose_no_valid_line_witness :
  choose "Continue?" menu_cx None (set_stdin [" y "; "z"] world_menu)
  = (Raise EOFError,
     mkWorld VocState_init []
             [EvMenu "Continue?" menu_cx; EvInvalidChoice "y";
              EvMenu "Continue?" menu_cx; EvInvalidChoice "z";
              EvMenu "Continue?" menu_cx] []).
Proof.
  etransitivity.
  - apply (choose_no_valid_line "Continue?" menu_cx None
             (set_stdin [" y "; "z"] world_menu)).
    + done.
    + repeat constructor.
  - reflexivity.
Defined.

Lemma choose_returns_option_witness :
  ∃ tup, tup ∈ menu_cx ∧ opt_input tup = "x" ∧ opt_value tup = None.
Proof.
  apply (choose_returns_option "Continue?" menu_cx None world_menu
           (mkWorld VocState_init ["later"]
              [EvMenu "Continue?" menu_cx; EvInvalidChoice "y";
               EvMenu "Continue?" menu_cx] []) "x" None).
  reflexivity.
Defined.

Lemma choose_default_witness :
  choose "Continue?" menu_cx (Some "c") (set_stdin [""; "later"] world_menu)
  = (Return ("c", None),
     mkWorld VocState_init ["later"] [EvMenu "Continue?" menu_cx] []).
Proof.
  apply (choose_default "Continue?" menu_cx "c"
           (set_stdin [""; "later"] world_menu) ["later"] ("c", None)).
  - discriminate.
  - reflexivity.
  - reflexivity.
Defined.

Lemma _modify_translation_add_witness :
  ∃ w',
    _modify_translation "two" "tvaa" {["tva"]}
                        (mkWorld VocState_init ["a"; "later"] [] [])
      = (Return tt, w')
    ∧ stdin w' = ["later"]
    ∧ "tvaa" ∈ get_modified_translations (vstate w') "two" ["tva"].
Proof.
  destruct (_modify_translation_add "two" "tvaa" {["tva"]}
              (mkWorld VocState_init ["a"; "later"] [] []) ["later"] eq_refl)
    as (w' & Hrun & _ & Hin & Hacc).
  exists w'. split_and!; [done|done|apply Hacc].
Defined.

Lemma _modify_translation_replace_witness :
  ∃ w',
    _modify_translation "two" "tvaa" {["tva"]}
                        (mkWorld VocState_init ["1"; "later"] [] [])
      = (Return tt, w')
    ∧ "tvaa" ∈ get_modified_translations (vstate w') "two" ["tva"]
    ∧ ("tva" ∉ get_modified_translations (vstate w') "two" ["tva"]).
Proof.
  destruct (_modify_translation_replace "two" "tvaa" {["tva"]}
              (mkWorld VocState_init ["1"; "later"] [] []) ["later"] 0 "tva")
    as (w' & Hrun & _ & _ & Hacc).
  - reflexivity.
  - reflexivity.
  - compute_done.
  - exists w'. split; [done|]. apply Hacc.
Defined.

Lemma _modify_translation_nothing_witness :
  ∃ w',
    _modify_translation "two" "tvaa" {["tva"]}
                        (mkWorld vstate_two [""; "later"] [] [])
      = (Return tt, w')
    ∧ vstate w' = vstate_two
    ∧ stdin w' = ["later"].
Proof.
  apply (_modify_translation_nothing "two" "tvaa" {["tva"]}
           (mkWorld vstate_two [""; "later"] [] []) "" ["later"]).
  - by left.
  - reflexivity.
Defined.

Lemma _modify_translation_reset_witness :
  ∃ w',
    _modify_translation "two" "par" {["tvaa"]}
                        (mkWorld vstate_two ["r"; "later"] [] [])
      = (Return tt, w')
    ∧ get_modified_translations (vstate w') "two" ["tva"] = {["tva"]}.
Proof.
  destruct (_modify_translation_reset "two" "par" {["tvaa"]}
              (mkWorld vstate_two ["r"; "later"] [] []) ["later"] eq_refl)
    as (w' & Hrun & _ & _ & Hdef).
  exists w'. split; [done|]. rewrite Hdef. compute_done.
Defined.

Lemma _train_corrects_block_only_witness :
  corrections
    (vstate (_train voc_light
               (mkWorld vstate_two ["x"; "a"; "mork"; "x"] [] [])).2) "two"
  = ({["tvaa"]}, {["tva"]}).
Proof.
  rewrite (_train_corrects_block_only voc_light
             (mkWorld vstate_two ["x"; "a"; "mork"; "x"] [] []) "two").
  - compute_done.
  - compute_done.
Defined.

Lemma _train_all_correct_witness :
  ∃ w',
    _train voc_light (mkWorld VocState_init ["MORK"; "latt"; "later"] [] [1%nat])
      = (Return tt, w')
    ∧ _is_qualified (vstate w') = true
    ∧ stdin w' = ["later"].
Proof.
  destruct (_train_all_correct voc_light
              (mkWorld VocState_init ["MORK"; "latt"; "later"] [] [1%nat])
              ["MORK"; "latt"] ["later"])
    as (w' & Hrun & Hq & _ & _ & Hin & _).
  - reflexivity.
  - repeat constructor.
  - exists w'. done.
Defined.

Lemma empty_block_witness :
  _setup_test (set_level 1 VocState_init) voc_light = []
  ∧ ∃ w',
      _take_exam voc_light (mkWorld (set_level 1 VocState_init) [""] [] [])
        = (Return tt, w')
      ∧ _level (vstate w') = 2.
Proof.
  destruct (empty_block voc_light
              (mkWorld (set_level 1 VocState_init) [""] [] []))
    as (Hblock & (w' & Hrun & Hlev & _) & _).
  - done.
  - simpl. lia.
  - split; [exact Hblock|]. exists w'. done.
Defined.

Lemma get_modified_translations_new_object_witness :
  Heap.content (Heap.get_modified_translations heap_example "one" ["ett"]).2
               (Heap.get_modified_translations heap_example "one" ["ett"]).1
  = get_modified_translations (Heap.view heap_example) "one" ["ett"].
Proof.
  apply (get_modified_translations_new_object
           [Heap.NewSet {["tvaa"]}; Heap.Change "one" None (Some 2%nat)]
           heap_example "one" ["ett"]).
  reflexivity.
Defined.

Lemma change_translation_aliased_witness :
  Heap.content (Heap.change_translation heap_example "one" (Some 4%nat) None)
               4%nat = ∅.
Proof.
  apply (change_translation_aliased
           [Heap.NewSet {["tvaa"]}; Heap.Change "one" None (Some 2%nat)]
           heap_example "one" 3%nat 4%nat); reflexivity.
Defined.

Lemma store_objects_separate_witness : Heap.wf heap_example.
Proof.
  apply (store_objects_separate
           [Heap.NewSet {["tvaa"]}; Heap.Change "one" None (Some 2%nat)]).
  reflexivity.
Defined.

Lemma _read_voc_table_witness :
  _read_voc voc_dir "tal_voc.txt"
  = inr [("one", ["ett"; "en"]); ("two", ["tva"])].
Proof.
  destruct (_read_voc_table voc_dir "tal_voc.txt" voc_file_lines eq_refl)
    as [Hok _].
  destruct Hok as (voctable & Hread & _).
  - repeat constructor.
  - rewrite Hread. f_equal.
    assert (_read_voc voc_dir "tal_voc.txt"
            = inr [("one", ["ett"; "en"]); ("two", ["tva"])]) as Heq
      by reflexivity.
    rewrite Hread in Heq. by injection Heq.
Defined.

Lemma _read_voc_clean_witness :
  Forall (λ entry : string * list string, entry.2 ≠ [])
         [("one", ["ett"; "en"]); ("two", ["tva"])].
Proof.
  eapply Forall_impl.
  - apply (_read_voc_clean voc_dir "tal_voc.txt").
    + apply ascii_strip_idemp.
    + apply count_char_ascii_strip.
    + reflexivity.
  - intros entry (_ & _ & Hne & _). exact Hne.
Defined.

Lemma session_turn_changes_witness :
  "tal_voc.txt" = _current_voc (tstate session_tal)
  ∧ _level (set_qualified true VocState_init) ≠ _MAXLEVEL
  ∧ (_level (set_level 1 VocState_init)
     = _level (set_qualified true VocState_init)
     ∨ (_is_qualified (set_qualified true VocState_init) = true
        ∧ _level (set_level 1 VocState_init)
          = _level (set_qualified true VocState_init) + 1
        ∧ _is_qualified (set_level 1 VocState_init) = false
        ∧ _extra_trans (set_level 1 VocState_init)
          = _extra_trans (set_qualified true VocState_init)
        ∧ SvInner EvExamPassed
          ∈ transcript
              (session_turn (Some [("one", ["ett"; "en"]); ("two", ["tva"])])
                            session_tal).2)).
Proof.
  apply (session_turn_changes
           (Some [("one", ["ett"; "en"]); ("two", ["tva"])]) session_tal
           "tal_voc.txt" (set_qualified true VocState_init)
           (set_level 1 VocState_init)).
  - reflexivity.
  - reflexivity.
  - discriminate.
Defined.

Lemma run_session_keeps_progress_witness :
  states_ok (tstate session_tal)
  ∧ states_ok (tstate (run_session session_tal).2).
Proof.
  assert (states_ok (tstate session_tal)) as Hok.
  { intros k vs. simpl. case_decide; [|done]. intros [= <-]. split.
    - discriminate.
    - reflexivity. }
  split; [exact Hok|]. apply (run_session_keeps_progress session_tal Hok).
Defined.

Lemma run_session_unreadable_witness :
  (run_session session_bad).1 = SRaise (ReadError ValueError)
  ∧ run_session
      (mkSession (tstate (run_session session_bad).2) bad_dir ["l"; "q"] [] [])
    = (SRaise (ReadError ValueError),
       mkSession (tstate (run_session session_bad).2) bad_dir ["l"; "q"] [] []).
Proof.
  split; [reflexivity|].
  apply (run_session_unreadable session_bad); reflexivity.
Defined.
